(** * AgentQuest backend: identity registry, wallet authentication and
      submission pipeline

    A shallow embedding of [identityRegistry.ts], [authService.ts],
    [rateLimiter.ts], [submissionService.ts], [submissionHistory.ts] and the
    quest catalog of [quests.ts], followed by the properties of the
    specification that were checked against it.

    Conventions of the embedding.
    - A JavaScript string is the list of its UTF-16 code units, so that
      [length] is the [.length] of the source.
    - A [Map] is a [gmap]; only lookups, insertions and deletions matter to
      the code modelled here, never iteration order.
    - An exception is a value of [Error]; an operation on mutable state is a
      function from the state before to an [Outcome] and the state after,
      the state after a [Thrown] being the state the exception leaves behind.
    - What the environment answers during one call (clock readings, random
      bytes, results of remote services) is an argument of that call.
    - Instants are milliseconds since the epoch; where the source stores the
      ISO-8601 text of an instant and parses it back, the model keeps the
      instant. *)

From Stdlib Require Import ZArith NArith List Ascii Bool Lia DecimalString.
From stdpp Require Import base option list strings gmap.

Local Open Scope Z_scope.

(** ** JavaScript strings *)

Abbreviation jsstring := (list N).

(** A string literal made of ASCII characters. *)
Definition lit (s : string) : jsstring :=
  map N_of_ascii (String.list_ascii_of_string s).

Definition jsLength {A} (s : list A) : Z := Z.of_nat (length s).

(** The characters matched by [\s] and stripped by [String.prototype.trim]:
    the WhiteSpace and LineTerminator code points of ECMAScript. *)
Definition isWhiteSpace (c : N) : bool :=
  ((9 <=? c) && (c <=? 13) || (c =? 32) || (c =? 160) || (c =? 5760)
   || (8192 <=? c) && (c <=? 8202) || (c =? 8232) || (c =? 8233)
   || (c =? 8239) || (c =? 8287) || (c =? 12288) || (c =? 65279))%N.

Fixpoint trimStart (s : jsstring) : jsstring :=
  match s with
  | c :: rest => if isWhiteSpace c then trimStart rest else s
  | [] => []
  end.

Definition trimEnd (s : jsstring) : jsstring := rev (trimStart (rev s)).

(** [s.trim()] *)
Definition trim (s : jsstring) : jsstring := trimEnd (trimStart s).

(** [s.replace(/\s+/g, " ")]: every maximal run of white space becomes one
    space.  [inRun] tells that the previous code unit was white space. *)
Fixpoint collapseRuns (inRun : bool) (s : jsstring) : jsstring :=
  match s with
  | [] => []
  | c :: rest =>
      if isWhiteSpace c
      then (if inRun then collapseRuns true rest else 32%N :: collapseRuns true rest)
      else c :: collapseRuns false rest
  end.

Definition replaceWhitespaceRuns (s : jsstring) : jsstring := collapseRuns false s.

(** [xs.slice(0, end)] for an integral [end], on strings and arrays alike:
    a negative [end] counts from the end of the sequence. *)
Definition slice0 {A} (xs : list A) (end_ : Z) : list A :=
  let len := jsLength xs in
  let to := if end_ <? 0 then Z.max (len + end_) 0 else Z.min end_ len in
  take (Z.to_nat to) xs.

(** Truthiness of a string: every string but the empty one. *)
Definition truthy (s : jsstring) : bool :=
  match s with [] => false | _ => true end.

(** Truthiness of a [string | undefined]. *)
Definition truthyOpt (o : option jsstring) : bool :=
  match o with Some s => truthy s | None => false end.

(** [a || b] on a [string | undefined] and a string. *)
Definition orElse (o : option jsstring) (fallback : jsstring) : jsstring :=
  match o with
  | Some s => if truthy s then s else fallback
  | None => fallback
  end.

(** [String.prototype.toLowerCase] restricted to ASCII text: the letters
    [A-Z] move to [a-z], every other code unit stays. *)
Definition asciiLowerUnit (c : N) : N :=
  if ((65 <=? c) && (c <=? 90))%N then (c + 32)%N else c.

Definition asciiToLowerCase (s : jsstring) : jsstring := map asciiLowerUnit s.

Definition isAsciiAlnum (c : N) : bool :=
  ((48 <=? c) && (c <=? 57) || (65 <=? c) && (c <=? 90)
   || (97 <=? c) && (c <=? 122))%N.

(** [/^<prefix>[a-z0-9]{4,64}$/i.test(s)] for a lower-case ASCII [prefix].
    Without the [u] flag the [i] flag never lets a code unit above 127 match
    an ASCII one, so the match is decided on ASCII alone. *)
Definition matchesIdPattern (prefix s : jsstring) : bool :=
  let body := drop (length prefix) s in
  bool_decide (asciiToLowerCase (take (length prefix) s) = prefix)
  && forallb isAsciiAlnum body
  && (4 <=? length body)%nat && (length body <=? 64)%nat.

(** ** The quest catalog ([quests.ts]) *)

Module Quest.
Record t := mk {
  id : jsstring;
  title : jsstring;
  minAnswerLength : Z;
  maxAnswerLength : Z;
  previewLimit : Z
}.
End Quest.

(** The fields of the six catalog entries that the pipeline reads; the
    descriptive fields (category, instructions, keywords, sample answer)
    only feed the evaluator and the front end. *)
Definition quests : list Quest.t :=
  [ Quest.mk (lit "summarize-news") (lit "Summarize a news article in 3 sentences") 160 1200 150;
    Quest.mk (lit "sql-aggregate") (lit "SQL: calculate revenue by country") 80 1000 110;
    Quest.mk (lit "unit-test") (lit "Write a unit test for a function") 120 1800 160;
    Quest.mk (lit "api-error-handling") (lit "API: outline an error-handling plan") 140 1000 150;
    Quest.mk (lit "prompt-guardrails") (lit "Design guardrails for an LLM") 220 1600 180;
    Quest.mk (lit "debug-log") (lit "Find a bug via logs") 110 900 150 ].

(** [new Map(quests.map((quest) => [quest.id, quest]))] *)
Definition questMap : gmap jsstring Quest.t :=
  list_to_map (map (fun q => (Quest.id q, q)) quests).

(** ** Answer preview ([submissionService.ts]) *)

(** The marker appended to a truncated preview.  [submissionService.ts]
    spells it with the three code units U+00E2 U+20AC U+00A6; the compiled
    build under [dist/] carries the single code unit U+2026. *)
Definition ELLIPSIS_MARK : jsstring := [226; 8364; 166]%N.

Definition formatPreview (text : jsstring) (limit : Z) : jsstring :=
  let sanitized := trim (replaceWhitespaceRuns text) in
  if jsLength sanitized <=? limit then sanitized
  else slice0 sanitized limit ++ ELLIPSIS_MARK.

(** ** Exceptions

    The source throws [new Error(message)] throughout; a constructor of
    [Error] stands for one message (or one message template), and [kindOf]
    files it under the error vocabulary of the specification. *)

Inductive SchemaIssue :=
| SelectAQuest          (* "Select a quest" *)
| ReconnectYourWallet   (* "Reconnect your wallet." *)
| DisplayNameTooShort   (* "Display name must be at least 2 characters long" *)
| DisplayNameTooLong    (* "Display name is too long" *)
| AnswerIsTooShort      (* "Answer is too short" *)
| AnswerIsTooLong.      (* "Answer is too long" *)

Inductive Error :=
| InvalidWallet           (* "Invalid Solana wallet address." *)
| CarvIdFormat            (* "CARV ID must use the format carv_xxx." *)
| AgentIdFormat           (* "Agent ID must use the format agent_xxx." *)
| SignatureNotBase58      (* thrown by bs58.decode on the signature text *)
| PublicKeyRejected       (* thrown by the PublicKey constructor *)
| WalletIdentityConflict  (* "Detected a CARV ID or Agent ID conflict for this wallet. ..." *)
| CarvIdLinked            (* "CARV ID is already linked to another wallet. ..." *)
| AgentIdLinked           (* "Agent ID is already linked to another wallet. ..." *)
| ChallengeNotFound       (* "Challenge not found or expired. Request a new one." *)
| NonceMismatch           (* "Nonce mismatch. Request a fresh challenge." *)
| IdentityMismatch        (* "CARV ID or Agent ID does not match the requested challenge." *)
| ChallengeExpired        (* "Challenge expired. Request a new one." *)
| SignatureRejected       (* thrown by nacl.sign.detached.verify *)
| SignatureFailed         (* "Signature verification failed. ..." *)
| SessionInvalid          (* "Session is invalid. Reconnect your wallet." *)
| SchemaInvalid (issues : list SchemaIssue)  (* the issue messages joined by ". " *)
| QuestNotFound           (* "Quest not found" *)
| AnswerBelowQuestMinimum (minAnswerLength : Z)
| AnswerAboveQuestMaximum (maxAnswerLength : Z)
| WaitBeforeNextAttempt (waitSeconds : option Z).
    (* "Wait N seconds before the next attempt."; "Too many attempts" without N *)

Inductive ErrorKind :=
| ValidationError | ConflictError | NotFoundError | ExpiredError
| MismatchError | SignatureError | InvalidSessionError | LengthError
| RateLimitError.

Definition kindOf (e : Error) : ErrorKind :=
  match e with
  | InvalidWallet | CarvIdFormat | AgentIdFormat | SignatureNotBase58
  | PublicKeyRejected | SchemaInvalid _ => ValidationError
  | WalletIdentityConflict | CarvIdLinked | AgentIdLinked => ConflictError
  | ChallengeNotFound | QuestNotFound => NotFoundError
  | NonceMismatch | IdentityMismatch => MismatchError
  | ChallengeExpired => ExpiredError
  | SignatureRejected | SignatureFailed => SignatureError
  | SessionInvalid => InvalidSessionError
  | AnswerBelowQuestMinimum _ | AnswerAboveQuestMaximum _ => LengthError
  | WaitBeforeNextAttempt _ => RateLimitError
  end.

Inductive Outcome (A : Type) :=
| Returned (a : A)
| Thrown (e : Error).
Arguments Returned {A} a.
Arguments Thrown {A} e.


(** ** Records shared by the components *)

Module IdentityRecord.
Record t := mk {
  wallet : jsstring;
  carvId : jsstring;
  agentId : jsstring;
  alias : option jsstring;
  registeredAt : Z;
  lastVerifiedAt : Z;
  totalVerifications : Z
}.
End IdentityRecord.

(** The argument of [assertCanLink] and [registerIdentity]; the former does
    not read [alias]. *)
Module IdentityInput.
Record t := mk {
  wallet : jsstring;
  carvId : jsstring;
  agentId : jsstring;
  alias : option jsstring
}.
End IdentityInput.

Module ProofPayload.
Record t := mk {
  questId : jsstring;
  wallet : jsstring;
  carvId : jsstring;
  agentId : jsstring;
  userId : jsstring;
  displayName : jsstring;
  score : Z;
  timestamp : jsstring;
  answerPreview : jsstring
}.
End ProofPayload.

(** ** The runtime and the libraries the code calls

    Functions of the JavaScript runtime and of the npm packages [bs58],
    [@solana/web3.js], [tweetnacl] and [node:crypto].  They are pure, and
    the theorems hold for whatever they compute. *)
Class Platform := {
  (** [String.prototype.toLowerCase] *)
  toLowerCase : jsstring -> jsstring;
  (** [new PublicKey(text).toBytes()], [None] when the constructor throws *)
  PublicKey_parse : jsstring -> option (list N);
  (** [publicKey.toBase58()] on the bytes of the key *)
  PublicKey_toBase58 : list N -> jsstring;
  (** [bs58.decode(text)], [None] when it throws *)
  bs58_decode : jsstring -> option (list N);
  (** [nacl.sign.detached.verify(Buffer.from(message, "utf8"), signature, publicKey)],
      [None] when the library throws (it does on a signature or a key of the
      wrong size) *)
  detachedVerify : jsstring -> list N -> list N -> option bool;
  (** [new Date(instant).toISOString()] *)
  toISOString : Z -> jsstring;
  (** [JSON.stringify] on a proof payload *)
  JSON_stringify : ProofPayload.t -> jsstring;
  (** [crypto.createHash("sha256").update(text).digest("hex")] *)
  sha256_hex : jsstring -> jsstring
}.

(** ** Identity registry ([identityRegistry.ts])

    [persist] writes a snapshot of the three maps to disk and swallows its
    own failures; it never changes the maps and is left out. *)

Record IdentityRegistry := mkRegistry {
  walletToIdentity : gmap jsstring IdentityRecord.t;
  carvIdToWallet : gmap jsstring jsstring;
  agentIdToWallet : gmap jsstring jsstring
}.

Definition emptyRegistry : IdentityRegistry := mkRegistry ∅ ∅ ∅.

Section Registry.
Context `{Platform}.

Definition normalizeKeys (input : IdentityInput.t) : jsstring * jsstring * jsstring :=
  (toLowerCase (IdentityInput.wallet input),
   toLowerCase (IdentityInput.carvId input),
   toLowerCase (IdentityInput.agentId input)).

Definition getIdentity (wallet : jsstring) (reg : IdentityRegistry)
  : option IdentityRecord.t :=
  walletToIdentity reg !! toLowerCase wallet.

(** [owner && owner !== walletKey] *)
Definition ownedByOther (owner : option jsstring) (walletKey : jsstring) : bool :=
  truthyOpt owner && negb (bool_decide (owner = Some walletKey)).

(** [existing.carvId.toLowerCase() !== carvKey ||
     existing.agentId.toLowerCase() !== agentKey] *)
Definition bindingDiffers (existing : IdentityRecord.t) (carvKey agentKey : jsstring) : bool :=
  negb (bool_decide (toLowerCase (IdentityRecord.carvId existing) = carvKey))
  || negb (bool_decide (toLowerCase (IdentityRecord.agentId existing) = agentKey)).

Definition assertCanLink (input : IdentityInput.t) (reg : IdentityRegistry)
  : Outcome (option IdentityRecord.t) :=
  let '(walletKey, carvKey, agentKey) := normalizeKeys input in
  match walletToIdentity reg !! walletKey with
  | Some existing =>
      if bindingDiffers existing carvKey agentKey
      then Thrown WalletIdentityConflict
      else Returned (Some existing)
  | None =>
      if ownedByOther (carvIdToWallet reg !! carvKey) walletKey
      then Thrown CarvIdLinked
      else if ownedByOther (agentIdToWallet reg !! agentKey) walletKey
      then Thrown AgentIdLinked
      else Returned None
  end.

(** [record.lastVerifiedAt = new Date().toISOString();
     record.totalVerifications += 1] *)
Definition touchIdentity (now : Z) (record : IdentityRecord.t) : IdentityRecord.t :=
  IdentityRecord.mk
    (IdentityRecord.wallet record) (IdentityRecord.carvId record)
    (IdentityRecord.agentId record) (IdentityRecord.alias record)
    (IdentityRecord.registeredAt record)
    now (IdentityRecord.totalVerifications record + 1).

(** [existing.alias = input.alias ?? existing.alias] *)
Definition withAlias (supplied : option jsstring) (existing : IdentityRecord.t)
  : IdentityRecord.t :=
  IdentityRecord.mk
    (IdentityRecord.wallet existing) (IdentityRecord.carvId existing)
    (IdentityRecord.agentId existing)
    (match supplied with
     | Some a => Some a
     | None => IdentityRecord.alias existing
     end)
    (IdentityRecord.registeredAt existing)
    (IdentityRecord.lastVerifiedAt existing)
    (IdentityRecord.totalVerifications existing).

(** The record found under [walletKey] is the one object every holder of
    it shares, so assigning to its fields is an update of the map entry.
    [now] is the one clock reading of the call: [touchIdentity] takes it on
    a known wallet, the new record on an unknown one. *)
Definition registerIdentity (now : Z) (input : IdentityInput.t) (reg : IdentityRegistry)
  : Outcome IdentityRecord.t * IdentityRegistry :=
  let '(walletKey, carvKey, agentKey) := normalizeKeys input in
  match walletToIdentity reg !! walletKey with
  | Some existing =>
      if bindingDiffers existing carvKey agentKey
      then (Thrown WalletIdentityConflict, reg)
      else
        let updated := touchIdentity now (withAlias (IdentityInput.alias input) existing) in
        (Returned updated,
         mkRegistry (<[walletKey := updated]> (walletToIdentity reg))
                    (carvIdToWallet reg) (agentIdToWallet reg))
  | None =>
      match assertCanLink input reg with
      | Thrown e => (Thrown e, reg)
      | Returned _ =>
          let record :=
            IdentityRecord.mk
              (IdentityInput.wallet input) (IdentityInput.carvId input)
              (IdentityInput.agentId input) (IdentityInput.alias input)
              now now 1 in
          (Returned record,
           mkRegistry (<[walletKey := record]> (walletToIdentity reg))
                      (<[carvKey := walletKey]> (carvIdToWallet reg))
                      (<[agentKey := walletKey]> (agentIdToWallet reg)))
      end
  end.

(** The public [touchIdentity(record)] applied to the record object the
    registry holds under [walletKey]; on any other object the call does
    not reach the registry. *)
Definition touchStored (now : Z) (walletKey : jsstring) (reg : IdentityRegistry)
  : IdentityRegistry :=
  mkRegistry (alter (touchIdentity now) walletKey (walletToIdentity reg))
             (carvIdToWallet reg) (agentIdToWallet reg).

(** A call of the registry's interface. *)
Inductive RegistryCall :=
| CallAssertCanLink (input : IdentityInput.t)
| CallRegisterIdentity (now : Z) (input : IdentityInput.t)
| CallTouchIdentity (now : Z) (walletKey : jsstring).

Definition runRegistryCall (c : RegistryCall) (reg : IdentityRegistry) : IdentityRegistry :=
  match c with
  | CallAssertCanLink _ => reg
  | CallRegisterIdentity now input => snd (registerIdentity now input reg)
  | CallTouchIdentity now walletKey => touchStored now walletKey reg
  end.

(** The registry after a sequence of calls, the first call first; a call
    that throws leaves what it leaves and the sequence goes on. *)
Definition runRegistryCalls (calls : list RegistryCall) (reg : IdentityRegistry)
  : IdentityRegistry :=
  foldl (fun r c => runRegistryCall c r) reg calls.

(** No two records share a CARV ID or an agent ID, compared without case. *)
Definition uniqueBindings (reg : IdentityRegistry) : Prop :=
  forall k1 k2 r1 r2,
    walletToIdentity reg !! k1 = Some r1 ->
    walletToIdentity reg !! k2 = Some r2 ->
    k1 <> k2 ->
    toLowerCase (IdentityRecord.carvId r1) <> toLowerCase (IdentityRecord.carvId r2)
    /\ toLowerCase (IdentityRecord.agentId r1) <> toLowerCase (IdentityRecord.agentId r2).

(** The sequence registers no wallet whose key is the empty string. *)
Definition registersNamedWallet (c : RegistryCall) : Prop :=
  match c with
  | CallRegisterIdentity _ input => toLowerCase (IdentityInput.wallet input) <> []
  | _ => True
  end.
End Registry.

(** ** Operations on mutable state *)

Definition Op (S A : Type) : Type := S -> Outcome A * S.

Definition opRet {S A} (a : A) : Op S A := fun s => (Returned a, s).
Definition opThrow {S A} (e : Error) : Op S A := fun s => (Thrown e, s).
Definition opBind {S A B} (m : Op S A) (k : A -> Op S B) : Op S B :=
  fun s =>
    match m s with
    | (Returned a, s') => k a s'
    | (Thrown e, s') => (Thrown e, s')
    end.
Definition opRead {S A} (f : S -> A) : Op S A := fun s => (Returned (f s), s).
Definition opWrite {S} (f : S -> S) : Op S unit := fun s => (Returned tt, f s).
(** A computation that may throw and touches no state. *)
Definition opPure {S A} (o : Outcome A) : Op S A := fun s => (o, s).

Notation "'do!' x <- m ; k" := (opBind m (fun x => k))
  (at level 10, x name, m at level 100, k at level 200).
Notation "'run!' m ; k" := (opBind m (fun _ => k))
  (at level 10, m at level 100, k at level 200).

(** [a ?? b] *)
Definition nullish {A} (a b : option A) : option A :=
  match a with Some _ => a | None => b end.

(** [lines.join(sep)] *)
Fixpoint join (sep : jsstring) (lines : list jsstring) : jsstring :=
  match lines with
  | [] => []
  | [line] => line
  | line :: rest => line ++ sep ++ join sep rest
  end.

(** ** Wallet authentication ([authService.ts])

    Calls of [logger] are left out. *)

Module WalletChallenge.
Record t := mk {
  wallet : jsstring;
  carvId : jsstring;
  agentId : jsstring;
  alias : option jsstring;
  nonce : jsstring;
  message : jsstring;
  expiresAt : jsstring;
  expiresAtTs : Z
}.
End WalletChallenge.

(** [issuedAt] and [expiresAt] are the instants whose ISO-8601 text the
    session carries. *)
Module WalletSession.
Record t := mk {
  token : jsstring;
  wallet : jsstring;
  carvId : jsstring;
  agentId : jsstring;
  alias : option jsstring;
  issuedAt : Z;
  expiresAt : Z
}.
End WalletSession.

Record AuthService := mkAuthService {
  identityRegistry : IdentityRegistry;
  challenges : gmap jsstring WalletChallenge.t;
  sessions : gmap jsstring WalletSession.t;
  sessionTtlMinutes : Z;
  challengeTtlMinutes : Z
}.

Definition newAuthService (registry : IdentityRegistry) (sessionTtl challengeTtl : Z)
  : AuthService :=
  mkAuthService registry ∅ ∅ sessionTtl challengeTtl.

Definition withRegistry (f : IdentityRegistry -> IdentityRegistry) (svc : AuthService)
  : AuthService :=
  mkAuthService (f (identityRegistry svc)) (challenges svc) (sessions svc)
                (sessionTtlMinutes svc) (challengeTtlMinutes svc).

Definition withChallenges
    (f : gmap jsstring WalletChallenge.t -> gmap jsstring WalletChallenge.t)
    (svc : AuthService) : AuthService :=
  mkAuthService (identityRegistry svc) (f (challenges svc)) (sessions svc)
                (sessionTtlMinutes svc) (challengeTtlMinutes svc).

Definition withSessions
    (f : gmap jsstring WalletSession.t -> gmap jsstring WalletSession.t)
    (svc : AuthService) : AuthService :=
  mkAuthService (identityRegistry svc) (challenges svc) (f (sessions svc))
                (sessionTtlMinutes svc) (challengeTtlMinutes svc).

(** What the environment answers during one [requestChallenge]. *)
Record ChallengeEnv := mkChallengeEnv {
  freshNonce : jsstring;   (* randomBase58(16) *)
  renderedAt : Z;          (* new Date() of the "Issued At" line *)
  requestedAt : Z          (* Date.now() of the expiry *)
}.

Module VerifyInput.
Record t := mk {
  wallet : jsstring;
  carvId : jsstring;
  agentId : jsstring;
  signature : jsstring;
  nonce : jsstring
}.
End VerifyInput.

(** What the environment answers during one [verifyChallenge]. *)
Record VerifyEnv := mkVerifyEnv {
  sweptAt : Z;           (* Date.now() in dropExpiredChallenges *)
  checkedAt : Z;         (* Date.now() of the expiry check *)
  registeredOn : Z;      (* new Date() in registerIdentity / touchIdentity *)
  sessionIssuedAt : Z;   (* new Date() in createSession *)
  freshToken : jsstring  (* randomBase58(24) *)
}.

Definition CARV_ID_PREFIX : jsstring := lit "carv_".
Definition AGENT_ID_PREFIX : jsstring := lit "agent_".

Definition sanitizeAlias (alias : option jsstring) : option jsstring :=
  if negb (truthyOpt alias) then None
  else
    let trimmed := trim (default [] alias) in
    if negb (truthy trimmed) then None
    else Some (slice0 trimmed 40).

Section Auth.
Context `{Platform}.

Definition validateWallet (wallet : jsstring) : Outcome jsstring :=
  match PublicKey_parse wallet with
  | Some pubKey => Returned (PublicKey_toBase58 pubKey)
  | None => Thrown InvalidWallet
  end.

Definition validateCarvId (carvId : jsstring) : Outcome jsstring :=
  if negb (truthy carvId) || negb (matchesIdPattern CARV_ID_PREFIX carvId)
  then Thrown CarvIdFormat else Returned carvId.

Definition validateAgentId (agentId : jsstring) : Outcome jsstring :=
  if negb (truthy agentId) || negb (matchesIdPattern AGENT_ID_PREFIX agentId)
  then Thrown AgentIdFormat else Returned agentId.

(** The text the wallet signs; U+00B7 is the middle dot of the title and
    U+2014 the dash shown for a missing alias. *)
Definition challengeMessage (wallet carvId agentId : jsstring)
    (alias : option jsstring) (nonce : jsstring) (at_ : Z) : jsstring :=
  join [10%N]
    [ lit "AgentQuest " ++ [183%N] ++ lit " Wallet Login";
      lit "Wallet: " ++ wallet;
      lit "CARV ID: " ++ carvId;
      lit "Agent ID: " ++ agentId;
      lit "Alias: " ++ default [8212%N] alias;
      lit "Nonce: " ++ nonce;
      lit "Issued At: " ++ toISOString at_ ].

Definition requestChallenge (env : ChallengeEnv) (input : IdentityInput.t)
  : Op AuthService WalletChallenge.t :=
  do! wallet <- opPure (validateWallet (IdentityInput.wallet input));
  do! carvId <- opPure (validateCarvId (IdentityInput.carvId input));
  do! agentId <- opPure (validateAgentId (IdentityInput.agentId input));
  let alias := sanitizeAlias (IdentityInput.alias input) in
  do! identity <- (fun svc =>
      (assertCanLink (IdentityInput.mk wallet carvId agentId None)
                     (identityRegistry svc), svc));
  let shownAlias := nullish alias (identity ≫= IdentityRecord.alias) in
  let nonce := freshNonce env in
  let message :=
    challengeMessage wallet carvId agentId shownAlias nonce (renderedAt env) in
  do! ttl <- opRead challengeTtlMinutes;
  let expiresAtTs := requestedAt env + ttl * 60000 in
  let payload :=
    WalletChallenge.mk wallet carvId agentId shownAlias nonce message
                       (toISOString expiresAtTs) expiresAtTs in
  run! opWrite (withChallenges (insert (toLowerCase wallet) payload));
  opRet payload.

(** The loop deletes, of every pending challenge, those with
    [expiresAtTs < now]. *)
Definition dropExpiredChallenges (now : Z) : Op AuthService unit :=
  opWrite (withChallenges
    (filter (fun entry => ¬ (WalletChallenge.expiresAtTs entry.2 < now)))).

Definition createSession (issuedAt : Z) (token : jsstring) (identity : IdentityRecord.t)
  : Op AuthService WalletSession.t :=
  do! ttl <- opRead sessionTtlMinutes;
  let session :=
    WalletSession.mk token
      (IdentityRecord.wallet identity) (IdentityRecord.carvId identity)
      (IdentityRecord.agentId identity) (IdentityRecord.alias identity)
      issuedAt (issuedAt + ttl * 60000) in
  run! opWrite (withSessions (insert token session));
  opRet session.

Definition verifyChallenge (env : VerifyEnv) (input : VerifyInput.t)
  : Op AuthService WalletSession.t :=
  do! wallet <- opPure (validateWallet (VerifyInput.wallet input));
  do! carvId <- opPure (validateCarvId (VerifyInput.carvId input));
  do! agentId <- opPure (validateAgentId (VerifyInput.agentId input));
  do! signatureBytes <- opPure
      (match bs58_decode (VerifyInput.signature input) with
       | Some bytes => Returned bytes
       | None => Thrown SignatureNotBase58
       end);
  run! dropExpiredChallenges (sweptAt env);
  do! found <- opRead (fun svc => challenges svc !! toLowerCase wallet);
  match found with
  | None => opThrow ChallengeNotFound
  | Some challenge =>
      if negb (bool_decide (WalletChallenge.nonce challenge = VerifyInput.nonce input))
      then opThrow NonceMismatch
      else if negb (bool_decide (toLowerCase (WalletChallenge.carvId challenge)
                                 = toLowerCase carvId))
              || negb (bool_decide (toLowerCase (WalletChallenge.agentId challenge)
                                    = toLowerCase agentId))
      then opThrow IdentityMismatch
      else if WalletChallenge.expiresAtTs challenge <? checkedAt env
      then
        run! opWrite (withChallenges (delete (toLowerCase wallet)));
        opThrow ChallengeExpired
      else
        do! publicKey <- opPure
            (match PublicKey_parse wallet with
             | Some key => Returned key
             | None => Thrown PublicKeyRejected
             end);
        do! verified <- opPure
            (match detachedVerify (WalletChallenge.message challenge)
                                  signatureBytes publicKey with
             | Some answer => Returned answer
             | None => Thrown SignatureRejected
             end);
        if negb verified
        then opThrow SignatureFailed
        else
          do! identity <- (fun svc =>
              let '(result, registry) :=
                registerIdentity (registeredOn env)
                  (IdentityInput.mk wallet carvId agentId
                                    (WalletChallenge.alias challenge))
                  (identityRegistry svc) in
              (result, withRegistry (fun _ => registry) svc));
          do! session <- createSession (sessionIssuedAt env) (freshToken env) identity;
          run! opWrite (withChallenges (delete (toLowerCase wallet)));
          opRet session
  end.

Definition getSession (now : Z) (token : jsstring)
  : Op AuthService (option WalletSession.t) :=
  do! found <- opRead (fun svc => sessions svc !! token);
  match found with
  | None => opRet None
  | Some session =>
      if WalletSession.expiresAt session <? now
      then run! opWrite (withSessions (delete token)); opRet None
      else opRet (Some session)
  end.

Definition assertSession (now : Z) (token : jsstring) : Op AuthService WalletSession.t :=
  do! session <- getSession now token;
  match session with
  | None => opThrow SessionInvalid
  | Some s => opRet s
  end.

Definition invalidateSession (token : jsstring) : Op AuthService unit :=
  opWrite (withSessions (delete token)).

(** The calls of the service other than [requestChallenge]. *)
Inductive AuthCall :=
| CallVerifyChallenge (env : VerifyEnv) (input : VerifyInput.t)
| CallGetSession (now : Z) (token : jsstring)
| CallInvalidateSession (token : jsstring).

Definition runAuthCall (c : AuthCall) (svc : AuthService) : AuthService :=
  match c with
  | CallVerifyChallenge env input => snd (verifyChallenge env input svc)
  | CallGetSession now token => snd (getSession now token svc)
  | CallInvalidateSession token => snd (invalidateSession token svc)
  end.

Definition runAuthCalls (calls : list AuthCall) (svc : AuthService) : AuthService :=
  foldl (fun s c => runAuthCall c s) svc calls.

(** Any call of the service. *)
Inductive ServiceCall :=
| CallRequestChallenge (env : ChallengeEnv) (input : IdentityInput.t)
| CallOther (c : AuthCall).

Definition runServiceCall (c : ServiceCall) (svc : AuthService) : AuthService :=
  match c with
  | CallRequestChallenge env input => snd (requestChallenge env input svc)
  | CallOther c => runAuthCall c svc
  end.

Definition runServiceCalls (calls : list ServiceCall) (svc : AuthService) : AuthService :=
  foldl (fun s c => runServiceCall c s) svc calls.

(** Every text the [PublicKey] constructor accepts has a canonical base58
    text whose lower-cased form is not empty. *)
Definition namesEveryKey : Prop :=
  forall text key,
    PublicKey_parse text = Some key -> toLowerCase (PublicKey_toBase58 key) <> [].
End Auth.

(** ** Per-quest rate limit ([rateLimiter.ts]) *)

Definition SUBMISSION_WINDOW_MS : Z := 60000.

(** [Math.ceil(x / d)] for integers [x] and [d > 0]. *)
Definition ceilDiv (x d : Z) : Z := - ((- x) / d).

(** [waitSeconds] is the number the message of a refusal carries. *)
Record RateLimitResult := mkRateLimitResult {
  allowed : bool;
  waitSeconds : option Z
}.

(** Truthiness of a [number | undefined] that is never [NaN]. *)
Definition truthyNumber (o : option Z) : bool :=
  match o with Some n => negb (n =? 0) | None => false end.

Section RateLimiter.
Context `{Platform}.

Definition submissionKey (questId userId : jsstring) : jsstring :=
  toLowerCase (questId ++ lit ":" ++ userId).

(** [recentSubmissions] is the module-level map; [now] is the one
    [Date.now()] of the call. *)
Definition checkUserQuestRateLimit (now : Z) (questId userId : jsstring)
    (recentSubmissions : gmap jsstring Z) : RateLimitResult * gmap jsstring Z :=
  let key := submissionKey questId userId in
  let lastSubmission := recentSubmissions !! key in
  if truthyNumber lastSubmission
     && (now - default 0 lastSubmission <? SUBMISSION_WINDOW_MS)
  then
    (mkRateLimitResult false
       (Some (ceilDiv (SUBMISSION_WINDOW_MS - (now - default 0 lastSubmission)) 1000)),
     recentSubmissions)
  else
    (mkRateLimitResult true None, <[key := now]> recentSubmissions).

(** The sweep that [index.ts] runs every minute. *)
Definition clearExpiredSubmissions (now : Z) (recentSubmissions : gmap jsstring Z)
  : gmap jsstring Z :=
  let cutoff := now - SUBMISSION_WINDOW_MS in
  filter (fun entry => ¬ (entry.2 < cutoff)) recentSubmissions.

(** What can happen to the map: a sweep, or the check of a submission. *)
Inductive LimiterEvent :=
| EventSweep (now : Z)
| EventCheck (now : Z) (questId userId : jsstring).




End RateLimiter.

(** ** Submission pipeline ([submissionService.ts], [submissionHistory.ts]) *)

Inductive MemoResult :=
| MemoSubmitted (signature explorerUrl : jsstring) (memoVerified : bool)
| MemoSkipped (message : jsstring)
| MemoFailed (message : jsstring).

Inductive OnChainStatus := StatusSubmitted | StatusSkipped | StatusFailed.

Definition memoStatus (m : MemoResult) : OnChainStatus :=
  match m with
  | MemoSubmitted _ _ _ => StatusSubmitted
  | MemoSkipped _ => StatusSkipped
  | MemoFailed _ => StatusFailed
  end.

Inductive RewardReceipt :=
| RewardMinted (amountRaw amountDisplay signature explorerUrl mint : jsstring)
| RewardSkipped (amountRaw amountDisplay reason mint : jsstring)
| RewardFailed (amountRaw amountDisplay reason mint : jsstring).

Record EvaluationResult := mkEvaluation {
  score : Z;
  reasoning : jsstring;
  usedLLM : bool
}.

Module SubmissionResponse.
Record t := mk {
  questId : jsstring;
  questTitle : jsstring;
  userId : jsstring;
  displayName : jsstring;
  wallet : jsstring;
  carvId : jsstring;
  agentId : jsstring;
  score : Z;
  reasoning : jsstring;
  timestamp : jsstring;
  answerPreview : jsstring;
  proofHash : jsstring;
  memoText : jsstring;
  usedLLM : bool;
  onChainStatus : OnChainStatus;
  onChainVerified : option bool;
  transactionSignature : option jsstring;
  explorerUrl : option jsstring;
  onChainMessage : option jsstring;
  reward : option RewardReceipt
}.
End SubmissionResponse.

Record SubmissionHistory := mkHistory {
  maxEntriesPerUser : Z;
  storage : gmap jsstring (list SubmissionResponse.t)
}.

(** The request body, taken with its fields present and of type string;
    a body of another shape fails the schema like any other. *)
Module SubmissionInput.
Record t := mk {
  questId : jsstring;
  sessionToken : jsstring;
  displayName : option jsstring;
  answer : jsstring
}.
End SubmissionInput.

(** [SubmissionSchema.safeParse]: every field is trimmed, then measured;
    the issues come in the order of the schema. *)
Definition schemaIssues (raw : SubmissionInput.t) : list SchemaIssue :=
  (if jsLength (trim (SubmissionInput.questId raw)) <? 1 then [SelectAQuest] else [])
  ++ (if jsLength (trim (SubmissionInput.sessionToken raw)) <? 10
      then [ReconnectYourWallet] else [])
  ++ match SubmissionInput.displayName raw with
     | None => []
     | Some name =>
         (if jsLength (trim name) <? 2 then [DisplayNameTooShort] else [])
         ++ (if 80 <? jsLength (trim name) then [DisplayNameTooLong] else [])
     end
  ++ (if jsLength (trim (SubmissionInput.answer raw)) <? 10 then [AnswerIsTooShort] else [])
  ++ (if 4000 <? jsLength (trim (SubmissionInput.answer raw)) then [AnswerIsTooLong] else []).

Definition parseSubmission (raw : SubmissionInput.t) : Outcome SubmissionInput.t :=
  match schemaIssues raw with
  | [] =>
      Returned (SubmissionInput.mk
                  (trim (SubmissionInput.questId raw))
                  (trim (SubmissionInput.sessionToken raw))
                  (trim <$> SubmissionInput.displayName raw)
                  (trim (SubmissionInput.answer raw)))
  | issues => Thrown (SchemaInvalid issues)
  end.

(** What the environment answers during one [submit]. *)
Record SubmitEnv := mkSubmitEnv {
  sessionCheckedAt : Z;           (* Date.now() in getSession *)
  rateLimitedAt : Z;              (* Date.now() in checkUserQuestRateLimit *)
  stampedAt : Z;                  (* new Date() in buildProofPayload *)
  evaluation : EvaluationResult;  (* what evaluateAnswer resolves to *)
  memoResult : MemoResult;        (* what memoClient.submitMemo resolves to *)
  rewardReceipt : RewardReceipt   (* what rewardService.distributeReward resolves to *)
}.

(** The state [submit] works on: the authentication service, the rate
    limiter's module-level map and the optional history. *)
Record Backend := mkBackend {
  authService : AuthService;
  recentSubmissions : gmap jsstring Z;
  history : option SubmissionHistory
}.

Section Submission.
Context `{Platform}.

Definition buildProofPayload (quest : Quest.t) (session : WalletSession.t)
    (displayName answer : jsstring) (score : Z) (now : Z) : ProofPayload.t :=
  let timestamp := toISOString now in
  ProofPayload.mk
    (Quest.id quest)
    (WalletSession.wallet session) (WalletSession.carvId session)
    (WalletSession.agentId session)
    displayName displayName score timestamp
    (formatPreview answer (Quest.previewLimit quest)).

Definition serializePayload (payload : ProofPayload.t) : jsstring :=
  JSON_stringify payload.

Definition hashPayload (payload : ProofPayload.t) : jsstring :=
  sha256_hex (serializePayload payload).

Definition recordSubmission (wallet : jsstring) (entry : SubmissionResponse.t)
    (h : SubmissionHistory) : SubmissionHistory :=
  let key := toLowerCase wallet in
  let existing := default [] (storage h !! key) in
  let updated := slice0 (entry :: existing) (maxEntriesPerUser h) in
  mkHistory (maxEntriesPerUser h) (<[key := updated]> (storage h)).

(** An operation of the authentication service run on the backend. *)
Definition onAuthService {A} (m : Op AuthService A) : Op Backend A :=
  fun b =>
    let '(result, svc) := m (authService b) in
    (result, mkBackend svc (recentSubmissions b) (history b)).

Definition onRateLimiter (now : Z) (questId userId : jsstring)
  : Op Backend RateLimitResult :=
  fun b =>
    let '(result, recent) := checkUserQuestRateLimit now questId userId (recentSubmissions b) in
    (Returned result, mkBackend (authService b) recent (history b)).

(** [this.history?.recordSubmission(wallet, response)] *)
Definition onHistory (wallet : jsstring) (response : SubmissionResponse.t)
  : Op Backend unit :=
  opWrite (fun b =>
    mkBackend (authService b) (recentSubmissions b)
              (recordSubmission wallet response <$> history b)).

(** The response as it stands when [submit] returns it: the fields of the
    object literal, then those assigned after the memo and the reward. *)
Definition composeResponse (quest : Quest.t) (session : WalletSession.t)
    (displayName : jsstring) (evaluated : EvaluationResult)
    (proofPayload : ProofPayload.t) (proofHash memoText : jsstring)
    (memo : MemoResult) (receipt : RewardReceipt) : SubmissionResponse.t :=
  SubmissionResponse.mk
    (Quest.id quest) (Quest.title quest) displayName displayName
    (WalletSession.wallet session) (WalletSession.carvId session)
    (WalletSession.agentId session)
    (score evaluated) (reasoning evaluated)
    (ProofPayload.timestamp proofPayload)
    (ProofPayload.answerPreview proofPayload)
    proofHash memoText (usedLLM evaluated)
    (memoStatus memo)
    (match memo with MemoSubmitted _ _ verified => Some verified | _ => None end)
    (match memo with MemoSubmitted signature _ _ => Some signature | _ => None end)
    (match memo with MemoSubmitted _ url _ => Some url | _ => None end)
    (match memo with
     | MemoSubmitted _ _ _ => None
     | MemoSkipped message | MemoFailed message => Some message
     end)
    (Some receipt).

(** [submit] in three stages, in the order of the source.  Steps 1 to 5:
    schema, session, quest, length bounds, display name. *)
Definition resolveSubmission (env : SubmitEnv) (raw : SubmissionInput.t)
  : Op Backend (SubmissionInput.t * WalletSession.t * Quest.t * jsstring) :=
  do! input <- opPure (parseSubmission raw);
  do! session <- onAuthService
      (assertSession (sessionCheckedAt env) (SubmissionInput.sessionToken input));
  match questMap !! SubmissionInput.questId input with
  | None => opThrow QuestNotFound
  | Some quest =>
      if jsLength (SubmissionInput.answer input) <? Quest.minAnswerLength quest
      then opThrow (AnswerBelowQuestMinimum (Quest.minAnswerLength quest))
      else if Quest.maxAnswerLength quest <? jsLength (SubmissionInput.answer input)
      then opThrow (AnswerAboveQuestMaximum (Quest.maxAnswerLength quest))
      else
        let displayName :=
          orElse (trim <$> SubmissionInput.displayName input)
                 (orElse (WalletSession.alias session) (WalletSession.wallet session)) in
        opRet (input, session, quest, displayName)
  end.

(** Steps 1 to 6: the above, then the rate limit. *)
Definition admitSubmission (env : SubmitEnv) (raw : SubmissionInput.t)
  : Op Backend (SubmissionInput.t * WalletSession.t * Quest.t * jsstring) :=
  do! resolved <- resolveSubmission env raw;
  let '(input, session, quest, displayName) := resolved in
  do! rateLimitResult <- onRateLimiter (rateLimitedAt env) (Quest.id quest)
                                       (WalletSession.wallet session);
  if negb (allowed rateLimitResult)
  then opThrow (WaitBeforeNextAttempt (waitSeconds rateLimitResult))
  else opRet resolved.

(** Steps 7 to 12 follow: evaluation, proof payload and hash, memo,
    reward, history. *)
Definition submit (env : SubmitEnv) (raw : SubmissionInput.t)
  : Op Backend SubmissionResponse.t :=
  do! admitted <- admitSubmission env raw;
  let '(input, session, quest, displayName) := admitted in
  let evaluated := evaluation env in
  let proofPayload :=
    buildProofPayload quest session displayName (SubmissionInput.answer input)
                      (score evaluated) (stampedAt env) in
  let proofHash := hashPayload proofPayload in
  let memoText := lit "AgentQuest:" ++ proofHash in
  let response :=
    composeResponse quest session displayName evaluated proofPayload proofHash
                    memoText (memoResult env) (rewardReceipt env) in
  run! onHistory (WalletSession.wallet session) response;
  opRet response.
End Submission.

(** ** Lookups of the identity registry ([identityRegistry.ts]) *)

Section RegistryLookups.
Context `{Platform}.

(** [wallet ? this.getIdentity(wallet) : undefined] on the owner an index
    returned. *)
Definition identityOfOwner (owner : option jsstring) (reg : IdentityRegistry)
  : option IdentityRecord.t :=
  if truthyOpt owner then getIdentity (default [] owner) reg else None.

Definition getIdentityByCarvId (carvId : jsstring) (reg : IdentityRegistry)
  : option IdentityRecord.t :=
  identityOfOwner (carvIdToWallet reg !! toLowerCase carvId) reg.

Definition getIdentityByAgentId (agentId : jsstring) (reg : IdentityRegistry)
  : option IdentityRecord.t :=
  identityOfOwner (agentIdToWallet reg !! toLowerCase agentId) reg.

(** The later record names the same wallet, CARV ID, agent ID and
    registration instant as the earlier one, and counts no fewer
    verifications. *)
Definition sameBinding (before after : IdentityRecord.t) : Prop :=
  IdentityRecord.wallet after = IdentityRecord.wallet before
  /\ IdentityRecord.carvId after = IdentityRecord.carvId before
  /\ IdentityRecord.agentId after = IdentityRecord.agentId before
  /\ IdentityRecord.registeredAt after = IdentityRecord.registeredAt before
  /\ IdentityRecord.totalVerifications before <= IdentityRecord.totalVerifications after.
End RegistryLookups.

(** ** Reads and resets of the history ([submissionHistory.ts]) *)

Section HistoryReads.
Context `{Platform}.

(** [limit] is the second argument, 10 when the caller leaves it out. *)
Definition getRecentSubmissions (wallet : jsstring) (limit : Z) (h : SubmissionHistory)
  : list SubmissionResponse.t :=
  let key := toLowerCase wallet in
  let entries := default [] (storage h !! key) in
  slice0 entries limit.

Definition clearUser (wallet : jsstring) (h : SubmissionHistory) : SubmissionHistory :=
  let key := toLowerCase wallet in
  mkHistory (maxEntriesPerUser h) (delete key (storage h)).

(** Calls of [recordSubmission], the first one first. *)
Definition recordAll (records : list (jsstring * SubmissionResponse.t))
    (h : SubmissionHistory) : SubmissionHistory :=
  foldl (fun h r => recordSubmission r.1 r.2 h) h records.

(** The entries among [records] filed for [wallet] in any spelling, the
    latest first. *)
Definition recordedFor (wallet : jsstring)
    (records : list (jsstring * SubmissionResponse.t)) : list SubmissionResponse.t :=
  rev (map snd (filter (fun r => toLowerCase r.1 = toLowerCase wallet) records)).
End HistoryReads.

(** ** Runs of the rate limiter *)

Section LimiterRuns.
Context `{Platform}.

(** The answers of the checks in a sequence of events, in order. *)
Fixpoint limiterResults (events : list LimiterEvent) (recentSubmissions : gmap jsstring Z)
  : list RateLimitResult :=
  match events with
  | [] => []
  | EventSweep now :: rest =>
      limiterResults rest (clearExpiredSubmissions now recentSubmissions)
  | EventCheck now questId userId :: rest =>
      let '(result, recent) :=
        checkUserQuestRateLimit now questId userId recentSubmissions in
      result :: limiterResults rest recent
  end.

Definition eventTime (e : LimiterEvent) : Z :=
  match e with EventSweep now | EventCheck now _ _ => now end.

Definition isCheck (e : LimiterEvent) : bool :=
  match e with EventSweep _ => false | EventCheck _ _ _ => true end.

(** The clock never runs backwards: no event reads an earlier instant
    than [t] or than the event before it. *)
Fixpoint clockOrdered (t : Z) (events : list LimiterEvent) : Prop :=
  match events with
  | [] => True
  | e :: rest => t <= eventTime e /\ clockOrdered (eventTime e) rest
  end.

(** [swept] is [plain] without some of the entries that are older than one
    window at instant [t]. *)
Definition sweptFrom (t : Z) (swept plain : gmap jsstring Z) : Prop :=
  forall k,
    swept !! k = plain !! k
    \/ (swept !! k = None
        /\ exists stamp, plain !! k = Some stamp /\ stamp < t - SUBMISSION_WINDOW_MS).
End LimiterRuns.

(** ** Shape of a sanitized text *)

(** Every white-space code unit of [s] is a space that follows no other
    white space; [afterSpace] tells that the code unit before [s] was
    one. *)
Fixpoint spacedOnce (afterSpace : bool) (s : jsstring) : bool :=
  match s with
  | [] => true
  | c :: rest =>
      if isWhiteSpace c
      then (c =? 32)%N && negb afterSpace && spacedOnce true rest
      else spacedOnce false rest
  end.

(** ** Pending OAuth states ([carvOAuthService.ts])

    [createAuthorizationUrl] and [exchangeCode] as far as the map of
    pending states goes; the URL, the token and the profile come from the
    configuration and from the CARV server. *)

Inductive OAuthError :=
| OAuthNotConfigured   (* "CARV OAuth is not configured on the server" *)
| OAuthStateRejected   (* "OAuth state was not found or has expired. Please restart the login." *)
| OAuthExchangeFailed  (* thrown by fetchToken *)
| OAuthProfileFailed   (* thrown by fetchProfile *)
| OAuthProfileIncomplete. (* "CARV OAuth response does not contain required identifiers." *)

Record CarvProfile := mkCarvProfile {
  profileCarvId : jsstring;
  profileAgentId : jsstring;
  profileAlias : option jsstring;
  profileWallet : option jsstring
}.

Record CarvOAuthService := mkCarvOAuthService {
  oauthEnabled : bool;
  pendingStates : gmap jsstring Z
}.

Definition stateTtlMs : Z := 10 * 60 * 1000.

(** [freshState] is the text of the random bytes, [issuedAt] the reading
    of the clock that dates the state and [cleanedAt] the one of
    [cleanupStates]. *)
Definition cleanupStates (now : Z) (pending : gmap jsstring Z) : gmap jsstring Z :=
  filter (fun entry => ¬ (entry.2 < now)) pending.

Definition createAuthorizationUrl (freshState : jsstring) (issuedAt cleanedAt : Z)
    (svc : CarvOAuthService) : (OAuthError + jsstring) * CarvOAuthService :=
  if negb (oauthEnabled svc) then (inl OAuthNotConfigured, svc)
  else
    let pending := <[freshState := issuedAt + stateTtlMs]> (pendingStates svc) in
    (inr freshState, mkCarvOAuthService (oauthEnabled svc) (cleanupStates cleanedAt pending)).

Definition consumeState (now : Z) (state : jsstring) (pending : gmap jsstring Z)
  : bool * gmap jsstring Z :=
  let stored := pending !! state in
  if negb (truthyNumber stored) then (false, pending)
  else (now <? default 0 stored, delete state pending).

(** [tokenFetched] and [profileFetched] are what [fetchToken] and
    [fetchProfile] come to: an error thrown, or the access token and the
    profile. *)
Definition exchangeCode (now : Z) (state : jsstring)
    (tokenFetched : OAuthError + jsstring) (profileFetched : OAuthError + CarvProfile)
    (svc : CarvOAuthService) : (OAuthError + CarvProfile) * CarvOAuthService :=
  if negb (oauthEnabled svc) then (inl OAuthNotConfigured, svc)
  else
    let '(matched, pending) := consumeState now state (pendingStates svc) in
    let svc' := mkCarvOAuthService (oauthEnabled svc) pending in
    if negb matched then (inl OAuthStateRejected, svc')
    else
      match tokenFetched with
      | inl e => (inl e, svc')
      | inr _ =>
          match profileFetched with
          | inl e => (inl e, svc')
          | inr profile =>
              if negb (truthy (profileCarvId profile))
                 || negb (truthy (profileAgentId profile))
              then (inl OAuthProfileIncomplete, svc')
              else (inr profile, svc')
          end
      end.

(** What can happen to the pending states between two exchanges. *)
Inductive OAuthCall :=
| CallCreateAuthorizationUrl (freshState : jsstring) (issuedAt cleanedAt : Z)
| CallExchangeCode (now : Z) (state : jsstring)
    (tokenFetched : OAuthError + jsstring) (profileFetched : OAuthError + CarvProfile).

Definition runOAuthCall (c : OAuthCall) (svc : CarvOAuthService) : CarvOAuthService :=
  match c with
  | CallCreateAuthorizationUrl freshState issuedAt cleanedAt =>
      snd (createAuthorizationUrl freshState issuedAt cleanedAt svc)
  | CallExchangeCode now state tokenFetched profileFetched =>
      snd (exchangeCode now state tokenFetched profileFetched svc)
  end.

Definition runOAuthCalls (calls : list OAuthCall) (svc : CarvOAuthService)
  : CarvOAuthService :=
  foldl (fun s c => runOAuthCall c s) svc calls.

(** The call hands out no state named [state]. *)
Definition issuesNot (state : jsstring) (c : OAuthCall) : Prop :=
  match c with
  | CallCreateAuthorizationUrl freshState _ _ => freshState <> state
  | CallExchangeCode _ _ _ _ => True
  end.

(** ** Leaderboard buckets ([leaderboardService.ts]) *)

Module LeaderboardBucket.
Record t := mk {
  wallet : jsstring;
  displayName : jsstring;
  carvId : jsstring;
  agentId : jsstring;
  totalScore : Z;
  attempts : Z;
  bestScore : Z;
  lastSubmissionTs : Z;
  lastSubmission : jsstring;
  rewardRaw : Z;
  mintedRewards : Z;
  lastRewardSignature : option jsstring;
  rewardMint : option jsstring;
  lastProofHash : option jsstring
}.
End LeaderboardBucket.

Definition sumZ (xs : list Z) : Z := foldr Z.add 0 xs.

Definition maxZ (xs : list Z) : Z := foldr Z.max 0 xs.

Section Leaderboard.
Context `{Platform}.

(** [new Date(text).getTime()], [None] standing for [NaN], and
    [BigInt(text)], [None] standing for the SyntaxError it throws. *)
Variable Date_getTime : jsstring -> option Z.
Variable BigInt_parse : jsstring -> option Z.

(** The bucket of the submission's wallet after the submission is counted
    in; [None] when [BigInt] throws on the amount of a minted reward. *)
Definition processSubmission (buckets : gmap jsstring LeaderboardBucket.t)
    (submission : SubmissionResponse.t) : option (gmap jsstring LeaderboardBucket.t) :=
  let wallet := toLowerCase (SubmissionResponse.wallet submission) in
  let bucket :=
    default
      (LeaderboardBucket.mk
         (SubmissionResponse.wallet submission)
         (SubmissionResponse.displayName submission)
         (SubmissionResponse.carvId submission)
         (SubmissionResponse.agentId submission)
         0 0 0 0 (SubmissionResponse.timestamp submission) 0 0 None None None)
      (buckets !! wallet) in
  let totalScore := LeaderboardBucket.totalScore bucket + SubmissionResponse.score submission in
  let attempts := LeaderboardBucket.attempts bucket + 1 in
  let bestScore :=
    Z.max (LeaderboardBucket.bestScore bucket) (SubmissionResponse.score submission) in
  let later :=
    match Date_getTime (SubmissionResponse.timestamp submission) with
    | Some submissionTs => LeaderboardBucket.lastSubmissionTs bucket <? submissionTs
    | None => false
    end in
  let lastSubmissionTs :=
    if later then default 0 (Date_getTime (SubmissionResponse.timestamp submission))
    else LeaderboardBucket.lastSubmissionTs bucket in
  let lastSubmission :=
    if later then SubmissionResponse.timestamp submission
    else LeaderboardBucket.lastSubmission bucket in
  let lastProofHash :=
    if later then Some (SubmissionResponse.proofHash submission)
    else LeaderboardBucket.lastProofHash bucket in
  let counted rewardRaw mintedRewards lastRewardSignature rewardMint :=
    <[wallet :=
        LeaderboardBucket.mk
          (LeaderboardBucket.wallet bucket) (LeaderboardBucket.displayName bucket)
          (LeaderboardBucket.carvId bucket) (LeaderboardBucket.agentId bucket)
          totalScore attempts bestScore lastSubmissionTs lastSubmission
          rewardRaw mintedRewards lastRewardSignature rewardMint lastProofHash]> buckets in
  match SubmissionResponse.reward submission with
  | Some (RewardMinted amountRaw _ signature _ mint) =>
      amount ← BigInt_parse amountRaw;
      Some (counted (LeaderboardBucket.rewardRaw bucket + amount)
                    (LeaderboardBucket.mintedRewards bucket + 1)
                    (Some signature) (Some mint))
  | _ =>
      Some (counted (LeaderboardBucket.rewardRaw bucket)
                    (LeaderboardBucket.mintedRewards bucket)
                    (LeaderboardBucket.lastRewardSignature bucket)
                    (LeaderboardBucket.rewardMint bucket))
  end.

(** The loop of [getTop] over the submissions, from an empty map. *)
Definition collectBuckets (submissions : list SubmissionResponse.t)
  : option (gmap jsstring LeaderboardBucket.t) :=
  foldl (fun buckets submission => buckets ≫= fun b => processSubmission b submission)
        (Some ∅) submissions.

(** The amount of the reward a submission was minted, if any. *)
Definition mintedAmount (submission : SubmissionResponse.t) : Z :=
  match SubmissionResponse.reward submission with
  | Some (RewardMinted amountRaw _ _ _ _) => default 0 (BigInt_parse amountRaw)
  | _ => 0
  end.

Definition isMinted (submission : SubmissionResponse.t) : bool :=
  match SubmissionResponse.reward submission with
  | Some (RewardMinted _ _ _ _ _) => true
  | _ => false
  end.

(** The amount of the minted reward, if there is one, is the text of an
    integer. *)
Definition amountParses (submission : SubmissionResponse.t) : Prop :=
  match SubmissionResponse.reward submission with
  | Some (RewardMinted amountRaw _ _ _ _) => is_Some (BigInt_parse amountRaw)
  | _ => True
  end.

(** The submissions of a wallet key, in the order of the list. *)
Definition submissionsOf (key : jsstring) (submissions : list SubmissionResponse.t)
  : list SubmissionResponse.t :=
  filter (fun s => toLowerCase (SubmissionResponse.wallet s) = key) submissions.

(** What the bucket of a wallet key holds, given the submissions of the
    key: their number, the sum of their scores, the best of them or 0, the
    number and the sum of their minted rewards, and the wallet, display
    name, CARV ID and agent ID of the first of them. *)
Definition bucketSums (mine : list SubmissionResponse.t) (bucket : LeaderboardBucket.t)
  : Prop :=
  LeaderboardBucket.attempts bucket = Z.of_nat (length mine)
  /\ LeaderboardBucket.totalScore bucket = sumZ (SubmissionResponse.score <$> mine)
  /\ LeaderboardBucket.bestScore bucket = maxZ (SubmissionResponse.score <$> mine)
  /\ LeaderboardBucket.mintedRewards bucket = Z.of_nat (length (filter isMinted mine))
  /\ LeaderboardBucket.rewardRaw bucket = sumZ (mintedAmount <$> mine)
  /\ (exists first,
        head mine = Some first
        /\ LeaderboardBucket.wallet bucket = SubmissionResponse.wallet first
        /\ LeaderboardBucket.displayName bucket = SubmissionResponse.displayName first
        /\ LeaderboardBucket.carvId bucket = SubmissionResponse.carvId first
        /\ LeaderboardBucket.agentId bucket = SubmissionResponse.agentId first).
End Leaderboard.

(** ** Base58 text of the signature ([App.tsx])

    The front end encodes the signature of the wallet with
    [encodeBase58] before it posts it to [verifyChallenge].  The bytes of
    the [Uint8Array] and the digits are integers. *)

Definition BASE58_ALPHABET : jsstring :=
  lit "123456789ABCDEFGHJKLMNPQRSTUVWXYZabcdefghijkmnopqrstuvwxyz".

(** The inner [for] loop: every digit takes the carry in, keeps the
    remainder and hands the quotient on. *)
Fixpoint carryThrough (digits : list Z) (carry : Z) : list Z * Z :=
  match digits with
  | [] => ([], carry)
  | digit :: rest =>
      let value := digit * 256 + carry in
      let '(rest', carry') := carryThrough rest (value / 58) in
      (Z.rem value 58 :: rest', carry')
  end.

(** [while (carry > 0) { digits.push(carry % 58); carry = Math.floor(carry / 58); }]:
    the digits pushed, or [None] when the loop has not ended after [fuel]
    rounds. *)
Fixpoint pushCarry (fuel : nat) (carry : Z) : option (list Z) :=
  if 0 <? carry
  then
    match fuel with
    | O => None
    | S fuel' =>
        rest ← pushCarry fuel' (carry / 58);
        Some (Z.rem carry 58 :: rest)
    end
  else Some [].

(** One round of the outer loop; the carry itself bounds the rounds of the
    [while] loop. *)
Definition pushByte (digits : list Z) (byte : Z) : option (list Z) :=
  let '(digits', carry) := carryThrough digits byte in
  pushed ← pushCarry (Z.to_nat carry) carry;
  Some (digits' ++ pushed).

(** [while (zeros < input.length && input[zeros] === 0) zeros += 1] *)
Fixpoint leadingZeros (input : list Z) : nat :=
  match input with
  | 0 :: rest => S (leadingZeros rest)
  | _ => O
  end.

(** [BASE58_ALPHABET[digit]] as [join] sees it: nothing when the index is
    out of range. *)
Definition alphabetAt (digit : Z) : jsstring :=
  if digit <? 0 then [] else option_list (BASE58_ALPHABET !! Z.to_nat digit).

Definition encodeBase58 (input : list Z) : option jsstring :=
  match input with
  | [] => Some []
  | _ =>
      digits ← foldl (fun digits byte => digits ≫= fun ds => pushByte ds byte)
                     (Some [0]) input;
      Some (concat (replicate (leadingZeros input) (alphabetAt 0)
                    ++ map alphabetAt (rev digits)))
  end.

(** The number a sequence of bytes spells, the first byte leading, and the
    number a sequence of base-58 digits spells, the first digit the
    lowest. *)
Definition bytesValue (input : list Z) : Z :=
  foldl (fun value byte => value * 256 + byte) 0 input.

Definition digitsValue (digits : list Z) : Z :=
  foldr (fun digit value => digit + 58 * value) 0 digits.

(** The code unit that stands for a digit. *)
Definition base58Unit (digit : Z) : N :=
  default 0%N (BASE58_ALPHABET !! Z.to_nat digit).

(** The digits spell [value] with as few digits as it takes, a single 0
    spelling 0. *)
Definition spells (digits : list Z) (value : Z) : Prop :=
  Forall (fun d => 0 <= d < 58) digits
  /\ digitsValue digits = value
  /\ (value = 0 -> digits = [0])
  /\ (0 < value -> 58 ^ (Z.of_nat (length digits) - 1) <= value)
  /\ (0 < length digits)%nat.

(** ** Display of a token amount ([rewardService.ts]) *)

(** The decimal digits of a positive integer, the lowest first; [fuel]
    bounds their number. *)
Fixpoint decimalDigits (fuel : nat) (n : Z) : list Z :=
  match fuel with
  | O => []
  | S fuel' => if 0 <? n then n mod 10 :: decimalDigits fuel' (n / 10) else []
  end.

Definition digitUnit (digit : Z) : N := Z.to_N (48 + digit).

(** [n.toString()] of a bigint: its decimal digits, "0" for zero, a minus
    sign before the digits of a negative number.  A number has no more
    decimal digits than binary ones. *)
Definition BigInt_toString (n : Z) : jsstring :=
  let digitsOf m := digitUnit <$> rev (decimalDigits (S (Z.to_nat (Z.log2 m))) m) in
  if n =? 0 then [48%N]
  else if n <? 0 then 45%N :: digitsOf (- n)
  else digitsOf n.

(** [s.padStart(targetLength, fill)] for a fill of one code unit. *)
Definition padStart (s : jsstring) (targetLength : Z) (fill : N) : jsstring :=
  replicate (Z.to_nat (targetLength - jsLength s)) fill ++ s.

Fixpoint dropZeros (s : jsstring) : jsstring :=
  match s with
  | unit :: rest => if (unit =? 48)%N then dropZeros rest else s
  | [] => []
  end.

(** [s.replace(/0+$/, "")] *)
Definition stripTrailingZeros (s : jsstring) : jsstring := rev (dropZeros (rev s)).

(** [decimals] is an integral number; on a negative one
    [BigInt(10) ** BigInt(decimals)] throws a RangeError, which is [None]
    here.  The division and the remainder of bigints truncate towards
    zero. *)
Definition formatDisplayAmount (amount decimals : Z) : option jsstring :=
  if decimals =? 0 then Some (BigInt_toString amount)
  else if decimals <? 0 then None
  else
    let base := 10 ^ decimals in
    let whole := Z.quot amount base in
    let fraction := Z.rem amount base in
    let fractionStr :=
      stripTrailingZeros (padStart (BigInt_toString fraction) decimals 48%N) in
    Some (if 0 <? jsLength fractionStr
          then BigInt_toString whole ++ lit "." ++ fractionStr
          else BigInt_toString whole).

(** The number a text of decimal digits reads as. *)
Definition decimalValue (text : jsstring) : Z :=
  foldl (fun value unit => 10 * value + (Z.of_N unit - 48)) 0 text.

Definition isDigitUnit (unit : N) : bool := ((48 <=? unit) && (unit <=? 57))%N.

(** ** Aliases held by the authentication service *)

(** No record, pending challenge or session carries the empty string for
    an alias. *)
Definition aliasesNamed (svc : AuthService) : Prop :=
  (forall k record,
      walletToIdentity (identityRegistry svc) !! k = Some record ->
      IdentityRecord.alias record <> Some [])
  /\ (forall k challenge,
        challenges svc !! k = Some challenge ->
        WalletChallenge.alias challenge <> Some [])
  /\ (forall token session,
        sessions svc !! token = Some session ->
        WalletSession.alias session <> Some []).

(** ** Reload of the registry ([identityRegistry.ts]) *)

Section RegistryReload.
Context `{Platform}.

(** One round of the loop of [loadFromDisk]: a record that has a wallet, a
    CARV ID and an agent ID is stored and indexed, any other is skipped. *)
Definition loadRecord (reg : IdentityRegistry) (record : IdentityRecord.t)
  : IdentityRegistry :=
  if truthy (IdentityRecord.wallet record) && truthy (IdentityRecord.carvId record)
     && truthy (IdentityRecord.agentId record)
  then
    mkRegistry
      (<[toLowerCase (IdentityRecord.wallet record) := record]> (walletToIdentity reg))
      (<[toLowerCase (IdentityRecord.carvId record)
         := toLowerCase (IdentityRecord.wallet record)]> (carvIdToWallet reg))
      (<[toLowerCase (IdentityRecord.agentId record)
         := toLowerCase (IdentityRecord.wallet record)]> (agentIdToWallet reg))
  else reg.

(** [loadFromDisk] on the records of the stored [walletToIdentity] object,
    in the order [Object.values] yields them: the three maps are cleared,
    then filled from the records; the two stored index objects are not
    read. *)
Definition loadFromDisk (records : list IdentityRecord.t) : IdentityRegistry :=
  foldl loadRecord emptyRegistry records.

(** The call registers a wallet, a CARV ID and an agent ID that are not
    empty, under a wallet key that is not empty. *)
Definition registersWholeIdentity (c : RegistryCall) : Prop :=
  match c with
  | CallRegisterIdentity _ input =>
      toLowerCase (IdentityInput.wallet input) <> []
      /\ IdentityInput.wallet input <> []
      /\ IdentityInput.carvId input <> []
      /\ IdentityInput.agentId input <> []
  | _ => True
  end.
End RegistryReload.

(** ** A platform to run the model on

    Stand-ins for the runtime and the libraries, in the manner of the stubs
    of the repository's own tests: lower-casing of ASCII text; a public key
    is any base58 text of 32 to 44 characters and is its own byte string;
    base58 text decodes to itself; the signature of a message under a key is
    the key followed by the base58 characters of the message; the digest of
    a text is the text. *)

Definition isBase58Unit (c : N) : bool :=
  ((49 <=? c) && (c <=? 57)
   || (65 <=? c) && (c <=? 90) && negb (c =? 73) && negb (c =? 79)
   || (97 <=? c) && (c <=? 122) && negb (c =? 108))%N.

Definition decimal (z : Z) : jsstring :=
  (if z <? 0 then lit "-" else [])
  ++ lit (NilZero.string_of_uint (N.to_uint (Z.to_N (Z.abs z)))).

Definition exampleSign (publicKey : list N) (message : jsstring) : list N :=
  publicKey ++ List.filter isBase58Unit message.

Definition examplePlatform : Platform := {|
  toLowerCase := asciiToLowerCase;
  PublicKey_parse := fun text =>
    if forallb isBase58Unit text && (32 <=? length text)%nat && (length text <=? 44)%nat
    then Some text else None;
  PublicKey_toBase58 := fun bytes => bytes;
  bs58_decode := fun text => if forallb isBase58Unit text then Some text else None;
  detachedVerify := fun message signature publicKey =>
    Some (bool_decide (signature = exampleSign publicKey message));
  toISOString := decimal;
  JSON_stringify := fun p =>
    join (lit "|")
      [ ProofPayload.questId p; ProofPayload.wallet p; ProofPayload.carvId p;
        ProofPayload.agentId p; ProofPayload.userId p; ProofPayload.displayName p;
        decimal (ProofPayload.score p); ProofPayload.timestamp p;
        ProofPayload.answerPreview p ];
  sha256_hex := fun text => text
|}.

(** The wallet and the identifiers of the repository's tests. *)
Definition W1 : jsstring := lit "8ZGZffuCpyaUxpoEqaexfFwaT55dnUGr3hiBkY7b2KV6".
Definition W2 : jsstring := lit "4Nd1mWk3cQqTz5xYv8uFh2JrLp7sGb9eKaMnPo6RtUw1".
Definition CARV1 : jsstring := lit "carv_agentquest".
Definition AGENT1 : jsstring := lit "agent_agentquest".
Definition AGENT2 : jsstring := lit "agent_second".

Definition summarizeNews : Quest.t :=
  Quest.mk (lit "summarize-news") (lit "Summarize a news article in 3 sentences") 160 1200 150.

Definition exampleSession : WalletSession.t :=
  WalletSession.mk (lit "session-token") W1 CARV1 AGENT1 (Some (lit "hist-user")) 0 60000.

(** Two hundred letters [a]. *)
Definition longAnswer : jsstring := repeat 97%N 200.

(** ** Sequences of calls used as examples *)


Definition exampleRegistryCalls : list RegistryCall :=
  [ CallRegisterIdentity 1 (IdentityInput.mk W1 CARV1 AGENT1 (Some (lit "hist-user")));
    CallAssertCanLink (IdentityInput.mk W2 CARV1 AGENT2 None);
    CallRegisterIdentity 2 (IdentityInput.mk W2 CARV1 AGENT2 None);
    CallTouchIdentity 3 (asciiToLowerCase W1);
    CallRegisterIdentity 4 (IdentityInput.mk W1 CARV1 AGENT1 None) ].

(** The registry once [W1] is registered under the alias "hist-user". *)
Definition registryWithW1 : IdentityRegistry :=
  snd (@registerIdentity examplePlatform 1
         (IdentityInput.mk W1 CARV1 AGENT1 (Some (lit "hist-user"))) emptyRegistry).

(** A service with one pending challenge: [W1] asks for a challenge at
    instant 0 with a time to live of ten minutes, so that the challenge
    lapses at instant 600000. *)
Definition NONCE1 : jsstring := lit "3yZe7d5kQm9RtUw1".

Definition freshService : AuthService := newAuthService emptyRegistry 360 10.

Definition serviceWithChallenge : AuthService :=
  snd (@requestChallenge examplePlatform (mkChallengeEnv NONCE1 0 0)
         (IdentityInput.mk W1 CARV1 AGENT1 (Some (lit "hist-user"))) freshService).

Definition pendingChallenge : WalletChallenge.t :=
  WalletChallenge.mk W1 CARV1 AGENT1 (Some (lit "hist-user")) NONCE1
    (@challengeMessage examplePlatform W1 CARV1 AGENT1 (Some (lit "hist-user")) NONCE1 0)
    (decimal 600000) 600000.

(** The request that answers the pending challenge with the right nonce and
    a valid signature of its message, and the same with another nonce. *)
Definition goodVerifyInput : VerifyInput.t :=
  VerifyInput.mk W1 CARV1 AGENT1
    (exampleSign W1 (WalletChallenge.message pendingChallenge)) NONCE1.

Definition wrongNonceInput : VerifyInput.t :=
  VerifyInput.mk W1 CARV1 AGENT1
    (exampleSign W1 (WalletChallenge.message pendingChallenge)) (lit "9yZe7d5kQm9RtUw1").

Definition TOKEN1 : jsstring := lit "7Hq2mVx4cBn8sLd3fGj6kPw9".

(** A verification within the time to live, and one after it. *)
Definition verifyInTime : VerifyEnv := mkVerifyEnv 1000 1000 1001 1001 TOKEN1.
Definition verifyTooLate : VerifyEnv := mkVerifyEnv 700000 700000 700001 700001 TOKEN1.

(** The session a verification within the time to live hands out. *)
Definition sessionOfW1 : WalletSession.t :=
  WalletSession.mk TOKEN1 W1 CARV1 AGENT1 (Some (lit "hist-user")) 1001 21601001.

(** A backend where [W1] holds the session of [sessionOfW1], nothing was
    submitted yet and the history keeps twenty entries a wallet. *)
Definition backendWithSession : Backend :=
  mkBackend
    (snd (@verifyChallenge examplePlatform verifyInTime goodVerifyInput serviceWithChallenge))
    ∅ (Some (mkHistory 20 ∅)).

Definition exampleSubmission : SubmissionInput.t :=
  SubmissionInput.mk (lit "summarize-news") TOKEN1 (Some (lit "hist-user")) longAnswer.

Definition exampleEvaluation : EvaluationResult := mkEvaluation 80 (lit "ok") false.

Definition memoDisabled : MemoResult := MemoSkipped (lit "memo disabled").

Definition rewardDisabled : RewardReceipt :=
  RewardSkipped (lit "0") (lit "0") (lit "disabled") (lit "mint").

Definition submitAt (now : Z) (memo : MemoResult) (receipt : RewardReceipt) : SubmitEnv :=
  mkSubmitEnv now now now exampleEvaluation memo receipt.


(** Between two submissions of [W1] to "summarize-news": a sweep, and a
    submission of [W1] to another quest. *)
Definition exampleLimiterEvents : list LimiterEvent :=
  [ EventSweep 5500; EventCheck 5600 (lit "sql-aggregate") W1 ].


(** The response to a submission to "summarize-news" filed by the session
    of [sessionOfW1] at instant 5000 and scored [points], with the memo and
    the reward disabled. *)
Definition responseScoring (points : Z) : SubmissionResponse.t :=
  let payload :=
    @buildProofPayload examplePlatform summarizeNews sessionOfW1 (lit "hist-user")
      longAnswer points 5000 in
  composeResponse summarizeNews sessionOfW1 (lit "hist-user")
    (mkEvaluation points (lit "ok") false) payload
    (@hashPayload examplePlatform payload)
    (lit "AgentQuest:" ++ @hashPayload examplePlatform payload)
    memoDisabled rewardDisabled.

Definition exampleResponse : SubmissionResponse.t := responseScoring 80.

(** Four submissions recorded in a history that keeps two a wallet: three
    of [W1], one of them under its lower-case spelling, and one of [W2]. *)
Definition exampleRecords : list (jsstring * SubmissionResponse.t) :=
  [ (W1, responseScoring 10); (W2, responseScoring 20);
    (asciiToLowerCase W1, responseScoring 30); (W1, responseScoring 40) ].

(** The rate limiter after [W1] submitted to "summarize-news" at instant
    5000. *)
Definition recentAfterW1 : gmap jsstring Z :=
  snd (@checkUserQuestRateLimit examplePlatform 5000 (lit "summarize-news") W1 ∅).

(** A challenge asked for and answered through the service. *)
Definition exampleServiceCalls : list ServiceCall :=
  [ CallRequestChallenge (mkChallengeEnv NONCE1 0 0)
      (IdentityInput.mk W1 CARV1 AGENT1 (Some (lit "hist-user")));
    CallOther (CallVerifyChallenge verifyInTime goodVerifyInput);
    CallOther (CallGetSession 2000 TOKEN1) ].

(** An OAuth service with the state "5f2a" handed out at instant 1000. *)
Definition STATE1 : jsstring := lit "5f2a9c0e7b1d4a6f".

Definition oauthReady : CarvOAuthService := mkCarvOAuthService true ∅.

Definition carvProfile : CarvProfile := mkCarvProfile CARV1 AGENT1 None (Some W1).

(** Stand-ins for [BigInt(text)] and [new Date(text).getTime()] on the
    decimal text of a natural number. *)
Definition parseDecimal (text : jsstring) : option Z :=
  if forallb (fun c => (48 <=? c) && (c <=? 57))%N text && truthy text
  then Some (foldl (fun n c => 10 * n + (Z.of_N c - 48)) 0 text)
  else None.

(** A submission of [W1] rewarded with 8 base units, and two that were
    not. *)
Definition rewardOfEight : RewardReceipt :=
  RewardMinted (lit "8") (lit "0.000000008") (lit "5sig") (lit "https://explorer/5sig")
    (lit "mint").

Definition mintedResponse : SubmissionResponse.t :=
  let payload :=
    @buildProofPayload examplePlatform summarizeNews sessionOfW1 (lit "hist-user")
      longAnswer 90 5000 in
  composeResponse summarizeNews sessionOfW1 (lit "hist-user")
    (mkEvaluation 90 (lit "ok") false) payload
    (@hashPayload examplePlatform payload)
    (lit "AgentQuest:" ++ @hashPayload examplePlatform payload)
    memoDisabled rewardOfEight.

Definition exampleBoard : list SubmissionResponse.t :=
  [ responseScoring 40; mintedResponse; responseScoring 10 ].


(** Two wallets registered, the first one verified once more. *)
Definition restoreCalls : list RegistryCall :=
  [ CallRegisterIdentity 1 (IdentityInput.mk W1 CARV1 AGENT1 (Some (lit "hist-user")));
    CallRegisterIdentity 2 (IdentityInput.mk W2 (lit "carv_second") AGENT2 None);
    CallTouchIdentity 3 (asciiToLowerCase W1) ].

(** The records held after [restoreCalls], the second wallet's first. *)
Definition persistedRecords : list IdentityRecord.t :=
  [ IdentityRecord.mk W2 (lit "carv_second") AGENT2 None 2 2 1;
    IdentityRecord.mk W1 CARV1 AGENT1 (Some (lit "hist-user")) 1 3 2 ].

(** ** Invariants and premises used by the properties *)

Section RegistryInvariant.
Context `{Platform}.

(** Each record is indexed under its own wallet key by both of its
    identifiers, and no index entry names the empty wallet key. *)
Definition registryConsistent (reg : IdentityRegistry) : Prop :=
  (forall k r,
      walletToIdentity reg !! k = Some r ->
      carvIdToWallet reg !! toLowerCase (IdentityRecord.carvId r) = Some k
      /\ agentIdToWallet reg !! toLowerCase (IdentityRecord.agentId r) = Some k)
  /\ (forall c k, carvIdToWallet reg !! c = Some k -> k <> [])
  /\ (forall a k, agentIdToWallet reg !! a = Some k -> k <> []).

(** The call would bind a second wallet to a CARV ID or an agent ID that
    another wallet holds, or change the pair bound to its own wallet. *)
Definition conflicting (input : IdentityInput.t) (reg : IdentityRegistry) : Prop :=
  let '(walletKey, carvKey, agentKey) := normalizeKeys input in
  (exists k r,
      walletToIdentity reg !! k = Some r /\ k <> walletKey
      /\ (toLowerCase (IdentityRecord.carvId r) = carvKey
          \/ toLowerCase (IdentityRecord.agentId r) = agentKey))
  \/ (exists r,
        walletToIdentity reg !! walletKey = Some r
        /\ (toLowerCase (IdentityRecord.carvId r) <> carvKey
            \/ toLowerCase (IdentityRecord.agentId r) <> agentKey)).
End RegistryInvariant.

Section RegistryReloadInvariant.
Context `{Platform}.

(** The registry is consistent, every record is whole and stored under its
    own wallet in lower case, and every index entry belongs to a record. *)
Definition registryRestorable (reg : IdentityRegistry) : Prop :=
  registryConsistent reg
  /\ (forall k r,
        walletToIdentity reg !! k = Some r ->
        k = toLowerCase (IdentityRecord.wallet r)
        /\ IdentityRecord.wallet r <> []
        /\ IdentityRecord.carvId r <> []
        /\ IdentityRecord.agentId r <> [])
  /\ (forall c k,
        carvIdToWallet reg !! c = Some k ->
        exists r, walletToIdentity reg !! k = Some r
                  /\ toLowerCase (IdentityRecord.carvId r) = c)
  /\ (forall a k,
        agentIdToWallet reg !! a = Some k ->
        exists r, walletToIdentity reg !! k = Some r
                  /\ toLowerCase (IdentityRecord.agentId r) = a).
End RegistryReloadInvariant.

(** * Properties *)

Ltac unfold_ops := unfold opBind, opPure, opRead, opWrite, opThrow, opRet in *.

(** Case analysis along the control flow of [verifyChallenge]. *)
Ltac verify_cases :=
  unfold verifyChallenge, dropExpiredChallenges, createSession; unfold_ops; cbn;
  repeat (case_match; cbn in *; simplify_eq; try done).

Abbreviation unexpired now :=
  (fun entry : jsstring * WalletChallenge.t => ¬ (WalletChallenge.expiresAtTs entry.2 < now)).

(** ** Answer preview *)

Lemma jsLength_app {A} (xs ys : list A) :
  jsLength (xs ++ ys) = jsLength xs + jsLength ys.
Proof. unfold jsLength. rewrite length_app. lia. Qed.

Lemma slice0_length {A} (xs : list A) (end_ : Z) :
  0 <= end_ -> jsLength (slice0 xs end_) = Z.min end_ (jsLength xs).
Proof.
  intros Hend. unfold slice0, jsLength.
  destruct (Z.ltb_spec end_ 0) as [Hneg | _]; [lia |].
  rewrite length_take. lia.
Qed.

Lemma formatPreview_short (text : jsstring) (limit : Z) :
  jsLength (trim (replaceWhitespaceRuns text)) <= limit ->
  formatPreview text limit = trim (replaceWhitespaceRuns text).
Proof.
  intros Hfit. unfold formatPreview.
  destruct (Z.leb_spec (jsLength (trim (replaceWhitespaceRuns text))) limit); [done | lia].
Qed.

Lemma formatPreview_truncated (text : jsstring) (limit : Z) :
  limit < jsLength (trim (replaceWhitespaceRuns text)) ->
  formatPreview text limit
  = slice0 (trim (replaceWhitespaceRuns text)) limit ++ ELLIPSIS_MARK.
Proof.
  intros Hlong. unfold formatPreview.
  destruct (Z.leb_spec (jsLength (trim (replaceWhitespaceRuns text))) limit); [lia | done].
Qed.

(** C9, refuted as stated: for the quest "summarize-news", whose preview
    limit is 150, an answer of two hundred letters gets a preview of 153
    code units. *)
Lemma answerPreview_exceeds_previewLimit :
  ¬ (jsLength (ProofPayload.answerPreview
                 (@buildProofPayload examplePlatform summarizeNews exampleSession
                    (lit "hist-user") longAnswer 80 0))
     <= Quest.previewLimit summarizeNews).
Proof. vm_compute. intros Hle. apply Hle. reflexivity. Qed.

(** C9, amended: for every answer and every quest with a non-negative
    preview limit, the preview stored in the proof payload is the
    white-space-collapsed, trimmed answer itself when that fits the limit,
    and otherwise its first [previewLimit] code units followed by the
    truncation marker; its length is at most [previewLimit] plus the length
    of the marker, and exactly that when the answer is truncated. *)
Theorem answerPreview_bound `{Platform} (quest : Quest.t) (session : WalletSession.t)
    (displayName answer : jsstring) (score now : Z) :
  0 <= Quest.previewLimit quest ->
  let preview :=
    ProofPayload.answerPreview
      (buildProofPayload quest session displayName answer score now) in
  let sanitized := trim (replaceWhitespaceRuns answer) in
  jsLength preview <= Quest.previewLimit quest + jsLength ELLIPSIS_MARK
  /\ (jsLength sanitized <= Quest.previewLimit quest -> preview = sanitized)
  /\ (Quest.previewLimit quest < jsLength sanitized ->
      preview = take (Z.to_nat (Quest.previewLimit quest)) sanitized ++ ELLIPSIS_MARK
      /\ jsLength preview = Quest.previewLimit quest + jsLength ELLIPSIS_MARK).
Proof.
  intros Hlimit preview sanitized. subst preview. cbn [buildProofPayload ProofPayload.answerPreview].
  fold sanitized.
  assert (Hmark : 0 <= jsLength ELLIPSIS_MARK) by (unfold jsLength; lia).
  destruct (Z.le_gt_cases (jsLength sanitized) (Quest.previewLimit quest)) as [Hfit | Hlong].
  - rewrite (formatPreview_short answer _ Hfit). fold sanitized.
    split; [lia |]. split; [done | lia].
  - rewrite (formatPreview_truncated answer _ Hlong). fold sanitized.
    assert (Hlen : jsLength (slice0 sanitized (Quest.previewLimit quest) ++ ELLIPSIS_MARK)
                   = Quest.previewLimit quest + jsLength ELLIPSIS_MARK).
    { rewrite jsLength_app, slice0_length by done. lia. }
    split; [lia |]. split; [lia |]. intros _. split; [| done].
    unfold slice0. destruct (Z.ltb_spec (Quest.previewLimit quest) 0); [lia |].
    rewrite Z.min_l by lia. done.
Qed.

Lemma answerPreview_bound_witness :
  0 <= Quest.previewLimit summarizeNews
  /\ jsLength (ProofPayload.answerPreview
                 (@buildProofPayload examplePlatform summarizeNews exampleSession
                    (lit "hist-user") longAnswer 80 0))
     <= Quest.previewLimit summarizeNews + jsLength ELLIPSIS_MARK.
Proof.
  split; [vm_compute; discriminate |].
  apply (@answerPreview_bound examplePlatform summarizeNews exampleSession
           (lit "hist-user") longAnswer 80 0).
  vm_compute; discriminate.
Defined.

(** ** Identity registry *)

Section RegistryProperties.
Context `{Platform}.

Lemma bindingDiffers_false (existing : IdentityRecord.t) (carvKey agentKey : jsstring) :
  bindingDiffers existing carvKey agentKey = false
  <-> toLowerCase (IdentityRecord.carvId existing) = carvKey
      /\ toLowerCase (IdentityRecord.agentId existing) = agentKey.
Proof.
  unfold bindingDiffers. rewrite orb_false_iff, !negb_false_iff, !bool_decide_eq_true.
  done.
Qed.

Lemma bindingDiffers_true (existing : IdentityRecord.t) (carvKey agentKey : jsstring) :
  bindingDiffers existing carvKey agentKey = true
  <-> toLowerCase (IdentityRecord.carvId existing) <> carvKey
      \/ toLowerCase (IdentityRecord.agentId existing) <> agentKey.
Proof.
  unfold bindingDiffers. rewrite orb_true_iff, !negb_true_iff, !bool_decide_eq_false.
  done.
Qed.

Lemma ownedByOther_true (owner : option jsstring) (walletKey : jsstring) :
  ownedByOther owner walletKey = true
  <-> exists k, owner = Some k /\ k <> [] /\ k <> walletKey.
Proof.
  unfold ownedByOther. rewrite andb_true_iff, negb_true_iff, bool_decide_eq_false.
  split.
  - intros [Htruthy Hother]. destruct owner as [[| c k] |]; try discriminate.
    exists (c :: k). split; [done |]. split; [done | congruence].
  - intros (k & -> & Hk & Hne). split; [by destruct k | congruence].
Qed.

Lemma ownedByOther_false (owner : option jsstring) (walletKey : jsstring) :
  ownedByOther owner walletKey = false ->
  forall k, owner = Some k -> k = [] \/ k = walletKey.
Proof.
  intros Hfalse k ->.
  destruct (decide (k = [])) as [| Hk]; [by left |].
  destruct (decide (k = walletKey)) as [| Hne]; [by right |].
  assert (ownedByOther (Some k) walletKey = true) by (apply ownedByOther_true; eauto).
  congruence.
Qed.

(** Every exception of the registry is a conflict and is thrown before
    any map is written. *)
Lemma assertCanLink_thrown (input : IdentityInput.t) (reg : IdentityRegistry) (e : Error) :
  assertCanLink input reg = Thrown e -> kindOf e = ConflictError.
Proof.
  unfold assertCanLink. destruct (normalizeKeys input) as [[walletKey carvKey] agentKey].
  repeat case_match; intros [= <-]; done.
Qed.

Lemma registerIdentity_thrown (now : Z) (input : IdentityInput.t)
    (reg reg' : IdentityRegistry) (e : Error) :
  registerIdentity now input reg = (Thrown e, reg') ->
  reg' = reg /\ kindOf e = ConflictError.
Proof.
  unfold registerIdentity. destruct (normalizeKeys input) as [[walletKey carvKey] agentKey].
  destruct (walletToIdentity reg !! walletKey) as [existing |].
  - case_match; intros [= <- <-]; done.
  - destruct (assertCanLink input reg) as [found | e'] eqn:Hlink; intros [= <- <-].
    split; [done | by eapply assertCanLink_thrown].
Qed.

Lemma registryConsistent_empty : registryConsistent emptyRegistry.
Proof.
  unfold registryConsistent, emptyRegistry; cbn.
  split; [| split]; intros ? ?; rewrite lookup_empty; discriminate.
Qed.

Lemma registryConsistent_unique (reg : IdentityRegistry) :
  registryConsistent reg -> uniqueBindings reg.
Proof.
  intros (Hindexed & _ & _) k1 k2 r1 r2 Hr1 Hr2 Hne.
  destruct (Hindexed _ _ Hr1) as [Hc1 Ha1], (Hindexed _ _ Hr2) as [Hc2 Ha2].
  split; intros Heq; [rewrite Heq in Hc1 | rewrite Heq in Ha1]; congruence.
Qed.

Lemma touchStored_consistent (now : Z) (walletKey : jsstring) (reg : IdentityRegistry) :
  registryConsistent reg -> registryConsistent (touchStored now walletKey reg).
Proof.
  intros (Hindexed & Hcarv & Hagent). unfold touchStored.
  split; [| split]; cbn; [| done | done].
  intros k r. rewrite lookup_alter. case_decide as Hk.
  - subst k. destruct (walletToIdentity reg !! walletKey) as [r0 |] eqn:Hr0;
      cbn; intros [= <-]. cbn. by apply Hindexed.
  - apply Hindexed.
Qed.

Lemma registerIdentity_consistent (now : Z) (input : IdentityInput.t)
    (reg : IdentityRegistry) :
  toLowerCase (IdentityInput.wallet input) <> [] ->
  registryConsistent reg ->
  registryConsistent (snd (registerIdentity now input reg)).
Proof.
  intros Hnamed Hreg. pose proof Hreg as (Hindexed & Hcarv & Hagent).
  unfold registerIdentity, assertCanLink, normalizeKeys in *.
  set (walletKey := toLowerCase (IdentityInput.wallet input)) in *.
  set (carvKey := toLowerCase (IdentityInput.carvId input)).
  set (agentKey := toLowerCase (IdentityInput.agentId input)).
  destruct (walletToIdentity reg !! walletKey) as [existing |] eqn:Hexisting.
  - destruct (bindingDiffers existing carvKey agentKey); [done |]. cbn.
    split; [| split]; cbn; [| done | done].
    intros k r. rewrite lookup_insert. case_decide as Hk.
    + intros [= <-]. subst k. cbn. by apply Hindexed.
    + apply Hindexed.
  - destruct (ownedByOther (carvIdToWallet reg !! carvKey) walletKey) eqn:HcarvOwner;
      [done |].
    destruct (ownedByOther (agentIdToWallet reg !! agentKey) walletKey) eqn:HagentOwner;
      [done |].
    cbn. split; [| split]; cbn.
    + intros k r. rewrite lookup_insert. case_decide as Hk.
      * intros [= <-]. subst k. cbn. fold carvKey agentKey.
        by rewrite !lookup_insert_eq.
      * intros Hr. destruct (Hindexed _ _ Hr) as [Hc Ha].
        rewrite !lookup_insert_ne; [done | |].
        -- intros Heq. rewrite <- Heq in Ha.
           destruct (ownedByOther_false _ _ HagentOwner _ Ha) as [-> | ->];
             [by eapply Hagent | done].
        -- intros Heq. rewrite <- Heq in Hc.
           destruct (ownedByOther_false _ _ HcarvOwner _ Hc) as [-> | ->];
             [by eapply Hcarv | done].
    + intros c k. rewrite lookup_insert. case_decide; [by intros [= <-] | apply Hcarv].
    + intros a k. rewrite lookup_insert. case_decide; [by intros [= <-] | apply Hagent].
Qed.

Lemma runRegistryCall_consistent (c : RegistryCall) (reg : IdentityRegistry) :
  registersNamedWallet c ->
  registryConsistent reg -> registryConsistent (runRegistryCall c reg).
Proof.
  destruct c as [input | now input | now walletKey]; cbn; intros Hnamed Hreg.
  - done.
  - by apply registerIdentity_consistent.
  - by apply touchStored_consistent.
Qed.

Lemma runRegistryCalls_consistent (calls : list RegistryCall) (reg : IdentityRegistry) :
  Forall registersNamedWallet calls ->
  registryConsistent reg -> registryConsistent (runRegistryCalls calls reg).
Proof.
  unfold runRegistryCalls. intros Hcalls. revert reg.
  induction Hcalls as [| c calls Hc _ IH]; intros reg Hreg; cbn; [done |].
  apply IH. by apply runRegistryCall_consistent.
Qed.

(** In a consistent registry a conflicting call is refused by
    [assertCanLink] and by [registerIdentity] alike, with the same
    conflict, and the registry stays as it was. *)
Lemma conflicting_refused (now : Z) (input : IdentityInput.t) (reg : IdentityRegistry) :
  registryConsistent reg ->
  conflicting input reg ->
  exists e,
    kindOf e = ConflictError
    /\ assertCanLink input reg = Thrown e
    /\ registerIdentity now input reg = (Thrown e, reg).
Proof.
  intros Hreg Hconflict. pose proof (registryConsistent_unique _ Hreg) as Hunique.
  destruct Hreg as (Hindexed & Hcarv & Hagent).
  unfold conflicting, registerIdentity, assertCanLink, normalizeKeys in *.
  set (walletKey := toLowerCase (IdentityInput.wallet input)) in *.
  set (carvKey := toLowerCase (IdentityInput.carvId input)) in *.
  set (agentKey := toLowerCase (IdentityInput.agentId input)) in *.
  destruct (walletToIdentity reg !! walletKey) as [existing |] eqn:Hexisting.
  - assert (Hdiffers : bindingDiffers existing carvKey agentKey = true).
    { apply bindingDiffers_true.
      destruct Hconflict as [(k & r & Hr & Hne & Hshared) | (r & [= <-] & Hchanged)];
        [| done].
      destruct (Hunique k walletKey r existing Hr Hexisting Hne) as [Hc Ha].
      destruct Hshared as [<- | <-]; [left | right]; congruence. }
    rewrite Hdiffers. by exists WalletIdentityConflict.
  - destruct Hconflict as [(k & r & Hr & Hne & Hshared) | (r & [=] & _)].
    destruct (Hindexed _ _ Hr) as [Hc Ha].
    destruct (ownedByOther (carvIdToWallet reg !! carvKey) walletKey) eqn:HcarvOwner;
      [by exists CarvIdLinked |].
    assert (HagentOwner : ownedByOther (agentIdToWallet reg !! agentKey) walletKey = true).
    { destruct Hshared as [Heq | Heq].
      - rewrite Heq in Hc.
        destruct (ownedByOther_false _ _ HcarvOwner _ Hc) as [-> | ->];
          [by eapply Hcarv in Hc | done].
      - rewrite Heq in Ha. apply ownedByOther_true. exists k.
        split; [done |]. split; [by eapply Hagent | done]. }
    rewrite HagentOwner. by exists AgentIdLinked.
Qed.
End RegistryProperties.


(** C1 for wallets with a name: after any sequence of [assertCanLink],
    [registerIdentity] and [touchIdentity] calls on an empty registry, none
    of which registers a wallet whose lower-cased text is empty, no two
    records share a CARV ID or an agent ID compared without case; and a call
    of [assertCanLink] or [registerIdentity] that would bind a second wallet
    to a bound CARV ID or agent ID, or change the pair bound to its wallet,
    throws a conflict and leaves the registry as it was. *)
Theorem registry_unique_bindings `{Platform} (calls : list RegistryCall) :
  Forall registersNamedWallet calls ->
  let reg := runRegistryCalls calls emptyRegistry in
  uniqueBindings reg
  /\ forall now input,
       conflicting input reg ->
       exists e,
         kindOf e = ConflictError
         /\ assertCanLink input reg = Thrown e
         /\ registerIdentity now input reg = (Thrown e, reg).
Proof.
  intros Hcalls reg.
  assert (Hreg : registryConsistent reg)
    by (apply runRegistryCalls_consistent; [done | apply registryConsistent_empty]).
  split; [by apply registryConsistent_unique |].
  intros now input Hconflict. by apply conflicting_refused.
Qed.

Lemma registry_unique_bindings_witness :
  Forall (@registersNamedWallet examplePlatform) exampleRegistryCalls
  /\ @uniqueBindings examplePlatform
       (@runRegistryCalls examplePlatform exampleRegistryCalls emptyRegistry).
Proof.
  assert (Hcalls : Forall (@registersNamedWallet examplePlatform) exampleRegistryCalls)
    by (repeat constructor; by vm_compute).
  split; [done |].
  apply (@registry_unique_bindings examplePlatform exampleRegistryCalls Hcalls).
Defined.

(** C6, refuted as stated: on the registry where [W1] holds the alias
    "hist-user", [registerIdentity] with the empty string for alias does not
    leave the alias unchanged: the record then carries the empty string. *)
Lemma empty_alias_overwrites :
  ¬ (IdentityRecord.alias
       <$> walletToIdentity
             (snd (@registerIdentity examplePlatform 2
                     (IdentityInput.mk W1 CARV1 AGENT1 (Some [])) registryWithW1))
           !! asciiToLowerCase W1
     = IdentityRecord.alias <$> walletToIdentity registryWithW1 !! asciiToLowerCase W1).
Proof. by vm_compute. Qed.

(** C6, amended: [registerIdentity] on a known wallet with the bound CARV ID
    and agent ID returns the stored record with the alias replaced whenever
    an alias is supplied, the empty string included (only an absent alias
    leaves the existing one), [lastVerifiedAt] set to the time of the call
    and [totalVerifications] one higher; the record replaces the stored one
    and the set of registered wallets and both indexes stay as they were.
    And after a call for a wallet, CARV ID and agent ID that returned, a
    second call for the same three returns too, adds no record and counts
    one more verification. *)
Theorem registerIdentity_touch `{Platform} (now : Z) (input : IdentityInput.t)
    (reg : IdentityRegistry) :
  (forall existing,
      walletToIdentity reg !! toLowerCase (IdentityInput.wallet input) = Some existing ->
      toLowerCase (IdentityRecord.carvId existing) = toLowerCase (IdentityInput.carvId input) ->
      toLowerCase (IdentityRecord.agentId existing) = toLowerCase (IdentityInput.agentId input) ->
      let updated :=
        IdentityRecord.mk
          (IdentityRecord.wallet existing) (IdentityRecord.carvId existing)
          (IdentityRecord.agentId existing)
          (match IdentityInput.alias input with
           | Some supplied => Some supplied
           | None => IdentityRecord.alias existing
           end)
          (IdentityRecord.registeredAt existing)
          now (IdentityRecord.totalVerifications existing + 1) in
      let reg' := snd (registerIdentity now input reg) in
      fst (registerIdentity now input reg) = Returned updated
      /\ walletToIdentity reg'
         = <[toLowerCase (IdentityInput.wallet input) := updated]> (walletToIdentity reg)
      /\ dom (walletToIdentity reg') = dom (walletToIdentity reg)
      /\ carvIdToWallet reg' = carvIdToWallet reg
      /\ agentIdToWallet reg' = agentIdToWallet reg)
  /\ (forall first reg1 now2 alias2,
        registerIdentity now input reg = (Returned first, reg1) ->
        exists second reg2,
          registerIdentity now2
            (IdentityInput.mk (IdentityInput.wallet input) (IdentityInput.carvId input)
                              (IdentityInput.agentId input) alias2) reg1
          = (Returned second, reg2)
          /\ dom (walletToIdentity reg2) = dom (walletToIdentity reg1)
          /\ IdentityRecord.totalVerifications second
             = IdentityRecord.totalVerifications first + 1).
Proof.
  split.
  - intros existing Hexisting Hcarv Hagent updated reg'. subst reg' updated.
    unfold registerIdentity, normalizeKeys. rewrite Hexisting.
    rewrite (proj2 (bindingDiffers_false _ _ _) (conj Hcarv Hagent)). cbn.
    repeat split. apply dom_insert_lookup_L. by eexists.
  - intros first reg1 now2 alias2.
    unfold registerIdentity at 1. unfold normalizeKeys.
    set (walletKey := toLowerCase (IdentityInput.wallet input)).
    set (carvKey := toLowerCase (IdentityInput.carvId input)).
    set (agentKey := toLowerCase (IdentityInput.agentId input)).
    assert (Hagain : forall stored other carvs agents,
      toLowerCase (IdentityRecord.carvId stored) = carvKey ->
      toLowerCase (IdentityRecord.agentId stored) = agentKey ->
      exists second reg2,
        registerIdentity now2
          (IdentityInput.mk (IdentityInput.wallet input) (IdentityInput.carvId input)
                            (IdentityInput.agentId input) alias2)
          (mkRegistry (<[walletKey := stored]> other) carvs agents)
        = (Returned second, reg2)
        /\ dom (walletToIdentity reg2) = dom (<[walletKey := stored]> other)
        /\ IdentityRecord.totalVerifications second
           = IdentityRecord.totalVerifications stored + 1).
    { intros stored other carvs agents Hc Ha.
      unfold registerIdentity, normalizeKeys. cbn. fold walletKey carvKey agentKey.
      rewrite lookup_insert_eq.
      rewrite (proj2 (bindingDiffers_false _ _ _) (conj Hc Ha)).
      do 2 eexists. split; [done |]. cbn. split; [| done].
      rewrite insert_insert_eq. by rewrite !dom_insert_L. }
    destruct (walletToIdentity reg !! walletKey) as [existing |] eqn:Hexisting.
    + destruct (bindingDiffers existing carvKey agentKey) eqn:Hdiffers; [done |].
      apply bindingDiffers_false in Hdiffers as [Hc Ha].
      intros [= <- <-]. by apply Hagain.
    + destruct (assertCanLink input reg); [| done].
      intros [= <- <-]. by apply Hagain.
Qed.

Lemma registerIdentity_touch_witness :
  walletToIdentity registryWithW1 !! asciiToLowerCase W1
  = Some (IdentityRecord.mk W1 CARV1 AGENT1 (Some (lit "hist-user")) 1 1 1)
  /\ fst (@registerIdentity examplePlatform 5
            (IdentityInput.mk W1 CARV1 AGENT1 None) registryWithW1)
     = Returned (IdentityRecord.mk W1 CARV1 AGENT1 (Some (lit "hist-user")) 1 5 2).
Proof.
  assert (Hstored : walletToIdentity registryWithW1 !! asciiToLowerCase W1
                    = Some (IdentityRecord.mk W1 CARV1 AGENT1 (Some (lit "hist-user")) 1 1 1))
    by (by vm_compute).
  split; [done |].
  apply (proj1 (@registerIdentity_touch examplePlatform 5
                  (IdentityInput.mk W1 CARV1 AGENT1 None) registryWithW1)
           _ Hstored); by vm_compute.
Defined.

(** ** Wallet authentication *)

Lemma pendingChallenge_pending :
  challenges serviceWithChallenge !! asciiToLowerCase W1 = Some pendingChallenge.
Proof. by vm_compute. Qed.

Section AuthProperties.
Context `{Platform}.

Lemma sweep_lookup_None (now : Z) (m : gmap jsstring WalletChallenge.t) (k : jsstring) :
  m !! k = None -> filter (unexpired now) m !! k = None.
Proof. intros Hk. apply map_lookup_filter_None. by left. Qed.

(** No call of [verifyChallenge] makes a challenge appear. *)
Lemma verifyChallenge_keeps_absent (env : VerifyEnv) (input : VerifyInput.t)
    (svc : AuthService) (k : jsstring) :
  challenges svc !! k = None ->
  challenges (snd (verifyChallenge env input svc)) !! k = None.
Proof.
  intros Hk.
  verify_cases; cbn; try (apply lookup_delete_None; right); by apply sweep_lookup_None.
Qed.

Lemma runAuthCalls_keeps_absent (calls : list AuthCall) (svc : AuthService) (k : jsstring) :
  challenges svc !! k = None ->
  challenges (runAuthCalls calls svc) !! k = None.
Proof.
  unfold runAuthCalls. revert svc.
  induction calls as [| c calls IH]; intros svc Hk; cbn; [done |].
  apply IH. destruct c as [env input | now token | token]; cbn.
  - by apply verifyChallenge_keeps_absent.
  - unfold getSession. unfold_ops. cbn. repeat (case_match; cbn; try done).
  - done.
Qed.

(** A verification that returns had well-formed arguments and has
    deleted the challenge of its wallet. *)
Lemma verifyChallenge_returned (env : VerifyEnv) (input : VerifyInput.t)
    (svc : AuthService) (session : WalletSession.t) :
  fst (verifyChallenge env input svc) = Returned session ->
  exists wallet carvId agentId bytes,
    validateWallet (VerifyInput.wallet input) = Returned wallet
    /\ validateCarvId (VerifyInput.carvId input) = Returned carvId
    /\ validateAgentId (VerifyInput.agentId input) = Returned agentId
    /\ bs58_decode (VerifyInput.signature input) = Some bytes
    /\ challenges (snd (verifyChallenge env input svc)) !! toLowerCase wallet = None.
Proof.
  verify_cases; intros _; do 4 eexists; cbn; by rewrite lookup_delete_eq.
Qed.

Lemma verifyChallenge_absent (env : VerifyEnv) (input : VerifyInput.t)
    (svc : AuthService) (wallet carvId agentId : jsstring) (bytes : list N) :
  validateWallet (VerifyInput.wallet input) = Returned wallet ->
  validateCarvId (VerifyInput.carvId input) = Returned carvId ->
  validateAgentId (VerifyInput.agentId input) = Returned agentId ->
  bs58_decode (VerifyInput.signature input) = Some bytes ->
  challenges svc !! toLowerCase wallet = None ->
  fst (verifyChallenge env input svc) = Thrown ChallengeNotFound.
Proof.
  intros Hw Hc Ha Hs Hk.
  unfold verifyChallenge, dropExpiredChallenges. unfold_ops. cbn.
  rewrite Hw, Hc, Ha, Hs. cbn. by rewrite (sweep_lookup_None _ _ _ Hk).
Qed.

(** Without a challenge for the wallet a verification fails, on the format
    of an argument or on the missing challenge. *)
Lemma verifyChallenge_without_challenge (env : VerifyEnv) (input : VerifyInput.t)
    (svc : AuthService) (wallet : jsstring) :
  validateWallet (VerifyInput.wallet input) = Returned wallet ->
  challenges svc !! toLowerCase wallet = None ->
  exists e,
    fst (verifyChallenge env input svc) = Thrown e
    /\ (e = ChallengeNotFound \/ kindOf e = ValidationError).
Proof.
  intros Hw Hk.
  unfold verifyChallenge, dropExpiredChallenges. unfold_ops. cbn. rewrite Hw. cbn.
  destruct (validateCarvId (VerifyInput.carvId input)) as [carvId | e] eqn:Hc; cbn.
  2: { exists e. split; [done |]. right.
       unfold validateCarvId in Hc. case_match; by simplify_eq. }
  destruct (validateAgentId (VerifyInput.agentId input)) as [agentId | e] eqn:Ha; cbn.
  2: { exists e. split; [done |]. right.
       unfold validateAgentId in Ha. case_match; by simplify_eq. }
  destruct (bs58_decode (VerifyInput.signature input)) as [bytes |]; cbn.
  2: { exists SignatureNotBase58. split; [done | by right]. }
  rewrite (sweep_lookup_None _ _ _ Hk). exists ChallengeNotFound. split; [done | by left].
Qed.
End AuthProperties.

(** C2, refuted as stated: the challenge of [W1] lapsed at instant 600000
    and is verified at instant 700000 with the right nonce, the right
    identifiers and a valid signature of its message; the call fails, but
    with "Challenge not found or expired", not with the expiry error. *)
Lemma expired_challenge_is_not_found :
  challenges serviceWithChallenge !! asciiToLowerCase W1 = Some pendingChallenge
  /\ WalletChallenge.expiresAtTs pendingChallenge < sweptAt verifyTooLate
  /\ WalletChallenge.nonce pendingChallenge = VerifyInput.nonce goodVerifyInput
  /\ @detachedVerify examplePlatform (WalletChallenge.message pendingChallenge)
       (VerifyInput.signature goodVerifyInput) W1 = Some true
  /\ ¬ (exists e,
          fst (@verifyChallenge examplePlatform verifyTooLate goodVerifyInput
                 serviceWithChallenge) = Thrown e
          /\ kindOf e = ExpiredError).
Proof.
  split; [by vm_compute |]. split; [by vm_compute |]. split; [by vm_compute |].
  split; [by vm_compute |].
  assert (Hout : fst (@verifyChallenge examplePlatform verifyTooLate goodVerifyInput
                        serviceWithChallenge) = Thrown ChallengeNotFound)
    by (by vm_compute).
  rewrite Hout. intros (e & [= <-] & Hkind). discriminate.
Qed.

(** C2, amended: [verifyChallenge] with well-formed arguments, for a wallet
    whose pending challenge has its expiry in the past when the call sweeps
    the expired challenges, fails with "Challenge not found or expired" (a
    NotFoundError), whatever nonce, identifiers and signature it is given,
    and the challenge is gone.  The expiry error is thrown for a challenge
    that passes the sweep and has lapsed when the expiry check reads the
    clock again, provided nonce and identifiers match, and only for such a
    challenge; it deletes the challenge too. *)
Theorem expired_challenge_outcome `{Platform} (env : VerifyEnv) (input : VerifyInput.t)
    (svc : AuthService) (wallet carvId agentId : jsstring) (bytes : list N) :
  validateWallet (VerifyInput.wallet input) = Returned wallet ->
  validateCarvId (VerifyInput.carvId input) = Returned carvId ->
  validateAgentId (VerifyInput.agentId input) = Returned agentId ->
  bs58_decode (VerifyInput.signature input) = Some bytes ->
  let outcome := fst (verifyChallenge env input svc) in
  let pendingAfter :=
    challenges (snd (verifyChallenge env input svc)) !! toLowerCase wallet in
  (forall challenge,
      challenges svc !! toLowerCase wallet = Some challenge ->
      WalletChallenge.expiresAtTs challenge < sweptAt env ->
      outcome = Thrown ChallengeNotFound
      /\ kindOf ChallengeNotFound = NotFoundError
      /\ pendingAfter = None)
  /\ (forall challenge,
        challenges svc !! toLowerCase wallet = Some challenge ->
        sweptAt env <= WalletChallenge.expiresAtTs challenge < checkedAt env ->
        WalletChallenge.nonce challenge = VerifyInput.nonce input ->
        toLowerCase (WalletChallenge.carvId challenge) = toLowerCase carvId ->
        toLowerCase (WalletChallenge.agentId challenge) = toLowerCase agentId ->
        outcome = Thrown ChallengeExpired
        /\ kindOf ChallengeExpired = ExpiredError
        /\ pendingAfter = None)
  /\ (outcome = Thrown ChallengeExpired ->
      exists challenge,
        challenges svc !! toLowerCase wallet = Some challenge
        /\ sweptAt env <= WalletChallenge.expiresAtTs challenge < checkedAt env).
Proof.
  intros Hw Hc Ha Hs outcome pendingAfter. subst outcome pendingAfter.
  unfold verifyChallenge, dropExpiredChallenges, createSession. unfold_ops. cbn.
  rewrite Hw, Hc, Ha, Hs. cbn.
  split; [| split].
  - intros challenge Hpending Hlapsed.
    assert (Hswept : filter (unexpired (sweptAt env)) (challenges svc) !! toLowerCase wallet
                     = None).
    { apply map_lookup_filter_None. right. intros ch Hch. cbn. naive_solver. }
    by rewrite Hswept.
  - intros challenge Hpending [Hfresh Hlapsed] Hnonce Hcarv Hagent.
    assert (Hswept : filter (unexpired (sweptAt env)) (challenges svc) !! toLowerCase wallet
                     = Some challenge).
    { apply map_lookup_filter_Some. split; [done |]. cbn. lia. }
    rewrite Hswept.
    rewrite !bool_decide_eq_true_2 by done. cbn.
    destruct (Z.ltb_spec (WalletChallenge.expiresAtTs challenge) (checkedAt env)); [| lia].
    cbn. by rewrite lookup_delete_eq.
  - destruct (filter (unexpired (sweptAt env)) (challenges svc) !! toLowerCase wallet)
      as [challenge |] eqn:Hswept; [| done].
    apply map_lookup_filter_Some in Hswept as [Hpending Hfresh]. cbn in Hfresh.
    repeat (case_match; cbn in *; simplify_eq; try done).
    intros _. exists challenge. split; [done |]. lia.
Qed.

Lemma expired_challenge_outcome_witness :
  @validateWallet examplePlatform (VerifyInput.wallet goodVerifyInput) = Returned W1
  /\ fst (@verifyChallenge examplePlatform verifyTooLate goodVerifyInput serviceWithChallenge)
     = Thrown ChallengeNotFound.
Proof.
  assert (Hw : @validateWallet examplePlatform (VerifyInput.wallet goodVerifyInput)
               = Returned W1) by (by vm_compute).
  split; [done |].
  refine (proj1 (proj1 (@expired_challenge_outcome examplePlatform verifyTooLate
                          goodVerifyInput serviceWithChallenge W1 CARV1 AGENT1
                          (VerifyInput.signature goodVerifyInput) Hw _ _ _)
                   pendingChallenge _ _)); by vm_compute.
Defined.

(** C3, refuted as stated: a verification of the pending challenge of [W1]
    with another nonce fails and the challenge is still pending. *)
Lemma failed_verification_keeps_challenge :
  challenges serviceWithChallenge !! asciiToLowerCase W1 = Some pendingChallenge
  /\ fst (@verifyChallenge examplePlatform verifyInTime wrongNonceInput serviceWithChallenge)
     = Thrown NonceMismatch
  /\ ¬ (challenges (snd (@verifyChallenge examplePlatform verifyInTime wrongNonceInput
                           serviceWithChallenge))
        !! asciiToLowerCase W1 = None).
Proof. repeat split; by vm_compute. Qed.

(** C3, amended: a call of [verifyChallenge] that finds a pending challenge
    for its wallet deletes it when the call returns a session and when it
    fails on expiry; when it fails for any other reason (nonce mismatch,
    CARV ID or agent ID mismatch, signature failure, a conflict raised by
    the registry) the challenge stays pending, unchanged. *)
Theorem verifyChallenge_consumption `{Platform} (env : VerifyEnv) (input : VerifyInput.t)
    (svc : AuthService) (wallet carvId agentId : jsstring) (bytes : list N)
    (challenge : WalletChallenge.t) :
  validateWallet (VerifyInput.wallet input) = Returned wallet ->
  validateCarvId (VerifyInput.carvId input) = Returned carvId ->
  validateAgentId (VerifyInput.agentId input) = Returned agentId ->
  bs58_decode (VerifyInput.signature input) = Some bytes ->
  challenges svc !! toLowerCase wallet = Some challenge ->
  ¬ (WalletChallenge.expiresAtTs challenge < sweptAt env) ->
  let pendingAfter :=
    challenges (snd (verifyChallenge env input svc)) !! toLowerCase wallet in
  match fst (verifyChallenge env input svc) with
  | Returned _ | Thrown ChallengeExpired => pendingAfter = None
  | Thrown _ => pendingAfter = Some challenge
  end.
Proof.
  intros Hw Hc Ha Hs Hpending Hfresh.
  assert (Hswept : filter (unexpired (sweptAt env)) (challenges svc) !! toLowerCase wallet
                   = Some challenge) by (by apply map_lookup_filter_Some).
  unfold verifyChallenge, dropExpiredChallenges, createSession. unfold_ops. cbn.
  rewrite Hw, Hc, Ha, Hs. cbn. rewrite Hswept.
  repeat (case_match; cbn in *; simplify_eq; try done); by rewrite lookup_delete_eq.
Qed.

Lemma verifyChallenge_consumption_witness :
  challenges serviceWithChallenge !! asciiToLowerCase W1 = Some pendingChallenge
  /\ ¬ (WalletChallenge.expiresAtTs pendingChallenge < sweptAt verifyInTime)
  /\ challenges (snd (@verifyChallenge examplePlatform verifyInTime goodVerifyInput
                        serviceWithChallenge))
     !! asciiToLowerCase W1 = None.
Proof.
  assert (Hfresh : ¬ (WalletChallenge.expiresAtTs pendingChallenge < sweptAt verifyInTime))
    by (by vm_compute).
  split; [exact pendingChallenge_pending |]. split; [done |].
  pose proof (@verifyChallenge_consumption examplePlatform verifyInTime goodVerifyInput
                serviceWithChallenge W1 CARV1 AGENT1
                (VerifyInput.signature goodVerifyInput) pendingChallenge
                eq_refl eq_refl eq_refl eq_refl pendingChallenge_pending Hfresh) as Hafter.
  assert (Hout : fst (@verifyChallenge examplePlatform verifyInTime goodVerifyInput
                        serviceWithChallenge) = Returned sessionOfW1) by (by vm_compute).
  rewrite Hout in Hafter. exact Hafter.
Defined.

(** C4: after a call of [verifyChallenge] that returned a session, and
    whatever calls other than [requestChallenge] follow, the same call made
    again fails with "Challenge not found or expired", a NotFoundError: the
    challenge it would need was deleted.  Any other verification for that
    wallet fails as well, on the missing challenge or on the format of an
    argument. *)
Theorem nonce_single_use `{Platform} (env env' : VerifyEnv) (input : VerifyInput.t)
    (svc : AuthService) (session : WalletSession.t) (calls : list AuthCall) :
  fst (verifyChallenge env input svc) = Returned session ->
  let later := runAuthCalls calls (snd (verifyChallenge env input svc)) in
  fst (verifyChallenge env' input later) = Thrown ChallengeNotFound
  /\ kindOf ChallengeNotFound = NotFoundError
  /\ forall input',
       VerifyInput.wallet input' = VerifyInput.wallet input ->
       exists e,
         fst (verifyChallenge env' input' later) = Thrown e
         /\ (e = ChallengeNotFound \/ kindOf e = ValidationError).
Proof.
  intros Hok later.
  destruct (verifyChallenge_returned _ _ _ _ Hok)
    as (wallet & carvId & agentId & bytes & Hw & Hc & Ha & Hs & Hgone).
  assert (Hlater : challenges later !! toLowerCase wallet = None)
    by (by apply runAuthCalls_keeps_absent).
  split; [by eapply verifyChallenge_absent |]. split; [done |].
  intros input' Hsame. apply (verifyChallenge_without_challenge _ _ _ wallet); [| done].
  by rewrite Hsame.
Qed.

Lemma nonce_single_use_witness :
  fst (@verifyChallenge examplePlatform verifyInTime goodVerifyInput serviceWithChallenge)
  = Returned sessionOfW1
  /\ fst (@verifyChallenge examplePlatform verifyInTime goodVerifyInput
            (@runAuthCalls examplePlatform [CallGetSession 2000 TOKEN1]
               (snd (@verifyChallenge examplePlatform verifyInTime goodVerifyInput
                       serviceWithChallenge))))
     = Thrown ChallengeNotFound.
Proof.
  assert (Hok : fst (@verifyChallenge examplePlatform verifyInTime goodVerifyInput
                       serviceWithChallenge) = Returned sessionOfW1) by (by vm_compute).
  split; [done |].
  apply (proj1 (@nonce_single_use examplePlatform verifyInTime verifyInTime goodVerifyInput
                  serviceWithChallenge sessionOfW1 [CallGetSession 2000 TOKEN1] Hok)).
Defined.

(** C10: whenever [verifyChallenge] throws, for whatever reason, the
    session store and the identity registry are what they were before the
    call. *)
Theorem verifyChallenge_failure_frame `{Platform} (env : VerifyEnv) (input : VerifyInput.t)
    (svc : AuthService) (e : Error) :
  fst (verifyChallenge env input svc) = Thrown e ->
  sessions (snd (verifyChallenge env input svc)) = sessions svc
  /\ identityRegistry (snd (verifyChallenge env input svc)) = identityRegistry svc.
Proof. verify_cases. Qed.

Lemma verifyChallenge_failure_frame_witness :
  fst (@verifyChallenge examplePlatform verifyInTime wrongNonceInput serviceWithChallenge)
  = Thrown NonceMismatch
  /\ sessions (snd (@verifyChallenge examplePlatform verifyInTime wrongNonceInput
                      serviceWithChallenge))
     = sessions serviceWithChallenge.
Proof.
  assert (Hfail : fst (@verifyChallenge examplePlatform verifyInTime wrongNonceInput
                         serviceWithChallenge) = Thrown NonceMismatch) by (by vm_compute).
  split; [done |].
  apply (@verifyChallenge_failure_frame examplePlatform verifyInTime wrongNonceInput
           serviceWithChallenge NonceMismatch Hfail).
Defined.

(** ** Rate limit *)

Section RateLimitProperties.
Context `{Platform}.



Lemma checkUserQuestRateLimit_allowed (now : Z) (questId userId : jsstring)
    (recent : gmap jsstring Z) :
  allowed (fst (checkUserQuestRateLimit now questId userId recent)) = true ->
  snd (checkUserQuestRateLimit now questId userId recent)
  = <[submissionKey questId userId := now]> recent.
Proof. unfold checkUserQuestRateLimit. by case_match. Qed.






End RateLimitProperties.



(** ** Submission pipeline *)





(** ** The registry behind the authentication service *)

Section ServiceProperties.
Context `{Platform}.

Lemma requestChallenge_registry (env : ChallengeEnv) (input : IdentityInput.t)
    (svc : AuthService) :
  identityRegistry (snd (requestChallenge env input svc)) = identityRegistry svc.
Proof.
  unfold requestChallenge. unfold_ops. cbn.
  repeat (case_match; cbn in *; simplify_eq; try done).
Qed.

Lemma verifyChallenge_registry (env : VerifyEnv) (input : VerifyInput.t) (svc : AuthService) :
  identityRegistry (snd (verifyChallenge env input svc)) = identityRegistry svc
  \/ exists text key carvId agentId alias,
       PublicKey_parse text = Some key
       /\ identityRegistry (snd (verifyChallenge env input svc))
          = snd (registerIdentity (registeredOn env)
                   (IdentityInput.mk (PublicKey_toBase58 key) carvId agentId alias)
                   (identityRegistry svc)).
Proof.
  unfold verifyChallenge, dropExpiredChallenges, createSession, validateWallet. unfold_ops.
  cbn -[registerIdentity].
  destruct (PublicKey_parse (VerifyInput.wallet input)) as [key |] eqn:Hkey;
    cbn -[registerIdentity]; [| by left].
  repeat (case_match; cbn -[registerIdentity] in *; simplify_eq; try (by left)).
  all: right; do 5 eexists; split; [exact Hkey |];
    match goal with Hreg : registerIdentity _ _ _ = _ |- _ => by rewrite Hreg end.
Qed.

Lemma runServiceCall_consistent (c : ServiceCall) (svc : AuthService) :
  namesEveryKey ->
  registryConsistent (identityRegistry svc) ->
  registryConsistent (identityRegistry (runServiceCall c svc)).
Proof.
  intros Hnames Hreg.
  destruct c as [env input | [env input | now token | token]];
    unfold runServiceCall, runAuthCall.
  - by rewrite requestChallenge_registry.
  - destruct (verifyChallenge_registry env input svc)
      as [-> | (text & key & carvId & agentId & alias & Hkey & ->)]; [done |].
    apply registerIdentity_consistent; [| done]. cbn. by eapply Hnames.
  - unfold getSession. unfold_ops. cbn. repeat (case_match; cbn; try done).
  - done.
Qed.

(** Behind the authentication service the registry only ever sees wallets
    in the canonical text of a public key, so that, on a platform where
    that text is never empty, no sequence of calls of the service leads to
    two records sharing a CARV ID or an agent ID. *)
Theorem service_unique_bindings (calls : list ServiceCall) (sessionTtl challengeTtl : Z) :
  namesEveryKey ->
  uniqueBindings
    (identityRegistry
       (runServiceCalls calls (newAuthService emptyRegistry sessionTtl challengeTtl))).
Proof.
  intros Hnames. apply registryConsistent_unique.
  assert (Hgen : forall svc, registryConsistent (identityRegistry svc) ->
                 registryConsistent (identityRegistry (runServiceCalls calls svc))).
  { unfold runServiceCalls. induction calls as [| c calls IH]; intros svc Hreg; cbn; [done |].
    apply IH. by apply runServiceCall_consistent. }
  apply Hgen. cbn. apply registryConsistent_empty.
Qed.
End ServiceProperties.

Lemma examplePlatform_namesEveryKey : @namesEveryKey examplePlatform.
Proof.
  intros text key.
  unfold PublicKey_parse, PublicKey_toBase58, toLowerCase, examplePlatform.
  destruct text as [| c rest]; [by vm_compute |].
  case_match; [| done]. by intros [= <-].
Qed.

(** * Further properties *)

(** ** Identity registry: the two checks, permanence, lookups *)

Section RegistryLookupProperties.
Context `{Platform}.



Lemma sameBinding_refl (r : IdentityRecord.t) : sameBinding r r.
Proof. unfold sameBinding. repeat split. lia. Qed.

Lemma sameBinding_trans (r1 r2 r3 : IdentityRecord.t) :
  sameBinding r1 r2 -> sameBinding r2 r3 -> sameBinding r1 r3.
Proof.
  unfold sameBinding. intros (? & ? & ? & ? & ?) (? & ? & ? & ? & ?).
  repeat split; try congruence. lia.
Qed.

Lemma runRegistryCall_permanent (c : RegistryCall) (reg : IdentityRegistry)
    (k : jsstring) (r : IdentityRecord.t) :
  walletToIdentity reg !! k = Some r ->
  exists r', walletToIdentity (runRegistryCall c reg) !! k = Some r' /\ sameBinding r r'.
Proof.
  intros Hr. destruct c as [input | now input | now walletKey]; unfold runRegistryCall.
  - exists r. split; [done | apply sameBinding_refl].
  - unfold registerIdentity, normalizeKeys.
    destruct (walletToIdentity reg !! toLowerCase (IdentityInput.wallet input))
      as [existing |] eqn:Hexisting.
    + destruct (bindingDiffers existing _ _); cbn.
      * exists r. split; [done | apply sameBinding_refl].
      * destruct (decide (toLowerCase (IdentityInput.wallet input) = k)) as [<- | Hne].
        -- rewrite lookup_insert_eq. eexists. split; [done |].
           assert (existing = r) as -> by congruence.
           unfold sameBinding. cbn. repeat split. lia.
        -- rewrite lookup_insert_ne by done. exists r. split; [done | apply sameBinding_refl].
    + destruct (assertCanLink input reg); cbn.
      * rewrite lookup_insert_ne by congruence.
        exists r. split; [done | apply sameBinding_refl].
      * exists r. split; [done | apply sameBinding_refl].
  - unfold touchStored. cbn. rewrite lookup_alter. case_decide as Hk.
    + subst. rewrite Hr. cbn. eexists. split; [done |].
      unfold sameBinding. cbn. repeat split. lia.
    + exists r. split; [done | apply sameBinding_refl].
Qed.
End RegistryLookupProperties.

(** X1: [registerIdentity] refuses exactly the calls [assertCanLink]
    refuses, with the same error and without touching the registry; a call
    [assertCanLink] lets through is registered, and the record returned is
    the one stored under the wallet. *)
Theorem registerIdentity_agrees_with_assertCanLink `{Platform} (now : Z)
    (input : IdentityInput.t) (reg : IdentityRegistry) :
  match assertCanLink input reg with
  | Thrown e => registerIdentity now input reg = (Thrown e, reg)
  | Returned _ =>
      exists record,
        fst (registerIdentity now input reg) = Returned record
        /\ getIdentity (IdentityInput.wallet input) (snd (registerIdentity now input reg))
           = Some record
  end.
Proof.
  unfold registerIdentity, assertCanLink, getIdentity, normalizeKeys.
  destruct (walletToIdentity reg !! toLowerCase (IdentityInput.wallet input))
    as [existing |].
  - destruct (bindingDiffers existing _ _); cbn; [done |].
    eexists. split; [done |]. apply lookup_insert_eq.
  - destruct (ownedByOther (carvIdToWallet reg !! _) _); [done |].
    destruct (ownedByOther (agentIdToWallet reg !! _) _); [done |]. cbn.
    eexists. split; [done |]. apply lookup_insert_eq.
Qed.

(** X2: the registry never deletes a record and never rebinds one:
    whatever calls follow, a wallet that has a record keeps one with the
    same wallet text, CARV ID, agent ID and registration instant, and its
    count of verifications never goes down. *)
Theorem registry_records_permanent `{Platform} (calls : list RegistryCall)
    (reg : IdentityRegistry) (k : jsstring) (r : IdentityRecord.t) :
  walletToIdentity reg !! k = Some r ->
  exists r',
    walletToIdentity (runRegistryCalls calls reg) !! k = Some r' /\ sameBinding r r'.
Proof.
  unfold runRegistryCalls. revert reg r.
  induction calls as [| c calls IH]; intros reg r Hr; cbn.
  - exists r. split; [done | apply sameBinding_refl].
  - destruct (runRegistryCall_permanent c reg k r Hr) as (r1 & Hr1 & Hsame1).
    destruct (IH _ _ Hr1) as (r2 & Hr2 & Hsame2).
    exists r2. split; [done | by eapply sameBinding_trans].
Qed.

Lemma registry_records_permanent_witness :
  walletToIdentity registryWithW1 !! asciiToLowerCase W1
  = Some (IdentityRecord.mk W1 CARV1 AGENT1 (Some (lit "hist-user")) 1 1 1)
  /\ exists r',
       walletToIdentity (@runRegistryCalls examplePlatform exampleRegistryCalls registryWithW1)
         !! asciiToLowerCase W1 = Some r'
       /\ sameBinding (IdentityRecord.mk W1 CARV1 AGENT1 (Some (lit "hist-user")) 1 1 1) r'.
Proof.
  assert (Hstored : walletToIdentity registryWithW1 !! asciiToLowerCase W1
                    = Some (IdentityRecord.mk W1 CARV1 AGENT1 (Some (lit "hist-user")) 1 1 1))
    by (by vm_compute).
  split; [done |].
  apply (@registry_records_permanent examplePlatform exampleRegistryCalls registryWithW1
           _ _ Hstored).
Defined.

(** X3: what [registerIdentity] returned is what the three lookups find
    afterwards, under any spelling of the wallet, the CARV ID or the agent
    ID that lower-cases to the registered one.  The registry has to be
    consistent, the wallet key not empty, and lower-casing the wallet key
    again has to leave it as it is, because [getIdentity] lower-cases the
    owner it is handed by the index. *)
Theorem registered_identity_found `{Platform} (now : Z) (input : IdentityInput.t)
    (reg reg' : IdentityRegistry) (record : IdentityRecord.t) :
  registryConsistent reg ->
  toLowerCase (IdentityInput.wallet input) <> [] ->
  toLowerCase (toLowerCase (IdentityInput.wallet input))
  = toLowerCase (IdentityInput.wallet input) ->
  registerIdentity now input reg = (Returned record, reg') ->
  (forall wallet,
      toLowerCase wallet = toLowerCase (IdentityInput.wallet input) ->
      getIdentity wallet reg' = Some record)
  /\ (forall carvId,
        toLowerCase carvId = toLowerCase (IdentityInput.carvId input) ->
        getIdentityByCarvId carvId reg' = Some record)
  /\ (forall agentId,
        toLowerCase agentId = toLowerCase (IdentityInput.agentId input) ->
        getIdentityByAgentId agentId reg' = Some record).
Proof.
  intros (Hindexed & _ & _) Hnamed Hidem.
  unfold registerIdentity, normalizeKeys.
  set (walletKey := toLowerCase (IdentityInput.wallet input)) in *.
  set (carvKey := toLowerCase (IdentityInput.carvId input)).
  set (agentKey := toLowerCase (IdentityInput.agentId input)).
  assert (Howner : forall reg0,
            walletToIdentity reg0 !! walletKey = Some record ->
            identityOfOwner (Some walletKey) reg0 = Some record).
  { intros reg0 Hstored. unfold identityOfOwner, getIdentity. cbn.
    destruct walletKey; [done |]. cbn. by rewrite Hidem. }
  destruct (walletToIdentity reg !! walletKey) as [existing |] eqn:Hexisting.
  - destruct (bindingDiffers existing carvKey agentKey) eqn:Hdiffers; [done |].
    apply bindingDiffers_false in Hdiffers as [Hc Ha].
    destruct (Hindexed _ _ Hexisting) as [Hcarv Hagent].
    rewrite Hc in Hcarv. rewrite Ha in Hagent.
    intros [= <- <-].
    split; [| split].
    + intros wallet Hw. unfold getIdentity. cbn. rewrite Hw. apply lookup_insert_eq.
    + intros carvId Hcarv'. unfold getIdentityByCarvId. cbn. rewrite Hcarv', Hcarv.
      apply Howner. cbn. apply lookup_insert_eq.
    + intros agentId Hagent'. unfold getIdentityByAgentId. cbn. rewrite Hagent', Hagent.
      apply Howner. cbn. apply lookup_insert_eq.
  - destruct (assertCanLink input reg); [| done].
    intros [= <- <-].
    split; [| split].
    + intros wallet Hw. unfold getIdentity. cbn. rewrite Hw. apply lookup_insert_eq.
    + intros carvId Hcarv'. unfold getIdentityByCarvId. cbn. rewrite Hcarv'.
      fold carvKey. rewrite lookup_insert_eq. apply Howner. cbn. apply lookup_insert_eq.
    + intros agentId Hagent'. unfold getIdentityByAgentId. cbn. rewrite Hagent'.
      fold agentKey. rewrite lookup_insert_eq. apply Howner. cbn. apply lookup_insert_eq.
Qed.

Lemma registered_identity_found_witness :
  @registryConsistent examplePlatform emptyRegistry
  /\ @getIdentityByCarvId examplePlatform (lit "CARV_AgentQuest") registryWithW1
     = Some (IdentityRecord.mk W1 CARV1 AGENT1 (Some (lit "hist-user")) 1 1 1).
Proof.
  split; [apply registryConsistent_empty |].
  set (input := IdentityInput.mk W1 CARV1 AGENT1 (Some (lit "hist-user"))).
  assert (Hnamed : @toLowerCase examplePlatform (IdentityInput.wallet input) <> [])
    by (by vm_compute).
  assert (Hidem : @toLowerCase examplePlatform
                    (@toLowerCase examplePlatform (IdentityInput.wallet input))
                  = @toLowerCase examplePlatform (IdentityInput.wallet input))
    by (by vm_compute).
  assert (Hregistered :
    @registerIdentity examplePlatform 1 input emptyRegistry
    = (Returned (IdentityRecord.mk W1 CARV1 AGENT1 (Some (lit "hist-user")) 1 1 1),
       registryWithW1)).
  { rewrite (surjective_pairing (@registerIdentity examplePlatform 1 input emptyRegistry)).
    f_equal; by vm_compute. }
  assert (Hspelling : @toLowerCase examplePlatform (lit "CARV_AgentQuest")
                      = @toLowerCase examplePlatform (IdentityInput.carvId input))
    by (by vm_compute).
  exact (proj1 (proj2 (@registered_identity_found examplePlatform 1 input emptyRegistry
                         registryWithW1 _ (@registryConsistent_empty examplePlatform)
                         Hnamed Hidem Hregistered))
           (lit "CARV_AgentQuest") Hspelling).
Defined.

(** ** Authentication: challenges and sessions *)

Section ChallengeProperties.
Context `{Platform}.

(** What an accepted [requestChallenge] leaves behind. *)
Lemma requestChallenge_returned (env : ChallengeEnv) (input : IdentityInput.t)
    (svc : AuthService) (challenge : WalletChallenge.t) :
  fst (requestChallenge env input svc) = Returned challenge ->
  challenges (snd (requestChallenge env input svc))
  = <[toLowerCase (WalletChallenge.wallet challenge) := challenge]> (challenges svc)
  /\ identityRegistry (snd (requestChallenge env input svc)) = identityRegistry svc
  /\ validateWallet (IdentityInput.wallet input)
     = Returned (WalletChallenge.wallet challenge).
Proof.
  unfold requestChallenge. unfold_ops. cbn.
  repeat (case_match; cbn in *; simplify_eq; try done).
  all: intros [= <-]; cbn; by destruct svc.
Qed.

(** The session a verification returned is stored under its token. *)
Lemma verifyChallenge_stores_session (env : VerifyEnv) (input : VerifyInput.t)
    (svc : AuthService) (session : WalletSession.t) :
  fst (verifyChallenge env input svc) = Returned session ->
  sessions (snd (verifyChallenge env input svc)) !! WalletSession.token session
  = Some session.
Proof.
  unfold verifyChallenge, dropExpiredChallenges, createSession. unfold_ops.
  cbn -[registerIdentity].
  repeat (case_match; cbn -[registerIdentity] in *; simplify_eq; try done).
  intros [= <-]. cbn. apply lookup_insert_eq.
Qed.
End ChallengeProperties.

(** X4: a refused [requestChallenge] changes nothing, the pending challenge
    of the wallet included; an accepted one stores the challenge it returns
    under the key of its wallet, in place of the one that was pending, sets
    its expiry the configured number of minutes after the clock reading, and
    touches no other challenge, no session and not the registry. *)
Theorem requestChallenge_frame `{Platform} (env : ChallengeEnv) (input : IdentityInput.t)
    (svc : AuthService) :
  match fst (requestChallenge env input svc) with
  | Thrown _ => snd (requestChallenge env input svc) = svc
  | Returned challenge =>
      let svc' := snd (requestChallenge env input svc) in
      challenges svc'
      = <[toLowerCase (WalletChallenge.wallet challenge) := challenge]> (challenges svc)
      /\ sessions svc' = sessions svc
      /\ identityRegistry svc' = identityRegistry svc
      /\ validateWallet (IdentityInput.wallet input)
         = Returned (WalletChallenge.wallet challenge)
      /\ WalletChallenge.expiresAtTs challenge
         = requestedAt env + challengeTtlMinutes svc * 60000
  end.
Proof.
  unfold requestChallenge. unfold_ops. cbn.
  repeat (case_match; cbn in *; simplify_eq; try done).
  all: by destruct svc.
Qed.

(** X5: only the latest challenge of a wallet can be answered: once
    [requestChallenge] has returned a challenge, a verification for that
    wallet that reaches it before its expiry with any other nonce, the
    nonce of an earlier challenge included, fails with "Nonce mismatch" and
    leaves the challenge pending. *)
Theorem latest_challenge_wins `{Platform} (env : ChallengeEnv) (input : IdentityInput.t)
    (svc : AuthService) (challenge : WalletChallenge.t)
    (venv : VerifyEnv) (vinput : VerifyInput.t) (carvId agentId : jsstring)
    (bytes : list N) :
  fst (requestChallenge env input svc) = Returned challenge ->
  VerifyInput.wallet vinput = IdentityInput.wallet input ->
  validateCarvId (VerifyInput.carvId vinput) = Returned carvId ->
  validateAgentId (VerifyInput.agentId vinput) = Returned agentId ->
  bs58_decode (VerifyInput.signature vinput) = Some bytes ->
  sweptAt venv <= WalletChallenge.expiresAtTs challenge ->
  VerifyInput.nonce vinput <> WalletChallenge.nonce challenge ->
  let svc1 := snd (requestChallenge env input svc) in
  fst (verifyChallenge venv vinput svc1) = Thrown NonceMismatch
  /\ challenges (snd (verifyChallenge venv vinput svc1))
       !! toLowerCase (WalletChallenge.wallet challenge) = Some challenge.
Proof.
  intros Hrequested Hwallet Hc Ha Hs Hfresh Hnonce svc1.
  destruct (requestChallenge_returned env input svc challenge Hrequested)
    as (Hchallenges & _ & Hw).
  fold svc1 in Hchallenges.
  assert (Hswept : filter (unexpired (sweptAt venv)) (challenges svc1)
                     !! toLowerCase (WalletChallenge.wallet challenge) = Some challenge).
  { apply map_lookup_filter_Some. rewrite Hchallenges, lookup_insert_eq.
    split; [done |]. cbn. lia. }
  unfold verifyChallenge, dropExpiredChallenges. unfold_ops. cbn.
  rewrite Hwallet, Hw, Hc, Ha, Hs. cbn. rewrite Hswept.
  rewrite bool_decide_eq_false_2 by congruence. cbn. done.
Qed.

Lemma latest_challenge_wins_witness :
  fst (@requestChallenge examplePlatform (mkChallengeEnv NONCE1 0 0)
         (IdentityInput.mk W1 CARV1 AGENT1 (Some (lit "hist-user"))) freshService)
  = Returned pendingChallenge
  /\ fst (@verifyChallenge examplePlatform verifyInTime wrongNonceInput serviceWithChallenge)
     = Thrown NonceMismatch.
Proof.
  assert (Hrequested :
    fst (@requestChallenge examplePlatform (mkChallengeEnv NONCE1 0 0)
           (IdentityInput.mk W1 CARV1 AGENT1 (Some (lit "hist-user"))) freshService)
    = Returned pendingChallenge) by (by vm_compute).
  split; [done |].
  refine (proj1 (@latest_challenge_wins examplePlatform (mkChallengeEnv NONCE1 0 0)
            (IdentityInput.mk W1 CARV1 AGENT1 (Some (lit "hist-user"))) freshService
            pendingChallenge verifyInTime wrongNonceInput CARV1 AGENT1
            (VerifyInput.signature wrongNonceInput) Hrequested _ _ _ _ _ _));
    by vm_compute.
Defined.

(** X6: the session [verifyChallenge] returns is the one it stored under
    its token, it lasts the configured number of minutes from its issue,
    and it names the registered record: wallet, CARV ID, agent ID and alias
    are those of the record stored for the verified wallet, in their
    registered spelling, which the identifiers presented match without
    case. *)
Theorem session_names_registered_record `{Platform} (env : VerifyEnv)
    (input : VerifyInput.t) (svc : AuthService) (session : WalletSession.t) :
  fst (verifyChallenge env input svc) = Returned session ->
  let svc' := snd (verifyChallenge env input svc) in
  exists wallet carvId agentId record,
    validateWallet (VerifyInput.wallet input) = Returned wallet
    /\ validateCarvId (VerifyInput.carvId input) = Returned carvId
    /\ validateAgentId (VerifyInput.agentId input) = Returned agentId
    /\ walletToIdentity (identityRegistry svc') !! toLowerCase wallet = Some record
    /\ WalletSession.wallet session = IdentityRecord.wallet record
    /\ WalletSession.carvId session = IdentityRecord.carvId record
    /\ WalletSession.agentId session = IdentityRecord.agentId record
    /\ WalletSession.alias session = IdentityRecord.alias record
    /\ toLowerCase (IdentityRecord.carvId record) = toLowerCase carvId
    /\ toLowerCase (IdentityRecord.agentId record) = toLowerCase agentId
    /\ IdentityRecord.lastVerifiedAt record = registeredOn env
    /\ sessions svc' !! freshToken env = Some session
    /\ WalletSession.token session = freshToken env
    /\ WalletSession.expiresAt session
       = sessionIssuedAt env + sessionTtlMinutes svc * 60000.
Proof.
  unfold verifyChallenge, dropExpiredChallenges, createSession. unfold_ops.
  cbn -[registerIdentity].
  repeat (case_match; cbn -[registerIdentity] in *; simplify_eq; try done).
  intros [= <-].
  match goal with Hreg : registerIdentity _ _ _ = _ |- _ =>
    unfold registerIdentity, normalizeKeys in Hreg; cbn in Hreg end.
  repeat (case_match; cbn in *; simplify_eq; try done).
  - match goal with Hd : bindingDiffers _ _ _ = false |- _ =>
      apply bindingDiffers_false in Hd as [Hcarv Hagent] end.
    do 4 eexists. do 3 (split; [done |]).
    split; [cbn; apply lookup_insert_eq |]. cbn.
    repeat split; try done. apply lookup_insert_eq.
  - do 4 eexists. do 3 (split; [done |]).
    split; [cbn; apply lookup_insert_eq |]. cbn.
    repeat split; try done. apply lookup_insert_eq.
Qed.

Lemma session_names_registered_record_witness :
  fst (@verifyChallenge examplePlatform verifyInTime goodVerifyInput serviceWithChallenge)
  = Returned sessionOfW1
  /\ sessions (snd (@verifyChallenge examplePlatform verifyInTime goodVerifyInput
                      serviceWithChallenge)) !! freshToken verifyInTime
     = Some sessionOfW1
  /\ WalletSession.expiresAt sessionOfW1
     = sessionIssuedAt verifyInTime + sessionTtlMinutes serviceWithChallenge * 60000.
Proof.
  assert (Hok : fst (@verifyChallenge examplePlatform verifyInTime goodVerifyInput
                       serviceWithChallenge) = Returned sessionOfW1) by (by vm_compute).
  split; [done |].
  destruct (@session_names_registered_record examplePlatform verifyInTime goodVerifyInput
              serviceWithChallenge sessionOfW1 Hok)
    as (wallet & carvId & agentId & record & _ & _ & _ & _ & _ & _ & _ & _ & _ & _ & _
        & Hstored & _ & Hexpires).
  split; [exact Hstored | exact Hexpires].
Defined.



(** X8: a session lives through its expiry instant and not beyond: the
    session a verification returned is handed back by [assertSession] at
    every reading of the clock up to and including its expiry, without any
    change of state; at a later reading the call fails with "Session is
    invalid" and removes the session, so that it stays invalid whatever the
    clock reads afterwards; after [invalidateSession] it is invalid at
    once. *)
Theorem session_lifetime `{Platform} (env : VerifyEnv) (input : VerifyInput.t)
    (svc : AuthService) (session : WalletSession.t) :
  fst (verifyChallenge env input svc) = Returned session ->
  let svc' := snd (verifyChallenge env input svc) in
  let token := WalletSession.token session in
  (forall now,
      now <= WalletSession.expiresAt session ->
      assertSession now token svc' = (Returned session, svc'))
  /\ (forall now later,
        WalletSession.expiresAt session < now ->
        fst (assertSession now token svc') = Thrown SessionInvalid
        /\ fst (assertSession later token (snd (assertSession now token svc')))
           = Thrown SessionInvalid)
  /\ (forall now,
        fst (assertSession now token (snd (invalidateSession token svc')))
        = Thrown SessionInvalid).
Proof.
  intros Hok svc' token.
  pose proof (verifyChallenge_stores_session _ _ _ _ Hok) as Hstored.
  fold svc' token in Hstored.
  split; [| split].
  - intros now Hlive. unfold assertSession, getSession. unfold_ops. cbn.
    rewrite Hstored.
    destruct (Z.ltb_spec (WalletSession.expiresAt session) now); [lia | done].
  - intros now later Hlapsed. unfold assertSession, getSession. unfold_ops. cbn.
    rewrite Hstored.
    destruct (Z.ltb_spec (WalletSession.expiresAt session) now); [| lia].
    cbn. by rewrite lookup_delete_eq.
  - intros now. unfold assertSession, getSession, invalidateSession. unfold_ops. cbn.
    by rewrite lookup_delete_eq.
Qed.

Lemma session_lifetime_witness :
  fst (@verifyChallenge examplePlatform verifyInTime goodVerifyInput serviceWithChallenge)
  = Returned sessionOfW1
  /\ fst (assertSession 21601001 TOKEN1
            (snd (@verifyChallenge examplePlatform verifyInTime goodVerifyInput
                    serviceWithChallenge)))
     = Returned sessionOfW1.
Proof.
  assert (Hok : fst (@verifyChallenge examplePlatform verifyInTime goodVerifyInput
                       serviceWithChallenge) = Returned sessionOfW1) by (by vm_compute).
  split; [done |].
  pose proof (proj1 (@session_lifetime examplePlatform verifyInTime goodVerifyInput
                       serviceWithChallenge sessionOfW1 Hok) 21601001) as Hlive.
  assert (Hbefore : 21601001 <= WalletSession.expiresAt sessionOfW1) by (by vm_compute).
  exact (f_equal fst (Hlive Hbefore)).
Defined.

(** ** White space: [trim], the preview text, the alias *)

Lemma trimStart_suffix (s : jsstring) : exists pre, s = pre ++ trimStart s.
Proof.
  induction s as [| c rest [pre IH]]; [by exists [] |]. cbn.
  destruct (isWhiteSpace c).
  - exists (c :: pre). cbn. by rewrite <- IH.
  - by exists [].
Qed.

Lemma trimEnd_prefix (s : jsstring) : exists post, s = trimEnd s ++ post.
Proof.
  unfold trimEnd. destruct (trimStart_suffix (rev s)) as [pre Hpre].
  exists (rev pre). rewrite <- rev_app_distr, <- Hpre. by rewrite rev_involutive.
Qed.

Lemma trimStart_head (s : jsstring) (c : N) :
  head (trimStart s) = Some c -> isWhiteSpace c = false.
Proof.
  induction s as [| d rest IH]; [done |]. cbn.
  destruct (isWhiteSpace d) eqn:Hd; [done |]. cbn. by intros [= <-].
Qed.

Lemma trimStart_fixed (s : jsstring) :
  (forall c, head s = Some c -> isWhiteSpace c = false) -> trimStart s = s.
Proof.
  destruct s as [| c rest]; [done |]. intros Hhead. cbn.
  by rewrite (Hhead c eq_refl).
Qed.

Lemma trimStart_nil (s : jsstring) : trimStart s = [] -> forallb isWhiteSpace s = true.
Proof.
  induction s as [| c rest IH]; [done |]. cbn.
  destruct (isWhiteSpace c); [done | done].
Qed.

Lemma last_rev {A} (l : list A) : last (rev l) = head l.
Proof. rewrite rev_alt. apply last_reverse. Qed.

Lemma trimEnd_last (s : jsstring) (c : N) :
  last (trimEnd s) = Some c -> isWhiteSpace c = false.
Proof. unfold trimEnd. rewrite last_rev. apply trimStart_head. Qed.

Lemma trimEnd_fixed (s : jsstring) :
  (forall c, last s = Some c -> isWhiteSpace c = false) -> trimEnd s = s.
Proof.
  intros Hlast. unfold trimEnd. rewrite trimStart_fixed; [apply rev_involutive |].
  intros c Hc. apply Hlast. by rewrite <- (rev_involutive s), last_rev.
Qed.

Lemma trimEnd_head (s : jsstring) (c : N) :
  head (trimEnd s) = Some c -> head s = Some c.
Proof.
  destruct (trimEnd_prefix s) as [post Hpost]. intros Hc.
  rewrite Hpost. by destruct (trimEnd s).
Qed.

Lemma trimEnd_nil (s : jsstring) : trimEnd s = [] -> forallb isWhiteSpace s = true.
Proof.
  unfold trimEnd. intros Hnil.
  assert (Hstart : trimStart (rev s) = []).
  { by rewrite <- (rev_involutive (trimStart (rev s))), Hnil. }
  apply trimStart_nil in Hstart.
  apply forallb_forall. intros c Hc.
  eapply forallb_forall in Hstart; [done |]. by apply in_rev in Hc.
Qed.

Lemma trim_head (s : jsstring) (c : N) :
  head (trim s) = Some c -> isWhiteSpace c = false.
Proof. unfold trim. intros Hc. apply trimEnd_head in Hc. by eapply trimStart_head. Qed.

Lemma trim_last (s : jsstring) (c : N) :
  last (trim s) = Some c -> isWhiteSpace c = false.
Proof. apply trimEnd_last. Qed.

Lemma trim_fixed (s : jsstring) :
  (forall c, head s = Some c -> isWhiteSpace c = false) ->
  (forall c, last s = Some c -> isWhiteSpace c = false) ->
  trim s = s.
Proof. intros Hhead Hlast. unfold trim. rewrite trimStart_fixed by done. by apply trimEnd_fixed. Qed.

Lemma trim_nil (s : jsstring) : trim s = [] -> forallb isWhiteSpace s = true.
Proof.
  unfold trim. intros Hnil. apply trimEnd_nil in Hnil.
  destruct (trimStart s) as [| c rest] eqn:Hstart; [by apply trimStart_nil |].
  cbn in Hnil. apply andb_true_iff in Hnil as [Hc _].
  by rewrite (trimStart_head s c) in Hc by (by rewrite Hstart).
Qed.

Lemma spacedOnce_collapseRuns (inRun : bool) (s : jsstring) :
  spacedOnce inRun (collapseRuns inRun s) = true.
Proof.
  revert inRun. induction s as [| c rest IH]; intros inRun; [done |]. cbn.
  destruct (isWhiteSpace c) eqn:Hc.
  - destruct inRun; [apply IH |]. cbn. apply IH.
  - cbn. rewrite Hc. apply IH.
Qed.

Lemma collapseRuns_fixed (inRun : bool) (s : jsstring) :
  spacedOnce inRun s = true -> collapseRuns inRun s = s.
Proof.
  revert inRun. induction s as [| c rest IH]; intros inRun; [done |]. cbn.
  destruct (isWhiteSpace c) eqn:Hc.
  - intros Hs. apply andb_true_iff in Hs as [Hs Hrest].
    apply andb_true_iff in Hs as [H32 Hrun].
    apply N.eqb_eq in H32 as ->. destruct inRun; [done |]. by rewrite IH.
  - intros Hrest. by rewrite IH.
Qed.

Lemma spacedOnce_weaken (afterSpace : bool) (s : jsstring) :
  spacedOnce afterSpace s = true -> spacedOnce false s = true.
Proof.
  destruct s as [| c rest]; [done |]. cbn.
  destruct (isWhiteSpace c); [| done].
  intros Hs. apply andb_true_iff in Hs as [Hs Hrest].
  apply andb_true_iff in Hs as [H32 _]. by rewrite H32, Hrest.
Qed.

Lemma spacedOnce_trimStart (afterSpace : bool) (s : jsstring) :
  spacedOnce afterSpace s = true -> spacedOnce false (trimStart s) = true.
Proof.
  revert afterSpace. induction s as [| c rest IH]; intros afterSpace; [done |]. cbn.
  destruct (isWhiteSpace c) eqn:Hc.
  - intros Hs. apply andb_true_iff in Hs as [_ Hrest]. by eapply IH.
  - intros Hrest. cbn. by rewrite Hc.
Qed.

Lemma spacedOnce_prefix (afterSpace : bool) (s post : jsstring) :
  spacedOnce afterSpace (s ++ post) = true -> spacedOnce afterSpace s = true.
Proof.
  revert afterSpace. induction s as [| c rest IH]; intros afterSpace; [done |]. cbn.
  destruct (isWhiteSpace c).
  - intros Hs. apply andb_true_iff in Hs as [Hs Hrest]. rewrite Hs. cbn. by eapply IH.
  - apply IH.
Qed.

Lemma spacedOnce_trim (s : jsstring) :
  spacedOnce false s = true -> spacedOnce false (trim s) = true.
Proof.
  intros Hs. unfold trim. apply spacedOnce_trimStart in Hs.
  destruct (trimEnd_prefix (trimStart s)) as [post Hpost].
  rewrite Hpost in Hs. by eapply spacedOnce_prefix.
Qed.

Lemma slice0_take {A} (xs : list A) (end_ : Z) :
  0 <= end_ -> slice0 xs end_ = take (Z.to_nat end_) xs.
Proof.
  intros Hend. unfold slice0, jsLength.
  destruct (Z.ltb_spec end_ 0) as [Hneg | _]; [lia |].
  destruct (Z.min_spec end_ (Z.of_nat (length xs))) as [[_ ->] | [Hle ->]]; [done |].
  rewrite Nat2Z.id. rewrite !take_ge; [done | lia | lia].
Qed.

(** X9: the text a preview is cut from is in normal form: every white-space
    code unit in it is a single space between two other code units, none
    stands at either end, and sanitizing it again changes nothing, so that
    the preview of the sanitized text is the preview of the answer. *)
Theorem preview_text_normal (text : jsstring) (limit : Z) :
  let sanitized := trim (replaceWhitespaceRuns text) in
  spacedOnce false sanitized = true
  /\ (forall c, head sanitized = Some c -> isWhiteSpace c = false)
  /\ (forall c, last sanitized = Some c -> isWhiteSpace c = false)
  /\ trim (replaceWhitespaceRuns sanitized) = sanitized
  /\ formatPreview sanitized limit = formatPreview text limit.
Proof.
  intros sanitized.
  assert (Hspaced : spacedOnce false sanitized = true).
  { apply spacedOnce_trim. apply spacedOnce_collapseRuns. }
  assert (Hfixed : trim (replaceWhitespaceRuns sanitized) = sanitized).
  { unfold replaceWhitespaceRuns. rewrite collapseRuns_fixed by done.
    apply trim_fixed; [apply trim_head | apply trim_last]. }
  split; [done |]. split; [apply trim_head |]. split; [apply trim_last |].
  split; [done |]. unfold formatPreview. by rewrite Hfixed.
Qed.

(** X10: [sanitizeAlias] hands on no empty alias and none longer than 40
    code units: an absent alias, an empty one and one made of white space
    only give no alias; any other gives the first 40 code units of the
    trimmed text, which do not start with white space. *)
Theorem sanitizeAlias_bounds (alias : option jsstring) :
  match sanitizeAlias alias with
  | None => forall s, alias = Some s -> forallb isWhiteSpace s = true
  | Some a =>
      1 <= jsLength a <= 40
      /\ (forall c, head a = Some c -> isWhiteSpace c = false)
      /\ exists s, alias = Some s /\ a = take 40 (trim s)
  end.
Proof.
  destruct alias as [s |]; [| done]. unfold sanitizeAlias. cbn -[trim slice0].
  destruct (truthy s) eqn:Hs; cbn -[trim slice0];
    [| destruct s; [by intros ? [= <-] | done]].
  destruct (trim s) as [| d trimmed] eqn:Htrim; cbn -[slice0].
  - intros ? [= <-]. by apply trim_nil.
  - assert (Hslice : slice0 (d :: trimmed) 40 = take 40 (d :: trimmed))
      by (by apply (slice0_take _ 40)).
    rewrite Hslice. split; [| split].
    + unfold jsLength. rewrite length_take. cbn [length]. lia.
    + cbn. intros ? [= <-]. apply (trim_head s). by rewrite Htrim.
    + exists s. by rewrite Htrim.
Qed.

(** ** Submission history *)

Section HistoryProperties.
Context `{Platform}.

Lemma take_cons_take {A} (n : nat) (x : A) (xs : list A) :
  take n (x :: take n xs) = take n (x :: xs).
Proof.
  destruct n as [| n]; [done |]. cbn. f_equal.
  rewrite take_take. f_equal. lia.
Qed.

Lemma recordAll_snoc (records : list (jsstring * SubmissionResponse.t))
    (r : jsstring * SubmissionResponse.t) (h : SubmissionHistory) :
  recordAll (records ++ [r]) h = recordSubmission r.1 r.2 (recordAll records h).
Proof. unfold recordAll. by rewrite foldl_app. Qed.

Lemma recordAll_maxEntriesPerUser (records : list (jsstring * SubmissionResponse.t))
    (h : SubmissionHistory) :
  maxEntriesPerUser (recordAll records h) = maxEntriesPerUser h.
Proof.
  induction records as [| r records IH] using rev_ind; [done |].
  by rewrite recordAll_snoc.
Qed.

Lemma recordedFor_snoc (wallet : jsstring) (records : list (jsstring * SubmissionResponse.t))
    (r : jsstring * SubmissionResponse.t) :
  recordedFor wallet (records ++ [r])
  = (if decide (toLowerCase r.1 = toLowerCase wallet) then [r.2] else [])
    ++ recordedFor wallet records.
Proof.
  unfold recordedFor. rewrite filter_app, map_app, rev_app_distr.
  rewrite filter_cons, filter_nil. by case_decide.
Qed.

(** What is stored for a wallet that had no entry before the records. *)
Lemma recordAll_stored (wallet : jsstring) (records : list (jsstring * SubmissionResponse.t))
    (h : SubmissionHistory) :
  0 <= maxEntriesPerUser h ->
  storage h !! toLowerCase wallet = None ->
  default [] (storage (recordAll records h) !! toLowerCase wallet)
  = take (Z.to_nat (maxEntriesPerUser h)) (recordedFor wallet records).
Proof.
  intros Hmax Hnone.
  induction records as [| r records IH] using rev_ind.
  - cbn. rewrite Hnone. cbn. by rewrite take_nil.
  - rewrite recordAll_snoc, recordedFor_snoc. unfold recordSubmission. cbn.
    rewrite recordAll_maxEntriesPerUser.
    case_decide as Hkey.
    + rewrite Hkey, lookup_insert_eq. cbn. rewrite IH.
      rewrite slice0_take by done. apply take_cons_take.
    + rewrite lookup_insert_ne by done. apply IH.
Qed.
End HistoryProperties.

(** X11: the history of a wallet is a window on its latest submissions:
    after [clearUser], and whatever is recorded then for this wallet and
    for others, [getRecentSubmissions] returns the entries recorded for the
    wallet under any spelling of it, the latest first, cut to the smaller of
    the limit asked for and the number of entries kept per user. *)
Theorem history_window `{Platform} (wallet : jsstring)
    (records : list (jsstring * SubmissionResponse.t)) (limit : Z)
    (h : SubmissionHistory) :
  0 <= maxEntriesPerUser h ->
  0 <= limit ->
  getRecentSubmissions wallet limit (recordAll records (clearUser wallet h))
  = take (Z.to_nat (Z.min limit (maxEntriesPerUser h))) (recordedFor wallet records).
Proof.
  intros Hmax Hlimit. unfold getRecentSubmissions. cbn zeta.
  rewrite recordAll_stored; cbn; [| done | apply lookup_delete_eq].
  rewrite slice0_take by done. rewrite take_take. f_equal. lia.
Qed.

Lemma history_window_witness :
  0 <= maxEntriesPerUser (mkHistory 2 ∅)
  /\ @getRecentSubmissions examplePlatform W1 10
       (@recordAll examplePlatform exampleRecords
          (@clearUser examplePlatform W1 (mkHistory 2 ∅)))
     = [responseScoring 40; responseScoring 30].
Proof.
  split; [done |].
  rewrite (@history_window examplePlatform W1 exampleRecords 10 (mkHistory 2 ∅));
    [by vm_compute | done | done].
Defined.

(** ** Rate limit: sweeps and waiting times *)

Section LimiterRunProperties.
Context `{Platform}.

Lemma sweptFrom_refl (t : Z) (recent : gmap jsstring Z) : sweptFrom t recent recent.
Proof. intros k. by left. Qed.

Lemma sweptFrom_later (t t' : Z) (swept plain : gmap jsstring Z) :
  t <= t' -> sweptFrom t swept plain -> sweptFrom t' swept plain.
Proof.
  intros Hle Hswept k. destruct (Hswept k) as [Hsame | (Hnone & stamp & Hplain & Hold)];
    [by left | right].
  split; [done |]. exists stamp. split; [done | lia].
Qed.

Lemma sweptFrom_sweep (t : Z) (swept plain : gmap jsstring Z) :
  sweptFrom t swept plain -> sweptFrom t (clearExpiredSubmissions t swept) plain.
Proof.
  intros Hswept k. unfold clearExpiredSubmissions.
  destruct (Hswept k) as [Hsame | (Hnone & stamp & Hplain & Hold)].
  - destruct (swept !! k) as [stamp |] eqn:Hk.
    + destruct (decide (stamp < t - SUBMISSION_WINDOW_MS)) as [Hold | Hfresh].
      * right. split; [| by exists stamp].
        apply map_lookup_filter_None. right. intros stamp' Hk'. cbn.
        assert (stamp' = stamp) as -> by congruence. by intros [].
      * left. rewrite <- Hsame. by apply map_lookup_filter_Some.
    + left. rewrite <- Hsame. apply map_lookup_filter_None. by left.
  - right. split; [| by exists stamp].
    apply map_lookup_filter_None. by left.
Qed.

Lemma sweptFrom_check (t : Z) (questId userId : jsstring) (swept plain : gmap jsstring Z) :
  sweptFrom t swept plain ->
  fst (checkUserQuestRateLimit t questId userId swept)
  = fst (checkUserQuestRateLimit t questId userId plain)
  /\ sweptFrom t (snd (checkUserQuestRateLimit t questId userId swept))
               (snd (checkUserQuestRateLimit t questId userId plain)).
Proof.
  intros Hswept. unfold checkUserQuestRateLimit.
  set (key := submissionKey questId userId).
  assert (Hinsert : sweptFrom t (<[key := t]> swept) (<[key := t]> plain)).
  { intros k. destruct (decide (key = k)) as [<- | Hne].
    - left. by rewrite !lookup_insert_eq.
    - rewrite !lookup_insert_ne by done. apply Hswept. }
  destruct (Hswept key) as [Hsame | (Hnone & stamp & Hplain & Hold)].
  - rewrite Hsame. by case_match.
  - rewrite Hnone, Hplain. cbn.
    destruct (Z.ltb_spec (t - stamp) SUBMISSION_WINDOW_MS); [lia |].
    rewrite andb_false_r. done.
Qed.

Lemma limiterResults_swept (events : list LimiterEvent) (t : Z)
    (swept plain : gmap jsstring Z) :
  clockOrdered t events ->
  sweptFrom t swept plain ->
  limiterResults events swept = limiterResults (filter isCheck events) plain.
Proof.
  revert t swept plain.
  induction events as [| e events IH]; intros t swept plain Hordered Hswept; [done |].
  destruct Hordered as [Hle Hordered].
  apply (sweptFrom_later t (eventTime e)) in Hswept; [| done].
  destruct e as [now | now questId userId].
  - rewrite filter_cons_False by (by intros []). cbn in *.
    eapply IH; [done |]. by apply sweptFrom_sweep.
  - rewrite filter_cons_True by done. cbn in *.
    destruct (sweptFrom_check now questId userId swept plain Hswept) as [Hresult Hafter].
    destruct (checkUserQuestRateLimit now questId userId swept) as [r1 swept1].
    destruct (checkUserQuestRateLimit now questId userId plain) as [r2 plain1].
    cbn in *. subst r2. f_equal. by eapply IH.
Qed.
End LimiterRunProperties.

(** X12: the sweeps of [clearExpiredSubmissions] are invisible: while the
    clock does not run backwards, every check of a run of checks and sweeps
    gets the answer, refusal and waiting time included, that it gets in the
    same run without the sweeps. *)
Theorem sweeps_invisible `{Platform} (events : list LimiterEvent) (t : Z)
    (recent : gmap jsstring Z) :
  clockOrdered t events ->
  limiterResults events recent = limiterResults (filter isCheck events) recent.
Proof. intros Hordered. eapply limiterResults_swept; [done | apply sweptFrom_refl]. Qed.

Lemma sweeps_invisible_witness :
  clockOrdered 5000 exampleLimiterEvents
  /\ @limiterResults examplePlatform exampleLimiterEvents recentAfterW1
     = @limiterResults examplePlatform (filter isCheck exampleLimiterEvents) recentAfterW1.
Proof.
  assert (Hordered : clockOrdered 5000 exampleLimiterEvents) by (cbn; lia).
  split; [done |].
  apply (@sweeps_invisible examplePlatform exampleLimiterEvents 5000 recentAfterW1 Hordered).
Defined.

(** X13: the waiting time of a refusal is exact: when a check is refused at
    an instant no earlier than the stored one, the refusal names between 1
    and 60 seconds; it leaves the map as it is; a check that many seconds
    later, or any time after that, is let through; and when it names more
    than one second, a check one second sooner is still refused. *)
Theorem wait_seconds_exact `{Platform} (now last : Z) (questId userId : jsstring)
    (recent : gmap jsstring Z) :
  recent !! submissionKey questId userId = Some last ->
  last <= now ->
  allowed (fst (checkUserQuestRateLimit now questId userId recent)) = false ->
  exists wait,
    checkUserQuestRateLimit now questId userId recent
    = (mkRateLimitResult false (Some wait), recent)
    /\ 1 <= wait <= 60
    /\ (forall later,
          now + 1000 * wait <= later ->
          allowed (fst (checkUserQuestRateLimit later questId userId recent)) = true)
    /\ allowed (fst (checkUserQuestRateLimit (now + 1000 * (wait - 1)) questId userId
                       recent)) = false.
Proof.
  intros Hlast Hle. unfold checkUserQuestRateLimit. rewrite Hlast. cbn.
  destruct (Z.eqb_spec last 0) as [-> | Hne]; cbn; [done |].
  destruct (Z.ltb_spec (now - last) SUBMISSION_WINDOW_MS) as [Hin | Hout]; cbn; [| done].
  intros _. eexists. split; [done |].
  unfold ceilDiv, SUBMISSION_WINDOW_MS in *.
  set (rest := 60000 - (now - last)) in *.
  assert (Hrest : 0 < rest <= 60000) by lia.
  pose proof (Z.div_mod (- rest) 1000 ltac:(lia)) as Hdiv.
  pose proof (Z.mod_pos_bound (- rest) 1000 ltac:(lia)) as Hmod.
  split; [lia |]. split.
  - intros later Hlater.
    destruct (Z.ltb_spec (later - last) 60000); [lia | done].
  - destruct (Z.ltb_spec (now + 1000 * (- (- rest / 1000) - 1) - last) 60000); [done | lia].
Qed.

Lemma wait_seconds_exact_witness :
  exists wait,
    @checkUserQuestRateLimit examplePlatform 6500 (lit "summarize-news") W1 recentAfterW1
    = (mkRateLimitResult false (Some wait), recentAfterW1)
    /\ 1 <= wait <= 60.
Proof.
  assert (Hlast : recentAfterW1 !! @submissionKey examplePlatform (lit "summarize-news") W1
                  = Some 5000) by (by vm_compute).
  assert (Hle : 5000 <= 6500) by lia.
  assert (Hrefused :
    allowed (fst (@checkUserQuestRateLimit examplePlatform 6500 (lit "summarize-news") W1
                    recentAfterW1)) = false) by (by vm_compute).
  destruct (@wait_seconds_exact examplePlatform 6500 5000 (lit "summarize-news") W1
              recentAfterW1 Hlast Hle Hrefused) as (wait & Hresult & Hbounds & _).
  exists wait. split; [exact Hresult | exact Hbounds].
Defined.

(** ** Submission pipeline: refusals, admissions, effects *)

Section SubmissionProperties.
Context `{Platform}.

Lemma parseSubmission_returned (raw input : SubmissionInput.t) :
  parseSubmission raw = Returned input ->
  input = SubmissionInput.mk (trim (SubmissionInput.questId raw))
            (trim (SubmissionInput.sessionToken raw))
            (trim <$> SubmissionInput.displayName raw)
            (trim (SubmissionInput.answer raw))
  /\ 1 <= jsLength (SubmissionInput.questId input)
  /\ 10 <= jsLength (SubmissionInput.sessionToken input)
  /\ 10 <= jsLength (SubmissionInput.answer input) <= 4000
  /\ (forall name, SubmissionInput.displayName input = Some name ->
        2 <= jsLength name <= 80).
Proof.
  unfold parseSubmission. destruct (schemaIssues raw) as [| issue issues] eqn:Hissues; [| done].
  intros [= <-]. cbn. split; [done |].
  unfold schemaIssues in Hissues.
  repeat match goal with
         | Happ : _ ++ _ = [] |- _ => apply app_eq_nil in Happ as [? ?]
         end.
  repeat match goal with
         | Hif : (if ?b then _ else _) = [] |- _ => destruct b eqn:?; [done |]; clear Hif
         end.
  repeat match goal with
         | Hlt : (_ <? _) = false |- _ => apply Z.ltb_ge in Hlt
         end.
  split; [done |]. split; [done |]. split; [lia |].
  intros name Hname. destruct (SubmissionInput.displayName raw) as [given |]; [| done].
  cbn in Hname. injection Hname as <-.
  repeat match goal with
         | Happ : _ ++ _ = [] |- _ => apply app_eq_nil in Happ as [? ?]
         end.
  repeat match goal with
         | Hif : (if ?b then _ else _) = [] |- _ => destruct b eqn:?; [done |]; clear Hif
         end.
  repeat match goal with
         | Hlt : (_ <? _) = false |- _ => apply Z.ltb_ge in Hlt
         end.
  lia.
Qed.

(** What the first five steps of [submit] have checked when they pass;
    they change nothing then. *)
Lemma resolveSubmission_returned (env : SubmitEnv) (raw : SubmissionInput.t)
    (backend backend1 : Backend) (input : SubmissionInput.t) (session : WalletSession.t)
    (quest : Quest.t) (displayName : jsstring) :
  resolveSubmission env raw backend
  = (Returned (input, session, quest, displayName), backend1) ->
  backend1 = backend
  /\ parseSubmission raw = Returned input
  /\ sessions (authService backend) !! SubmissionInput.sessionToken input = Some session
  /\ sessionCheckedAt env <= WalletSession.expiresAt session
  /\ questMap !! SubmissionInput.questId input = Some quest
  /\ Quest.minAnswerLength quest <= jsLength (SubmissionInput.answer input)
     <= Quest.maxAnswerLength quest
  /\ displayName
     = orElse (trim <$> SubmissionInput.displayName input)
              (orElse (WalletSession.alias session) (WalletSession.wallet session)).
Proof.
  unfold resolveSubmission, onAuthService, assertSession, getSession. unfold_ops.
  destruct (parseSubmission raw) as [parsed | e]; cbn -[questMap]; [| done].
  destruct (sessions (authService backend) !! SubmissionInput.sessionToken parsed)
    as [found |] eqn:Hfound; cbn -[questMap]; [| done].
  destruct (Z.ltb_spec (WalletSession.expiresAt found) (sessionCheckedAt env));
    cbn -[questMap]; [done |].
  destruct (questMap !! SubmissionInput.questId parsed) as [q |] eqn:Hquest;
    cbn -[questMap]; [| done].
  destruct (Z.ltb_spec (jsLength (SubmissionInput.answer parsed)) (Quest.minAnswerLength q));
    cbn -[questMap]; [done |].
  destruct (Z.ltb_spec (Quest.maxAnswerLength q) (jsLength (SubmissionInput.answer parsed)));
    cbn -[questMap]; [done |].
  intros [= <- <- <- <- <-]. split; [by destruct backend |]. repeat split; done.
Qed.


(** [submit] written out along its three outcomes. *)
Lemma submit_unfold (env : SubmitEnv) (raw : SubmissionInput.t) (backend : Backend) :
  submit env raw backend
  = match resolveSubmission env raw backend with
    | (Thrown e, backend1) => (Thrown e, backend1)
    | (Returned (input, session, quest, displayName), backend1) =>
        let checked :=
          checkUserQuestRateLimit (rateLimitedAt env) (Quest.id quest)
            (WalletSession.wallet session) (recentSubmissions backend1) in
        if allowed (fst checked)
        then
          let proofPayload :=
            buildProofPayload quest session displayName (SubmissionInput.answer input)
                              (score (evaluation env)) (stampedAt env) in
          let response :=
            composeResponse quest session displayName (evaluation env) proofPayload
              (hashPayload proofPayload) (lit "AgentQuest:" ++ hashPayload proofPayload)
              (memoResult env) (rewardReceipt env) in
          (Returned response,
           mkBackend (authService backend1) (snd checked)
             (recordSubmission (WalletSession.wallet session) response
                <$> history backend1))
        else
          (Thrown (WaitBeforeNextAttempt (waitSeconds (fst checked))),
           mkBackend (authService backend1) (snd checked) (history backend1))
    end.
Proof.
  unfold submit, admitSubmission. unfold opBind at 1 2.
  destruct (resolveSubmission env raw backend)
    as [[[[[input session] quest] displayName] | e] backend1]; [| done].
  unfold onRateLimiter, onHistory. unfold_ops.
  destruct (checkUserQuestRateLimit (rateLimitedAt env) (Quest.id quest)
              (WalletSession.wallet session) (recentSubmissions backend1))
    as [[[|] wait] recent]; done.
Qed.

(** A [submit] that returns has passed every check, and its effects are
    the stamp of the rate limiter and the entry of the history. *)
Lemma submit_returned (env : SubmitEnv) (raw : SubmissionInput.t) (backend : Backend)
    (response : SubmissionResponse.t) :
  fst (submit env raw backend) = Returned response ->
  exists input session quest displayName,
    resolveSubmission env raw backend
    = (Returned (input, session, quest, displayName), backend)
    /\ response
       = (let proofPayload :=
            buildProofPayload quest session displayName (SubmissionInput.answer input)
                              (score (evaluation env)) (stampedAt env) in
          composeResponse quest session displayName (evaluation env) proofPayload
            (hashPayload proofPayload) (lit "AgentQuest:" ++ hashPayload proofPayload)
            (memoResult env) (rewardReceipt env))
    /\ snd (submit env raw backend)
       = mkBackend (authService backend)
           (<[submissionKey (Quest.id quest) (WalletSession.wallet session)
              := rateLimitedAt env]> (recentSubmissions backend))
           (recordSubmission (WalletSession.wallet session) response <$> history backend).
Proof.
  rewrite submit_unfold.
  destruct (resolveSubmission env raw backend)
    as [[[[[input session] quest] displayName] | e] backend1] eqn:Hresolved; [| done].
  destruct (resolveSubmission_returned _ _ _ _ _ _ _ _ Hresolved) as [-> _].
  pose proof (checkUserQuestRateLimit_allowed (rateLimitedAt env) (Quest.id quest)
                (WalletSession.wallet session) (recentSubmissions backend)) as Hstamp.
  cbv zeta.
  destruct (allowed (fst (checkUserQuestRateLimit (rateLimitedAt env) (Quest.id quest)
                            (WalletSession.wallet session) (recentSubmissions backend))));
    [| done].
  intros [= <-]. rewrite Hstamp by done.
  by exists input, session, quest, displayName.
Qed.
End SubmissionProperties.



(** X15: what an accepted submission has passed: when [submit] returns a
    response, the trimmed session token names a stored session that has not
    expired at the reading of the clock, the trimmed quest id names a quest
    of the catalog, and the trimmed answer is within the bounds of that
    quest and of the schema; the response names the quest and the wallet,
    CARV ID and agent ID of the session, its display name is the trimmed
    name given, else the alias of the session, else its wallet, its memo
    text is "AgentQuest:" followed by its proof hash, and its preview is
    the preview of the trimmed answer. *)
Theorem submit_accepted `{Platform} (env : SubmitEnv) (raw : SubmissionInput.t)
    (backend : Backend) (response : SubmissionResponse.t) :
  fst (submit env raw backend) = Returned response ->
  exists session quest,
    sessions (authService backend) !! trim (SubmissionInput.sessionToken raw) = Some session
    /\ sessionCheckedAt env <= WalletSession.expiresAt session
    /\ questMap !! trim (SubmissionInput.questId raw) = Some quest
    /\ Quest.minAnswerLength quest <= jsLength (trim (SubmissionInput.answer raw))
       <= Quest.maxAnswerLength quest
    /\ 10 <= jsLength (trim (SubmissionInput.answer raw)) <= 4000
    /\ SubmissionResponse.questId response = Quest.id quest
    /\ SubmissionResponse.questTitle response = Quest.title quest
    /\ SubmissionResponse.wallet response = WalletSession.wallet session
    /\ SubmissionResponse.carvId response = WalletSession.carvId session
    /\ SubmissionResponse.agentId response = WalletSession.agentId session
    /\ SubmissionResponse.displayName response
       = orElse (trim <$> (trim <$> SubmissionInput.displayName raw))
                (orElse (WalletSession.alias session) (WalletSession.wallet session))
    /\ SubmissionResponse.userId response = SubmissionResponse.displayName response
    /\ SubmissionResponse.score response = score (evaluation env)
    /\ SubmissionResponse.memoText response
       = lit "AgentQuest:" ++ SubmissionResponse.proofHash response
    /\ SubmissionResponse.answerPreview response
       = formatPreview (trim (SubmissionInput.answer raw)) (Quest.previewLimit quest).
Proof.
  intros Hreturned.
  destruct (submit_returned _ _ _ _ Hreturned)
    as (input & session & quest & displayName & Hresolved & -> & _).
  destruct (resolveSubmission_returned _ _ _ _ _ _ _ _ Hresolved)
    as (_ & Hparsed & Hsession & Hlive & Hquest & Hbounds & ->).
  destruct (parseSubmission_returned _ _ Hparsed) as (-> & _ & _ & Hschema & _).
  exists session, quest. cbn -[questMap trim formatPreview lit orElse] in *.
  repeat split; done || lia.
Qed.

Lemma submit_accepted_witness :
  fst (@submit examplePlatform (submitAt 5000 memoDisabled rewardDisabled)
         exampleSubmission backendWithSession) = Returned exampleResponse
  /\ exists session,
       sessions (authService backendWithSession) !! trim TOKEN1 = Some session
       /\ SubmissionResponse.wallet exampleResponse = WalletSession.wallet session.
Proof.
  assert (Hrun : fst (@submit examplePlatform (submitAt 5000 memoDisabled rewardDisabled)
                        exampleSubmission backendWithSession) = Returned exampleResponse)
    by (by vm_compute).
  split; [done |].
  destruct (@submit_accepted examplePlatform (submitAt 5000 memoDisabled rewardDisabled)
              exampleSubmission backendWithSession exampleResponse Hrun)
    as (session & quest & Hsession & _ & _ & _ & _ & _ & _ & Hwallet & _).
  exists session. split; [exact Hsession | exact Hwallet].
Defined.

(** X16: what an accepted submission leaves behind: the authentication
    service is untouched; the rate limiter holds the instant of the check
    under the key of the quest and the wallet, and nothing else in it has
    changed; and a history, when there is one that keeps at least one entry
    a user, returns the response as the latest submission of the wallet. *)
Theorem submit_recorded `{Platform} (env : SubmitEnv) (raw : SubmissionInput.t)
    (backend : Backend) (response : SubmissionResponse.t) :
  fst (submit env raw backend) = Returned response ->
  let backend' := snd (submit env raw backend) in
  authService backend' = authService backend
  /\ recentSubmissions backend'
     = <[submissionKey (SubmissionResponse.questId response)
                       (SubmissionResponse.wallet response) := rateLimitedAt env]>
         (recentSubmissions backend)
  /\ match history backend with
     | None => history backend' = None
     | Some h =>
         exists h',
           history backend' = Some h'
           /\ h' = recordSubmission (SubmissionResponse.wallet response) response h
           /\ forall limit,
                1 <= maxEntriesPerUser h -> 1 <= limit ->
                head (getRecentSubmissions (SubmissionResponse.wallet response) limit h')
                = Some response
     end.
Proof.
  intros Hreturned backend'.
  destruct (submit_returned _ _ _ _ Hreturned)
    as (input & session & quest & displayName & _ & Hresponse & Hstate).
  assert (Hwallet : SubmissionResponse.wallet response = WalletSession.wallet session)
    by (by rewrite Hresponse).
  assert (Hquest : SubmissionResponse.questId response = Quest.id quest)
    by (by rewrite Hresponse).
  subst backend'. rewrite Hstate, Hwallet, Hquest. cbn.
  split; [done |]. split; [done |].
  destruct (history backend) as [h |]; cbn; [| done].
  eexists. split; [done |]. split; [done |].
  intros limit Hmax Hlimit. unfold getRecentSubmissions, recordSubmission. cbn.
  rewrite lookup_insert_eq. cbn.
  rewrite !slice0_take by lia. rewrite take_take.
  destruct (Z.to_nat limit `min` Z.to_nat (maxEntriesPerUser h))%nat eqn:Hmin; [lia | done].
Qed.

Lemma submit_recorded_witness :
  fst (@submit examplePlatform (submitAt 5000 memoDisabled rewardDisabled)
         exampleSubmission backendWithSession) = Returned exampleResponse
  /\ authService
       (snd (@submit examplePlatform (submitAt 5000 memoDisabled rewardDisabled)
               exampleSubmission backendWithSession))
     = authService backendWithSession.
Proof.
  assert (Hrun : fst (@submit examplePlatform (submitAt 5000 memoDisabled rewardDisabled)
                        exampleSubmission backendWithSession) = Returned exampleResponse)
    by (by vm_compute).
  split; [done |].
  apply (@submit_recorded examplePlatform (submitAt 5000 memoDisabled rewardDisabled)
           exampleSubmission backendWithSession exampleResponse Hrun).
Defined.

(** ** Pending OAuth states *)

Lemma consumeState_spent (now : Z) (state : jsstring) (pending : gmap jsstring Z) :
  truthyNumber (snd (consumeState now state pending) !! state) = false.
Proof.
  unfold consumeState. destruct (truthyNumber (pending !! state)) eqn:Hstored; cbn.
  - by rewrite lookup_delete_eq.
  - done.
Qed.

Lemma consumeState_elsewhere (now : Z) (state other : jsstring) (pending : gmap jsstring Z) :
  truthyNumber (pending !! state) = false ->
  truthyNumber (snd (consumeState now other pending) !! state) = false.
Proof.
  intros Hspent. unfold consumeState. destruct (truthyNumber (pending !! other)); cbn; [| done].
  destruct (decide (other = state)) as [-> | Hne].
  - by rewrite lookup_delete_eq.
  - by rewrite lookup_delete_ne.
Qed.

Lemma cleanupStates_spent (now : Z) (state : jsstring) (pending : gmap jsstring Z) :
  truthyNumber (pending !! state) = false ->
  truthyNumber (cleanupStates now pending !! state) = false.
Proof.
  intros Hspent. unfold cleanupStates.
  destruct (filter _ pending !! state) as [stored |] eqn:Hkept; [| done].
  apply map_lookup_filter_Some in Hkept as [Hkept _]. by rewrite Hkept in Hspent.
Qed.

Lemma exchangeCode_pendingStates (now : Z) (state : jsstring)
    (tokenFetched : OAuthError + jsstring) (profileFetched : OAuthError + CarvProfile)
    (svc : CarvOAuthService) :
  oauthEnabled (snd (exchangeCode now state tokenFetched profileFetched svc))
  = oauthEnabled svc
  /\ pendingStates (snd (exchangeCode now state tokenFetched profileFetched svc))
     = if oauthEnabled svc then snd (consumeState now state (pendingStates svc))
       else pendingStates svc.
Proof.
  unfold exchangeCode. destruct (oauthEnabled svc) eqn:Henabled; cbn; [| done].
  destruct (consumeState now state (pendingStates svc)) as [matched pending]. cbn.
  destruct matched; cbn; [| done].
  destruct tokenFetched; [done |]. destruct profileFetched; [done |].
  by case_match.
Qed.

Lemma runOAuthCall_spent (c : OAuthCall) (state : jsstring) (svc : CarvOAuthService) :
  issuesNot state c ->
  truthyNumber (pendingStates svc !! state) = false ->
  oauthEnabled (runOAuthCall c svc) = oauthEnabled svc
  /\ truthyNumber (pendingStates (runOAuthCall c svc) !! state) = false.
Proof.
  intros Hother Hspent.
  destruct c as [freshState issuedAt cleanedAt | now other tokenFetched profileFetched];
    cbn in *.
  - unfold createAuthorizationUrl. destruct (oauthEnabled svc) eqn:Henabled; cbn; [| done].
    split; [done |]. apply cleanupStates_spent. by rewrite lookup_insert_ne.
  - destruct (exchangeCode_pendingStates now other tokenFetched profileFetched svc)
      as [-> ->].
    split; [done |]. destruct (oauthEnabled svc); [| done].
    by apply consumeState_elsewhere.
Qed.

(** X17: an OAuth state is good for ten minutes, the instant of expiry
    excluded: once [createAuthorizationUrl] has handed out a state, an
    exchange that presents it, and whose token and profile come back
    complete, returns the profile when the clock reads less than the instant
    of issue plus 600000, and fails with "OAuth state was not found or has
    expired" from that instant on.  The service is enabled, the instant of
    expiry is not 0, which [consumeState] takes for no state, and the
    cleanup of the issuing call runs no later than it. *)
Theorem oauth_state_lifetime (freshState : jsstring) (issuedAt cleanedAt : Z)
    (svc : CarvOAuthService) :
  oauthEnabled svc = true ->
  issuedAt + stateTtlMs <> 0 ->
  cleanedAt <= issuedAt + stateTtlMs ->
  let svc1 := snd (createAuthorizationUrl freshState issuedAt cleanedAt svc) in
  fst (createAuthorizationUrl freshState issuedAt cleanedAt svc) = inr freshState
  /\ forall now token profile,
       profileCarvId profile <> [] ->
       profileAgentId profile <> [] ->
       fst (exchangeCode now freshState (inr token) (inr profile) svc1)
       = if now <? issuedAt + 600000 then inr profile else inl OAuthStateRejected.
Proof.
  intros Henabled Hstamp Hcleaned svc1. subst svc1.
  unfold createAuthorizationUrl. rewrite Henabled. cbn [negb fst snd].
  split; [done |]. intros now token profile Hcarv Hagent.
  unfold exchangeCode, consumeState. cbn [oauthEnabled pendingStates negb].
  assert (Hkept : cleanupStates cleanedAt
                    (<[freshState := issuedAt + stateTtlMs]> (pendingStates svc))
                    !! freshState = Some (issuedAt + stateTtlMs)).
  { apply map_lookup_filter_Some. rewrite lookup_insert_eq. split; [done |]. cbn. lia. }
  rewrite Hkept. cbn [truthyNumber default].
  destruct (Z.eqb_spec (issuedAt + stateTtlMs) 0) as [Hzero | _]; [by destruct Hstamp |].
  cbn [negb]. unfold id.
  change (issuedAt + stateTtlMs) with (issuedAt + 600000).
  destruct (now <? issuedAt + 600000); cbn [negb]; [| done].
  destruct (profileCarvId profile); [done |]. by destruct (profileAgentId profile).
Qed.

(** X18: an OAuth state is spent by the first exchange that presents it,
    whatever that exchange came to, a state that had lapsed and a token or
    profile that could not be fetched included: as long as no new state of
    that name is handed out, every later exchange with it fails with "OAuth
    state was not found or has expired". *)
Theorem oauth_state_single_use (now later : Z) (state : jsstring)
    (tokenFetched tokenFetched' : OAuthError + jsstring)
    (profileFetched profileFetched' : OAuthError + CarvProfile)
    (calls : list OAuthCall) (svc : CarvOAuthService) :
  oauthEnabled svc = true ->
  Forall (issuesNot state) calls ->
  let svc1 := snd (exchangeCode now state tokenFetched profileFetched svc) in
  fst (exchangeCode later state tokenFetched' profileFetched' (runOAuthCalls calls svc1))
  = inl OAuthStateRejected.
Proof.
  intros Henabled Hcalls svc1.
  assert (Hfirst : oauthEnabled svc1 = true
                   /\ truthyNumber (pendingStates svc1 !! state) = false).
  { subst svc1.
    destruct (exchangeCode_pendingStates now state tokenFetched profileFetched svc)
      as [-> ->].
    rewrite Henabled. split; [done |]. apply consumeState_spent. }
  clearbody svc1. clear Henabled.
  assert (Hlater : oauthEnabled (runOAuthCalls calls svc1) = true
                   /\ truthyNumber (pendingStates (runOAuthCalls calls svc1) !! state)
                      = false).
  { unfold runOAuthCalls. revert svc1 Hfirst.
    induction Hcalls as [| c calls Hc _ IH]; intros svc1 [Henabled Hspent]; [done |].
    cbn. apply IH.
    destruct (runOAuthCall_spent c state svc1 Hc Hspent) as [-> Hspent'].
    by split. }
  destruct Hlater as [Henabled Hspent].
  unfold exchangeCode, consumeState. by rewrite Henabled, Hspent.
Qed.

Lemma oauth_state_lifetime_witness :
  oauthEnabled oauthReady = true
  /\ fst (exchangeCode 600999 STATE1 (inr (lit "token")) (inr carvProfile)
            (snd (createAuthorizationUrl STATE1 1000 1000 oauthReady)))
     = inr carvProfile
  /\ fst (exchangeCode 601000 STATE1 (inr (lit "token")) (inr carvProfile)
            (snd (createAuthorizationUrl STATE1 1000 1000 oauthReady)))
     = inl OAuthStateRejected.
Proof.
  assert (Henabled : oauthEnabled oauthReady = true) by done.
  assert (Hstamp : 1000 + stateTtlMs <> 0) by (by vm_compute).
  assert (Hcleaned : 1000 <= 1000 + stateTtlMs) by (by vm_compute).
  assert (Hcarv : profileCarvId carvProfile <> []) by (by vm_compute).
  assert (Hagent : profileAgentId carvProfile <> []) by (by vm_compute).
  pose proof (proj2 (oauth_state_lifetime STATE1 1000 1000 oauthReady
                       Henabled Hstamp Hcleaned)) as Hlife.
  split; [done |]. split.
  - exact (Hlife 600999 (lit "token") carvProfile Hcarv Hagent).
  - exact (Hlife 601000 (lit "token") carvProfile Hcarv Hagent).
Defined.

Lemma oauth_state_single_use_witness :
  oauthEnabled (snd (createAuthorizationUrl STATE1 1000 1000 oauthReady)) = true
  /\ fst (exchangeCode 3000 STATE1 (inr (lit "token")) (inr carvProfile)
            (runOAuthCalls [CallCreateAuthorizationUrl (lit "0c4e") 2500 2500]
               (snd (exchangeCode 2000 STATE1 (inl OAuthExchangeFailed) (inr carvProfile)
                       (snd (createAuthorizationUrl STATE1 1000 1000 oauthReady))))))
     = inl OAuthStateRejected.
Proof.
  assert (Henabled : oauthEnabled (snd (createAuthorizationUrl STATE1 1000 1000 oauthReady))
                     = true) by done.
  assert (Hcalls : Forall (issuesNot STATE1)
                     [CallCreateAuthorizationUrl (lit "0c4e") 2500 2500])
    by (by repeat constructor).
  split; [done |].
  exact (oauth_state_single_use 2000 3000 STATE1 (inl OAuthExchangeFailed)
           (inr (lit "token")) (inr carvProfile) (inr carvProfile)
           [CallCreateAuthorizationUrl (lit "0c4e") 2500 2500]
           (snd (createAuthorizationUrl STATE1 1000 1000 oauthReady))
           Henabled Hcalls).
Defined.

(** ** Leaderboard buckets *)

Section LeaderboardProperties.
Context `{Platform}.
Variable Date_getTime : jsstring -> option Z.
Variable BigInt_parse : jsstring -> option Z.

Lemma sumZ_snoc (xs : list Z) (x : Z) : sumZ (xs ++ [x]) = sumZ xs + x.
Proof. unfold sumZ. induction xs as [| y xs IH]; cbn; lia. Qed.

Lemma maxZ_snoc (xs : list Z) (x : Z) : maxZ (xs ++ [x]) = Z.max (maxZ xs) x.
Proof. unfold maxZ. induction xs as [| y xs IH]; cbn; lia. Qed.

Lemma collectBuckets_snoc (submissions : list SubmissionResponse.t)
    (submission : SubmissionResponse.t) :
  collectBuckets Date_getTime BigInt_parse (submissions ++ [submission])
  = collectBuckets Date_getTime BigInt_parse submissions
    ≫= fun b => processSubmission Date_getTime BigInt_parse b submission.
Proof. unfold collectBuckets. by rewrite foldl_app. Qed.

Lemma submissionsOf_snoc (key : jsstring) (submissions : list SubmissionResponse.t)
    (submission : SubmissionResponse.t) :
  submissionsOf key (submissions ++ [submission])
  = submissionsOf key submissions
    ++ (if decide (toLowerCase (SubmissionResponse.wallet submission) = key)
        then [submission] else []).
Proof.
  unfold submissionsOf. rewrite filter_app, filter_cons, filter_nil. by case_decide.
Qed.

Lemma isMinted_count_snoc (mine : list SubmissionResponse.t)
    (submission : SubmissionResponse.t) :
  Z.of_nat (length (filter isMinted (mine ++ [submission])))
  = Z.of_nat (length (filter isMinted mine)) + (if isMinted submission then 1 else 0).
Proof.
  rewrite filter_app, length_app, filter_cons, filter_nil.
  destruct (isMinted submission); case_decide; cbn; try done; lia.
Qed.

(** Counting one more submission of the key into its bucket. *)
Lemma processSubmission_sums (buckets : gmap jsstring LeaderboardBucket.t)
    (mine : list SubmissionResponse.t) (submission : SubmissionResponse.t) :
  amountParses BigInt_parse submission ->
  match buckets !! toLowerCase (SubmissionResponse.wallet submission) with
  | None => mine = []
  | Some bucket => bucketSums BigInt_parse mine bucket
  end ->
  exists bucket',
    processSubmission Date_getTime BigInt_parse buckets submission
    = Some (<[toLowerCase (SubmissionResponse.wallet submission) := bucket']> buckets)
    /\ bucketSums BigInt_parse (mine ++ [submission]) bucket'.
Proof.
  intros Hparses Hbefore. unfold processSubmission.
  set (key := toLowerCase (SubmissionResponse.wallet submission)) in *.
  assert (Hsums : forall bucket' : LeaderboardBucket.t,
    let bucket :=
      default
        (LeaderboardBucket.mk
           (SubmissionResponse.wallet submission)
           (SubmissionResponse.displayName submission)
           (SubmissionResponse.carvId submission)
           (SubmissionResponse.agentId submission)
           0 0 0 0 (SubmissionResponse.timestamp submission) 0 0 None None None)
        (buckets !! key) in
    LeaderboardBucket.wallet bucket' = LeaderboardBucket.wallet bucket ->
    LeaderboardBucket.displayName bucket' = LeaderboardBucket.displayName bucket ->
    LeaderboardBucket.carvId bucket' = LeaderboardBucket.carvId bucket ->
    LeaderboardBucket.agentId bucket' = LeaderboardBucket.agentId bucket ->
    LeaderboardBucket.attempts bucket' = LeaderboardBucket.attempts bucket + 1 ->
    LeaderboardBucket.totalScore bucket'
    = LeaderboardBucket.totalScore bucket + SubmissionResponse.score submission ->
    LeaderboardBucket.bestScore bucket'
    = Z.max (LeaderboardBucket.bestScore bucket) (SubmissionResponse.score submission) ->
    LeaderboardBucket.mintedRewards bucket'
    = LeaderboardBucket.mintedRewards bucket + (if isMinted submission then 1 else 0) ->
    LeaderboardBucket.rewardRaw bucket'
    = LeaderboardBucket.rewardRaw bucket + mintedAmount BigInt_parse submission ->
    bucketSums BigInt_parse (mine ++ [submission]) bucket').
  { intros bucket' bucket Hw Hd Hc Ha Hattempts Htotal Hbest Hminted Hraw.
    unfold bucketSums. rewrite !fmap_app, !fmap_cons, !fmap_nil.
    rewrite length_app, !sumZ_snoc, maxZ_snoc, isMinted_count_snoc. cbn [length].
    rewrite Hw, Hd, Hc, Ha, Hattempts, Htotal, Hbest, Hminted, Hraw. subst bucket.
    destruct (buckets !! key) as [stored |]; unfold default; cbn [from_option id].
    - destruct Hbefore as (-> & -> & -> & -> & -> & first & Hfirst & -> & -> & -> & ->).
      repeat split; try done; try lia.
      exists first. repeat split; try done. by destruct mine.
    - subst mine. cbn. repeat split; try done. by exists submission. }
  unfold amountParses, isMinted, mintedAmount in *.
  destruct (SubmissionResponse.reward submission) as [[amountRaw ? signature ? mint | |] |].
  - destruct Hparses as [amount Hamount]. rewrite Hamount in *. cbn.
    eexists. split; [done |]. apply Hsums; cbn; try done; lia.
  - eexists. split; [done |]. apply Hsums; cbn; try done; lia.
  - eexists. split; [done |]. apply Hsums; cbn; try done; lia.
  - eexists. split; [done |]. apply Hsums; cbn; try done; lia.
Qed.
End LeaderboardProperties.

(** X19: the leaderboard counts every submission once, under its wallet in
    lower case: when the amount of every minted reward is the text of an
    integer, the loop of [getTop] ends with a bucket for exactly the wallet
    keys that have a submission, and the bucket of a key holds the number
    of its submissions, the sum of their scores, the best of their scores
    or 0 if none is positive, the number and the sum of their minted
    rewards, and the wallet, display name, CARV ID and agent ID of the
    first of them. *)
Theorem leaderboard_bucket_sums `{Platform}
    (Date_getTime BigInt_parse : jsstring -> option Z)
    (submissions : list SubmissionResponse.t) :
  Forall (amountParses BigInt_parse) submissions ->
  exists buckets,
    collectBuckets Date_getTime BigInt_parse submissions = Some buckets
    /\ forall key,
         match buckets !! key with
         | None => submissionsOf key submissions = []
         | Some bucket => bucketSums BigInt_parse (submissionsOf key submissions) bucket
         end.
Proof.
  induction submissions as [| submission submissions IH] using rev_ind; intros Hparse.
  - exists ∅. split; [done |]. intros key. by rewrite lookup_empty.
  - apply Forall_app in Hparse as [Hparse Hlast]. apply Forall_cons in Hlast as [Hlast _].
    destruct (IH Hparse) as (buckets & Hcollected & Hsums).
    destruct (processSubmission_sums Date_getTime BigInt_parse buckets
                (submissionsOf (toLowerCase (SubmissionResponse.wallet submission))
                               submissions)
                submission Hlast (Hsums _)) as (bucket' & Hprocessed & Hsums').
    eexists. rewrite collectBuckets_snoc, Hcollected. cbn. split; [exact Hprocessed |].
    intros key. rewrite submissionsOf_snoc.
    destruct (decide (toLowerCase (SubmissionResponse.wallet submission) = key))
      as [<- | Hother].
    + by rewrite lookup_insert_eq.
    + rewrite lookup_insert_ne by done. rewrite app_nil_r. apply Hsums.
Qed.

Lemma leaderboard_bucket_sums_witness :
  Forall (amountParses parseDecimal) exampleBoard
  /\ exists buckets bucket,
       @collectBuckets examplePlatform parseDecimal parseDecimal exampleBoard = Some buckets
       /\ buckets !! asciiToLowerCase W1 = Some bucket
       /\ LeaderboardBucket.totalScore bucket = 140.
Proof.
  assert (Hparse : Forall (amountParses parseDecimal) exampleBoard).
  { repeat (apply List.Forall_cons || apply List.Forall_nil); vm_compute;
      first [exact I | by exists 8]. }
  split; [done |].
  destruct (@leaderboard_bucket_sums examplePlatform parseDecimal parseDecimal
              exampleBoard Hparse) as (buckets & Hcollected & Hsums).
  specialize (Hsums (asciiToLowerCase W1)).
  destruct (buckets !! asciiToLowerCase W1) as [bucket |] eqn:Hbucket;
    [| by vm_compute in Hsums].
  exists buckets, bucket. split; [done |]. split; [done |].
  destruct Hsums as (_ & -> & _). by vm_compute.
Defined.

(** ** Base58 text of the signature *)

Lemma digitsValue_app (low high : list Z) :
  digitsValue (low ++ high)
  = digitsValue low + 58 ^ Z.of_nat (length low) * digitsValue high.
Proof.
  unfold digitsValue. induction low as [| d low IH]; [cbn [app length foldr]; lia |].
  cbn [app foldr length]. rewrite IH. rewrite Nat2Z.inj_succ, Z.pow_succ_r by lia. lia.
Qed.

Lemma carryThrough_spec (digits : list Z) (carry : Z) :
  0 <= carry ->
  Forall (fun d => 0 <= d < 58) digits ->
  let '(digits', carry') := carryThrough digits carry in
  Forall (fun d => 0 <= d < 58) digits'
  /\ length digits' = length digits
  /\ 0 <= carry'
  /\ digitsValue digits' + 58 ^ Z.of_nat (length digits) * carry'
     = 256 * digitsValue digits + carry.
Proof.
  intros Hcarry Hdigits. revert carry Hcarry.
  induction Hdigits as [| d digits Hd _ IH]; intros carry Hcarry.
  - cbn. repeat split; [done | lia | unfold digitsValue; cbn; lia].
  - cbn [carryThrough].
    assert (Hvalue : 0 <= d * 256 + carry) by lia.
    assert (Hquot : 0 <= (d * 256 + carry) / 58) by (apply Z.div_pos; lia).
    specialize (IH _ Hquot).
    destruct (carryThrough digits ((d * 256 + carry) / 58)) as [rest' carry'].
    destruct IH as (Hrange & Hlength & Hpos & Hsum).
    rewrite Z.rem_mod_nonneg by lia.
    pose proof (Z.mod_pos_bound (d * 256 + carry) 58 ltac:(lia)) as Hmod.
    pose proof (Z.div_mod (d * 256 + carry) 58 ltac:(lia)) as Hdiv.
    repeat split.
    + by constructor.
    + cbn. by rewrite Hlength.
    + done.
    + unfold digitsValue in *. cbn [foldr length].
      rewrite Nat2Z.inj_succ, Z.pow_succ_r by lia. lia.
Qed.

Lemma pushCarry_spec (fuel : nat) (carry : Z) :
  0 <= carry ->
  (Z.to_nat carry <= fuel)%nat ->
  exists pushed,
    pushCarry fuel carry = Some pushed
    /\ Forall (fun d => 0 <= d < 58) pushed
    /\ digitsValue pushed = carry
    /\ (carry = 0 -> pushed = [])
    /\ (0 < carry -> 58 ^ (Z.of_nat (length pushed) - 1) <= carry).
Proof.
  revert carry. induction fuel as [| fuel IH]; intros carry Hcarry Hfuel.
  - assert (carry = 0) as -> by lia. exists []. cbn. repeat split; [done | lia].
  - cbn [pushCarry]. destruct (Z.ltb_spec 0 carry) as [Hpos | Hzero].
    + pose proof (Z.mod_pos_bound carry 58 ltac:(lia)) as Hmod.
      pose proof (Z.div_mod carry 58 ltac:(lia)) as Hdiv.
      assert (Hquot : 0 <= carry / 58) by (apply Z.div_pos; lia).
      assert (Hless : carry / 58 < carry) by (apply Z.div_lt; lia).
      destruct (IH (carry / 58) Hquot ltac:(lia))
        as (rest & -> & Hrange & Hvalue & Hnil & Hshort).
      cbn. rewrite Z.rem_mod_nonneg by lia.
      eexists. split; [done |]. split; [by constructor |].
      split; [unfold digitsValue in *; cbn [foldr]; lia |].
      split; [lia |]. intros _. cbn [length]. rewrite Nat2Z.inj_succ.
      destruct (Z.eq_dec (carry / 58) 0) as [Hlast | Hmore].
      * rewrite (Hnil Hlast). cbn. lia.
      * specialize (Hshort ltac:(lia)).
        replace (Z.succ (Z.of_nat (length rest)) - 1)
          with (Z.succ (Z.of_nat (length rest) - 1)) by lia.
        destruct rest as [| r rest]; [unfold digitsValue in Hvalue; cbn [foldr] in Hvalue; lia |].
        rewrite Z.pow_succ_r by (cbn [length]; lia). lia.
    + assert (carry = 0) as -> by lia. exists []. repeat split; [done | lia].
Qed.

Lemma pushByte_spells (digits : list Z) (value byte : Z) :
  spells digits value ->
  0 <= byte < 256 ->
  exists digits', pushByte digits byte = Some digits' /\ spells digits' (value * 256 + byte).
Proof.
  intros (Hrange & Hvalue & Hzero & Hshort & Hlength) Hbyte.
  assert (Hpos : 0 <= value).
  { subst value. clear -Hrange. unfold digitsValue.
    induction Hrange as [| d digits Hd _ IH]; cbn [foldr]; lia. }
  unfold pushByte.
  pose proof (carryThrough_spec digits byte ltac:(lia) Hrange) as Hthrough.
  destruct (carryThrough digits byte) as [digits1 carry1].
  destruct Hthrough as (Hrange1 & Hlength1 & Hcarry1 & Hsum).
  destruct (pushCarry_spec (Z.to_nat carry1) carry1 Hcarry1 ltac:(lia))
    as (pushed & -> & Hrange2 & Hvalue2 & Hnil & Hshort2).
  cbn. eexists. split; [done |].
  assert (Hspelled : digitsValue (digits1 ++ pushed) = value * 256 + byte).
  { rewrite digitsValue_app, Hlength1, Hvalue2. lia. }
  assert (Hlow : 0 <= digitsValue digits1).
  { clear -Hrange1. unfold digitsValue.
    induction Hrange1 as [| d ds Hd _ IH]; cbn [foldr]; lia. }
  unfold spells. split; [by apply Forall_app |]. split; [done |].
  split; [| split].
  - intros Hnull. assert (value = 0 /\ byte = 0) as [-> ->] by lia.
    rewrite (Hzero eq_refl) in Hsum, Hlength1.
    change (digitsValue [0]) with 0 in Hsum. cbn [length] in Hsum, Hlength1.
    change (58 ^ Z.of_nat 1) with 58 in Hsum.
    assert (carry1 = 0) as -> by lia.
    rewrite (Hnil eq_refl), app_nil_r.
    destruct digits1 as [| d1 [| ? ?]]; cbn [length] in Hlength1; try lia.
    unfold digitsValue in Hsum. cbn [foldr] in Hsum. f_equal. lia.
  - intros Hmore. rewrite length_app, Nat2Z.inj_add, Hlength1.
    destruct (Z.eq_dec carry1 0) as [-> | Hcarried].
    + rewrite (Hnil eq_refl). cbn [length]. rewrite Z.add_0_r.
      destruct (Z.eq_dec value 0) as [-> | Hvalued].
      * rewrite (Hzero eq_refl). cbn. lia.
      * specialize (Hshort ltac:(lia)). lia.
    + specialize (Hshort2 ltac:(lia)).
      assert (Hpower : 58 ^ (Z.of_nat (length digits) + Z.of_nat (length pushed) - 1)
                       = 58 ^ Z.of_nat (length digits)
                         * 58 ^ (Z.of_nat (length pushed) - 1)).
      { destruct pushed as [| p pushed];
          [unfold digitsValue in Hvalue2; cbn [foldr] in Hvalue2; lia |].
        rewrite <- Z.pow_add_r by (cbn [length]; lia). f_equal. lia. }
      rewrite Hpower.
      assert (Hbase : 0 < 58 ^ Z.of_nat (length digits)) by (apply Z.pow_pos_nonneg; lia).
      nia.
  - rewrite length_app. lia.
Qed.

Lemma pushBytes_spells (input : list Z) (digits : list Z) (value : Z) :
  spells digits value ->
  Forall (fun b => 0 <= b < 256) input ->
  exists digits',
    foldl (fun digits byte => digits ≫= fun ds => pushByte ds byte) (Some digits) input
    = Some digits'
    /\ spells digits' (foldl (fun value byte => value * 256 + byte) value input).
Proof.
  intros Hspells Hinput. revert digits value Hspells.
  induction Hinput as [| byte input Hbyte _ IH]; intros digits value Hspells.
  - by exists digits.
  - cbn [foldl]. destruct (pushByte_spells digits value byte Hspells Hbyte)
      as (digits1 & Hpushed & Hspells1).
    cbn. rewrite Hpushed. by apply IH.
Qed.

Lemma alphabetAt_digit (digit : Z) :
  0 <= digit < 58 -> alphabetAt digit = [base58Unit digit].
Proof.
  intros Hdigit. unfold alphabetAt, base58Unit.
  destruct (Z.ltb_spec digit 0); [lia |].
  assert (Hindex : (Z.to_nat digit < length BASE58_ALPHABET)%nat)
    by (change (length BASE58_ALPHABET) with 58%nat; lia).
  apply lookup_lt_is_Some in Hindex as [unit ->]. done.
Qed.

Lemma concat_alphabetAt (digits : list Z) :
  Forall (fun d => 0 <= d < 58) digits ->
  concat (map alphabetAt digits) = base58Unit <$> digits.
Proof.
  induction 1 as [| d digits Hd _ IH]; [done |].
  cbn. by rewrite IH, alphabetAt_digit.
Qed.

(** X20: [encodeBase58] spells the number of the signature's bytes in base
    58: for every sequence of bytes, the empty one apart, it returns one
    character "1" for each leading zero byte, followed by the characters of
    base-58 digits, the highest first, whose number is the number the bytes
    spell, in as few digits as that number takes; the number 0 takes the one
    digit 0, so that bytes that are all zero give one "1" more than there
    are bytes. *)
Theorem encodeBase58_spells (input : list Z) :
  input <> [] ->
  Forall (fun b => 0 <= b < 256) input ->
  exists digits,
    encodeBase58 input
    = Some (replicate (leadingZeros input) 49%N ++ (base58Unit <$> rev digits))
    /\ Forall (fun d => 0 <= d < 58) digits
    /\ digitsValue digits = bytesValue input
    /\ (bytesValue input = 0 -> digits = [0])
    /\ (0 < bytesValue input ->
        58 ^ (Z.of_nat (length digits) - 1) <= bytesValue input).
Proof.
  intros Hsome Hinput.
  assert (Hstart : spells [0] 0).
  { unfold spells, digitsValue. cbn. repeat split; try done; try lia.
    by repeat constructor. }
  destruct (pushBytes_spells input [0] 0 Hstart Hinput)
    as (digits & Hdigits & Hrange & Hvalue & Hzero & Hshort & _).
  exists digits. unfold encodeBase58.
  destruct input as [| byte input]; [done |].
  rewrite Hdigits. cbn [mbind option_bind].
  split; [| done].
  f_equal. rewrite concat_app. f_equal.
  - generalize (leadingZeros (byte :: input)). intros n.
    induction n as [| n IH]; [done |]. cbn [replicate concat]. by rewrite IH.
  - apply concat_alphabetAt. by apply List.Forall_rev.
Qed.

Lemma encodeBase58_spells_witness :
  [0; 1; 44] <> []
  /\ exists digits,
       encodeBase58 [0; 1; 44]
       = Some (replicate (leadingZeros [0; 1; 44]) 49%N ++ (base58Unit <$> rev digits))
       /\ digitsValue digits = 300.
Proof.
  assert (Hsome : [0; 1; 44] <> []) by done.
  assert (Hbytes : Forall (fun b => 0 <= b < 256) [0; 1; 44])
    by (repeat (apply List.Forall_cons || apply List.Forall_nil); lia).
  split; [done |].
  destruct (encodeBase58_spells [0; 1; 44] Hsome Hbytes)
    as (digits & Hencoded & _ & Hvalue & _).
  exists digits. split; [exact Hencoded | exact Hvalue].
Defined.

(** ** Display of a token amount *)

Lemma decimalValue_from (value : Z) (text : jsstring) :
  foldl (fun value unit => 10 * value + (Z.of_N unit - 48)) value text
  = value * 10 ^ jsLength text + decimalValue text.
Proof.
  unfold decimalValue, jsLength. revert value.
  induction text as [| unit text IH]; intros value; [cbn; lia |].
  cbn [foldl length]. rewrite IH, (IH (10 * 0 + _)).
  rewrite Nat2Z.inj_succ, Z.pow_succ_r by lia. lia.
Qed.

Lemma decimalValue_app (high low : jsstring) :
  decimalValue (high ++ low) = decimalValue high * 10 ^ jsLength low + decimalValue low.
Proof. unfold decimalValue at 1. rewrite foldl_app. apply decimalValue_from. Qed.

Lemma decimalValue_zeros (n : nat) : decimalValue (replicate n 48%N) = 0.
Proof.
  induction n as [| n IH]; [done |].
  change (replicate (S n) 48%N) with ([48%N] ++ replicate n 48%N).
  rewrite decimalValue_app, IH. unfold decimalValue. cbn. lia.
Qed.

Lemma decimalDigits_spec (fuel : nat) (n : Z) :
  0 <= n ->
  n < 2 ^ Z.of_nat fuel ->
  let digits := digitUnit <$> rev (decimalDigits fuel n) in
  decimalValue digits = n
  /\ forallb isDigitUnit digits = true
  /\ (0 < n -> 10 ^ (jsLength digits - 1) <= n)
  /\ (n = 0 -> digits = []).
Proof.
  revert n. induction fuel as [| fuel IH]; intros n Hn Hfuel.
  - cbn in *. assert (n = 0) as -> by lia. cbn. repeat split; lia || done.
  - cbn [decimalDigits]. destruct (Z.ltb_spec 0 n) as [Hpos | Hzero].
    + pose proof (Z.mod_pos_bound n 10 ltac:(lia)) as Hmod.
      pose proof (Z.div_mod n 10 ltac:(lia)) as Hdiv.
      assert (Hquot : 0 <= n / 10) by (apply Z.div_pos; lia).
      assert (Hhalf : n / 10 < 2 ^ Z.of_nat fuel).
      { rewrite Nat2Z.inj_succ, Z.pow_succ_r in Hfuel by lia.
        apply Z.div_lt_upper_bound; lia. }
      destruct (IH (n / 10) Hquot Hhalf) as (Hvalue & Hunits & Hshort & Hnil).
      cbn [rev]. rewrite fmap_app. cbn [fmap list_fmap].
      set (high := digitUnit <$> rev (decimalDigits fuel (n / 10))) in *.
      assert (Hunit : Z.of_N (digitUnit (n mod 10)) - 48 = n mod 10)
        by (unfold digitUnit; lia).
      split; [| split; [| split]].
      * rewrite decimalValue_app, Hvalue. unfold decimalValue, jsLength. cbn.
        rewrite Hunit. lia.
      * rewrite forallb_app, Hunits. cbn. unfold isDigitUnit, digitUnit.
        rewrite andb_true_r. apply andb_true_iff. split; apply N.leb_le; lia.
      * intros _. unfold jsLength in *. rewrite length_app. cbn [length].
        destruct (Z.eq_dec (n / 10) 0) as [Hlast | Hmore].
        -- rewrite (Hnil Hlast). cbn. lia.
        -- specialize (Hshort ltac:(lia)).
           replace (Z.of_nat (length high + 1) - 1)
             with (Z.succ (Z.of_nat (length high) - 1)) by lia.
           destruct high as [| h high]; [unfold decimalValue in Hvalue; cbn in Hvalue; lia |].
           rewrite Z.pow_succ_r by (cbn [length]; lia). lia.
      * lia.
    + assert (n = 0) as -> by lia. cbn. repeat split; lia || done.
Qed.

(** The text of a natural number reads as the number, is made of digits,
    and is no longer than the number takes. *)
Lemma BigInt_toString_spec (n : Z) :
  0 <= n ->
  decimalValue (BigInt_toString n) = n
  /\ forallb isDigitUnit (BigInt_toString n) = true
  /\ 1 <= jsLength (BigInt_toString n)
  /\ (forall width, 1 <= width -> n < 10 ^ width -> jsLength (BigInt_toString n) <= width).
Proof.
  intros Hn. unfold BigInt_toString.
  destruct (Z.eqb_spec n 0) as [-> | Hne].
  - unfold decimalValue, jsLength. cbn. repeat split; try done; intros; lia.
  - destruct (Z.ltb_spec n 0) as [| _]; [lia |].
    assert (Hfuel : n < 2 ^ Z.of_nat (S (Z.to_nat (Z.log2 n)))).
    { rewrite Nat2Z.inj_succ, Z2Nat.id by apply Z.log2_nonneg.
      apply Z.log2_spec. lia. }
    destruct (decimalDigits_spec _ n Hn Hfuel) as (Hvalue & Hunits & Hshort & _).
    specialize (Hshort ltac:(lia)).
    set (digits := digitUnit <$> rev (decimalDigits _ n)) in *.
    split; [done |]. split; [done |].
    assert (Hlength : 1 <= jsLength digits).
    { destruct digits; [unfold decimalValue in Hvalue; cbn in Hvalue; lia |].
      unfold jsLength. cbn [length]. lia. }
    split; [done |]. intros width Hwidth Hbound.
    destruct (Z.le_gt_cases (jsLength digits) width) as [| Hlong]; [done |].
    assert (10 ^ width <= 10 ^ (jsLength digits - 1))
      by (apply Z.pow_le_mono_r; lia).
    lia.
Qed.

Lemma dropZeros_spec (s : jsstring) :
  exists n, s = replicate n 48%N ++ dropZeros s /\ head (dropZeros s) <> Some 48%N.
Proof.
  induction s as [| unit s (n & Hs & Hhead)]; [by exists O |].
  cbn [dropZeros]. destruct (N.eqb_spec unit 48) as [-> | Hother].
  - exists (S n). cbn. by rewrite <- Hs.
  - exists O. split; [done |]. cbn. congruence.
Qed.

Lemma stripTrailingZeros_spec (s : jsstring) :
  exists n,
    s = stripTrailingZeros s ++ replicate n 48%N
    /\ last (stripTrailingZeros s) <> Some 48%N.
Proof.
  unfold stripTrailingZeros. destruct (dropZeros_spec (rev s)) as (n & Hs & Hhead).
  exists n. split.
  - rewrite <- (rev_involutive s) at 1. rewrite Hs at 1. rewrite rev_app_distr. f_equal.
    rewrite rev_alt. apply reverse_replicate.
  - by rewrite last_rev.
Qed.

(** X21: [formatDisplayAmount] shows an amount exactly: for an amount that
    is not negative and a positive number of decimals it returns the digits
    of the whole tokens, followed, unless the rest is zero, by a point and
    the digits of the rest; the digits after the point are at most
    [decimals] of them, do not end in a zero, and read, filled up with
    zeros to [decimals] digits, as the rest of the amount modulo ten to the
    [decimals]. *)
Theorem formatDisplayAmount_exact (amount decimals : Z) :
  0 <= amount ->
  0 < decimals ->
  exists whole fraction,
    formatDisplayAmount amount decimals
    = Some (whole ++ (if decide (fraction = []) then [] else lit "." ++ fraction))
    /\ forallb isDigitUnit (whole ++ fraction) = true
    /\ decimalValue whole = amount / 10 ^ decimals
    /\ jsLength fraction <= decimals
    /\ decimalValue fraction * 10 ^ (decimals - jsLength fraction)
       = amount mod 10 ^ decimals
    /\ last fraction <> Some 48%N
    /\ (fraction = [] <-> amount mod 10 ^ decimals = 0).
Proof.
  intros Hamount Hdecimals. unfold formatDisplayAmount.
  destruct (Z.eqb_spec decimals 0); [lia |].
  destruct (Z.ltb_spec decimals 0); [lia |]. cbv zeta.
  assert (Hbase : 0 < 10 ^ decimals) by (apply Z.pow_pos_nonneg; lia).
  rewrite Z.quot_div_nonneg, Z.rem_mod_nonneg by lia.
  pose proof (Z.mod_pos_bound amount (10 ^ decimals) Hbase) as Hrest.
  assert (Hwhole : 0 <= amount / 10 ^ decimals) by (apply Z.div_pos; lia).
  destruct (BigInt_toString_spec _ Hwhole) as (Hvalue & Hunits & _ & _).
  destruct (BigInt_toString_spec (amount mod 10 ^ decimals) ltac:(lia))
    as (Hvalue' & Hunits' & Hsome & Hwidth).
  specialize (Hwidth decimals ltac:(lia) ltac:(lia)).
  set (rest := BigInt_toString (amount mod 10 ^ decimals)) in *.
  assert (Hpadded : jsLength (padStart rest decimals 48%N) = decimals
                    /\ decimalValue (padStart rest decimals 48%N)
                       = amount mod 10 ^ decimals
                    /\ forallb isDigitUnit (padStart rest decimals 48%N) = true).
  { unfold padStart. split; [| split].
    - unfold jsLength in *. rewrite length_app, length_replicate. lia.
    - by rewrite decimalValue_app, decimalValue_zeros, Hvalue'.
    - rewrite forallb_app, Hunits', andb_true_r.
      generalize (Z.to_nat (decimals - jsLength rest)). intros count.
      induction count as [| count IH]; [done |]. cbn. exact IH. }
  destruct Hpadded as (Hlength & Hpadded & Hdigits).
  destruct (stripTrailingZeros_spec (padStart rest decimals 48%N))
    as (zeros & Hstripped & Hlast).
  set (fraction := stripTrailingZeros (padStart rest decimals 48%N)) in *.
  rewrite Hstripped in Hlength, Hpadded, Hdigits.
  rewrite decimalValue_app, decimalValue_zeros in Hpadded.
  unfold jsLength in Hlength, Hpadded. rewrite length_app in Hlength.
  rewrite length_replicate in Hlength, Hpadded.
  rewrite forallb_app in Hdigits. apply andb_true_iff in Hdigits as [Hdigits _].
  clearbody fraction.
  exists (BigInt_toString (amount / 10 ^ decimals)), fraction.
  split.
  { unfold jsLength. destruct fraction as [| unit fraction'];
      [rewrite decide_True by done; by rewrite !app_nil_r |].
    cbn [length]. destruct (Z.ltb_spec 0 (Z.of_nat (S (length fraction')))); [| lia].
    by rewrite decide_False by done. }
  split; [by rewrite forallb_app, Hunits, Hdigits |].
  split; [done |]. unfold jsLength.
  split; [lia |].
  split; [replace (decimals - Z.of_nat (length fraction)) with (Z.of_nat zeros) by lia; lia |].
  split; [done |].
  split.
  - intros Hnone. rewrite Hnone in Hpadded. unfold decimalValue in Hpadded. cbn in Hpadded.
    lia.
  - intros Hnull. rewrite Hnull in Hpadded.
    destruct fraction as [| unit fraction'] eqn:Hfraction using rev_ind; [done |].
    exfalso. clear IHfraction'.
    rewrite last_snoc in Hlast.
    rewrite decimalValue_app in Hpadded.
    assert (Hpower : 0 < 10 ^ Z.of_nat zeros) by (apply Z.pow_pos_nonneg; lia).
    assert (Hproduct : decimalValue fraction' * 10 ^ jsLength [unit]
                       + decimalValue [unit] = 0) by nia.
    rewrite forallb_app in Hdigits. apply andb_true_iff in Hdigits as [Hhigh Hunit].
    cbn in Hunit. rewrite andb_true_r in Hunit.
    assert (Hnonneg : 0 <= decimalValue fraction').
    { clear -Hhigh. induction fraction' as [| u f IH] using rev_ind; [done |].
      rewrite forallb_app in Hhigh. apply andb_true_iff in Hhigh as [Hf Hu].
      cbn in Hu. rewrite andb_true_r in Hu.
      rewrite decimalValue_app. specialize (IH Hf).
      unfold isDigitUnit in Hu. apply andb_true_iff in Hu as [Hlow _].
      apply N.leb_le in Hlow. unfold decimalValue at 2, jsLength. cbn. lia. }
    unfold isDigitUnit in Hunit. apply andb_true_iff in Hunit as [Hlow Hhigh'].
    apply N.leb_le in Hlow. apply N.leb_le in Hhigh'.
    unfold decimalValue at 2 in Hproduct. unfold jsLength in Hproduct. cbn in Hproduct.
    assert (unit = 48%N) by lia. congruence.
Qed.

Lemma formatDisplayAmount_exact_witness :
  0 <= 1500000000
  /\ exists whole fraction,
       formatDisplayAmount 1500000000 9
       = Some (whole ++ (if decide (fraction = []) then [] else lit "." ++ fraction))
       /\ decimalValue whole = 1500000000 / 10 ^ 9.
Proof.
  assert (Hamount : 0 <= 1500000000) by lia.
  assert (Hdecimals : 0 < 9) by lia.
  split; [done |].
  destruct (formatDisplayAmount_exact 1500000000 9 Hamount Hdecimals)
    as (whole & fraction & Hshown & _ & Hwhole & _).
  exists whole, fraction. split; [exact Hshown | exact Hwhole].
Defined.

(** ** Authentication service and registry together *)

Section ServiceInvariants.
Context `{Platform}.

Lemma sanitizeAlias_named (alias : option jsstring) : sanitizeAlias alias <> Some [].
Proof.
  unfold sanitizeAlias. destruct (truthyOpt alias); cbn -[trim slice0]; [| done].
  destruct (trim (default [] alias)) as [| c trimmed] eqn:Htrim; cbn -[slice0]; [done |].
  rewrite slice0_take by lia. done.
Qed.

Lemma assertCanLink_found (input : IdentityInput.t) (reg : IdentityRegistry)
    (existing : IdentityRecord.t) :
  assertCanLink input reg = Returned (Some existing) ->
  walletToIdentity reg !! toLowerCase (IdentityInput.wallet input) = Some existing.
Proof.
  unfold assertCanLink, normalizeKeys.
  destruct (walletToIdentity reg !! toLowerCase (IdentityInput.wallet input)) as [found |].
  - destruct (bindingDiffers found _ _); [done |]. by intros [= ->].
  - by repeat case_match.
Qed.

Lemma registerIdentity_aliases (now : Z) (input : IdentityInput.t) (reg : IdentityRegistry) :
  IdentityInput.alias input <> Some [] ->
  (forall k record,
      walletToIdentity reg !! k = Some record -> IdentityRecord.alias record <> Some []) ->
  (forall k record,
      walletToIdentity (snd (registerIdentity now input reg)) !! k = Some record ->
      IdentityRecord.alias record <> Some [])
  /\ (forall record,
        fst (registerIdentity now input reg) = Returned record ->
        IdentityRecord.alias record <> Some []).
Proof.
  intros Hinput Hreg. unfold registerIdentity, normalizeKeys.
  destruct (walletToIdentity reg !! toLowerCase (IdentityInput.wallet input))
    as [existing |] eqn:Hexisting.
  - destruct (bindingDiffers existing _ _); cbn; [by split |].
    assert (Hupdated : IdentityRecord.alias
                         (touchIdentity now (withAlias (IdentityInput.alias input) existing))
                       <> Some []).
    { cbn. destruct (IdentityInput.alias input); [done |]. by eapply Hreg. }
    split.
    + intros k record Hk. apply lookup_insert_Some in Hk as [[_ <-] | [_ Hk]]; [done |].
      by eapply Hreg.
    + by intros record [= <-].
  - destruct (assertCanLink input reg); cbn; [| by split].
    split.
    + intros k record Hk. apply lookup_insert_Some in Hk as [[_ <-] | [_ Hk]]; [done |].
      by eapply Hreg.
    + by intros record [= <-].
Qed.

Lemma requestChallenge_aliasesNamed (env : ChallengeEnv) (input : IdentityInput.t)
    (svc : AuthService) :
  aliasesNamed svc -> aliasesNamed (snd (requestChallenge env input svc)).
Proof.
  intros (Hrecords & Hchallenges & Hsessions).
  unfold aliasesNamed, requestChallenge. unfold_ops.
  cbn -[assertCanLink sanitizeAlias challengeMessage].
  destruct (validateWallet (IdentityInput.wallet input)) as [wallet | ?];
    cbn -[assertCanLink sanitizeAlias challengeMessage]; [| done].
  destruct (validateCarvId (IdentityInput.carvId input)) as [carvId | ?];
    cbn -[assertCanLink sanitizeAlias challengeMessage]; [| done].
  destruct (validateAgentId (IdentityInput.agentId input)) as [agentId | ?];
    cbn -[assertCanLink sanitizeAlias challengeMessage]; [| done].
  destruct (assertCanLink (IdentityInput.mk wallet carvId agentId None) (identityRegistry svc))
    as [identity | ?] eqn:Hlink; cbn -[assertCanLink sanitizeAlias challengeMessage];
    [| done].
  split; [done |]. split; [| done].
  intros k challenge Hk. apply lookup_insert_Some in Hk as [[_ <-] | [_ Hk]];
    [| by eapply Hchallenges].
  cbn -[sanitizeAlias].
  pose proof (sanitizeAlias_named (IdentityInput.alias input)) as Hnamed.
  destruct (sanitizeAlias (IdentityInput.alias input)); [done |]. cbn.
  destruct identity as [existing |]; [| done]. cbn.
  apply assertCanLink_found in Hlink. by eapply Hrecords.
Qed.

Lemma verifyChallenge_aliasesNamed (env : VerifyEnv) (input : VerifyInput.t)
    (svc : AuthService) :
  aliasesNamed svc -> aliasesNamed (snd (verifyChallenge env input svc)).
Proof.
  intros (Hrecords & Hchallenges & Hsessions).
  assert (Hswept : forall now k challenge,
            filter (unexpired now) (challenges svc) !! k = Some challenge ->
            WalletChallenge.alias challenge <> Some []).
  { intros now k challenge Hk. apply map_lookup_filter_Some in Hk as [Hk _].
    by eapply Hchallenges. }
  assert (Hdeleted : forall now k k' challenge,
            delete k' (filter (unexpired now) (challenges svc)) !! k = Some challenge ->
            WalletChallenge.alias challenge <> Some []).
  { intros now k k' challenge Hk. apply lookup_delete_Some in Hk as [_ Hk].
    by eapply Hswept. }
  unfold aliasesNamed, verifyChallenge, dropExpiredChallenges, createSession. unfold_ops.
  cbn -[registerIdentity].
  repeat (case_match; cbn -[registerIdentity] in *; simplify_eq;
          try (split; [done |]; split; [by eauto | done])).
  all: match goal with
       | Hfound : filter _ _ !! _ = Some ?challenge,
         Hreg : registerIdentity ?now ?input ?reg = _ |- _ =>
           pose proof (Hswept _ _ _ Hfound) as Hnamed;
           destruct (registerIdentity_aliases now input reg Hnamed Hrecords)
             as [Hstored Hreturned];
           rewrite Hreg in Hstored, Hreturned; cbn in Hstored, Hreturned
       end.
  - split; [done |]. split; [by eauto |].
    intros token session Hk. apply lookup_insert_Some in Hk as [[_ <-] | [_ Hk]];
      [| by eapply Hsessions].
    cbn. by apply Hreturned.
  - split; [done |]. split; [by eauto | done].
Qed.

Lemma runServiceCall_aliasesNamed (c : ServiceCall) (svc : AuthService) :
  aliasesNamed svc -> aliasesNamed (runServiceCall c svc).
Proof.
  intros Hnamed. destruct c as [env input | [env input | now token | token]];
    unfold runServiceCall, runAuthCall.
  - by apply requestChallenge_aliasesNamed.
  - by apply verifyChallenge_aliasesNamed.
  - destruct Hnamed as (Hrecords & Hchallenges & Hsessions).
    unfold aliasesNamed, getSession. unfold_ops. cbn.
    repeat (case_match; cbn; try done).
    split; [done |]. split; [done |].
    intros token' session' Hk. apply lookup_delete_Some in Hk as [_ Hk].
    by eapply Hsessions.
  - destruct Hnamed as (Hrecords & Hchallenges & Hsessions).
    unfold aliasesNamed, invalidateSession. unfold_ops. cbn.
    split; [done |]. split; [done |].
    intros token' session' Hk. apply lookup_delete_Some in Hk as [_ Hk].
    by eapply Hsessions.
Qed.
End ServiceInvariants.

(** X22: the authentication service stores no empty alias: when no record,
    pending challenge or session carries the empty string for an alias, none
    does after any sequence of calls of the service, whatever aliases the
    calls supply; [sanitizeAlias] turns an empty or blank alias into none
    before the registry, which would store it, sees it. *)
Theorem service_stores_no_empty_alias `{Platform} (calls : list ServiceCall)
    (svc : AuthService) :
  aliasesNamed svc -> aliasesNamed (runServiceCalls calls svc).
Proof.
  unfold runServiceCalls. revert svc.
  induction calls as [| c calls IH]; intros svc Hnamed; cbn; [done |].
  apply IH. by apply runServiceCall_aliasesNamed.
Qed.

Lemma service_stores_no_empty_alias_witness :
  aliasesNamed freshService
  /\ aliasesNamed (@runServiceCalls examplePlatform exampleServiceCalls freshService).
Proof.
  assert (Hnamed : aliasesNamed freshService).
  { repeat split; intros ? ? Hfound; cbn in Hfound; by rewrite lookup_empty in Hfound. }
  split; [done |].
  apply (@service_stores_no_empty_alias examplePlatform exampleServiceCalls freshService
           Hnamed).
Defined.

(** X23: the alias a wallet signs is the alias it gets: the challenge
    [requestChallenge] returns carries the sanitized alias of the request
    or, when that is none, the alias registered for the wallet, if any; and
    when the verification that follows on the service as the request left
    it returns a session for that wallet, the session and the record then
    stored for the wallet carry the alias of the challenge. *)
Theorem alias_flow `{Platform} (env : ChallengeEnv) (input : IdentityInput.t)
    (svc : AuthService) (challenge : WalletChallenge.t)
    (venv : VerifyEnv) (vinput : VerifyInput.t) (session : WalletSession.t) :
  fst (requestChallenge env input svc) = Returned challenge ->
  VerifyInput.wallet vinput = IdentityInput.wallet input ->
  let svc1 := snd (requestChallenge env input svc) in
  fst (verifyChallenge venv vinput svc1) = Returned session ->
  WalletChallenge.alias challenge
  = nullish (sanitizeAlias (IdentityInput.alias input))
            (getIdentity (WalletChallenge.wallet challenge) (identityRegistry svc)
               ≫= IdentityRecord.alias)
  /\ WalletSession.alias session = WalletChallenge.alias challenge
  /\ exists record,
       getIdentity (WalletChallenge.wallet challenge)
                   (identityRegistry (snd (verifyChallenge venv vinput svc1)))
       = Some record
       /\ IdentityRecord.alias record = WalletChallenge.alias challenge.
Proof.
  intros Hrequested Hwallet svc1 Hverified.
  destruct (requestChallenge_returned env input svc challenge Hrequested)
    as (Hchallenges & Hregistry & Hw).
  fold svc1 in Hchallenges, Hregistry. clearbody svc1.
  unfold requestChallenge in Hrequested. unfold_ops.
  cbn -[assertCanLink sanitizeAlias challengeMessage] in Hrequested.
  rewrite Hw in Hrequested.
  cbn -[assertCanLink sanitizeAlias challengeMessage] in Hrequested.
  destruct (validateCarvId (IdentityInput.carvId input)) as [carvId0 | ?];
    cbn -[assertCanLink sanitizeAlias challengeMessage] in Hrequested; [| done].
  destruct (validateAgentId (IdentityInput.agentId input)) as [agentId0 | ?];
    cbn -[assertCanLink sanitizeAlias challengeMessage] in Hrequested; [| done].
  assert (Hidentity :
    forall identity,
      assertCanLink
        (IdentityInput.mk (WalletChallenge.wallet challenge) carvId0 agentId0 None)
        (identityRegistry svc) = Returned identity ->
      identity = getIdentity (WalletChallenge.wallet challenge) (identityRegistry svc)).
  { intros identity. unfold assertCanLink, getIdentity, normalizeKeys. cbn.
    destruct (walletToIdentity (identityRegistry svc)
                !! toLowerCase (WalletChallenge.wallet challenge)) as [existing |].
    - destruct (bindingDiffers existing _ _); [done |]. by intros [= <-].
    - repeat case_match; try done. by intros [= <-]. }
  destruct (assertCanLink
              (IdentityInput.mk (WalletChallenge.wallet challenge) carvId0 agentId0 None)
              (identityRegistry svc)) as [identity | ?] eqn:Hlink;
    cbn -[assertCanLink sanitizeAlias challengeMessage] in Hrequested; [| done].
  specialize (Hidentity identity eq_refl). subst identity.
  injection Hrequested as Hchallenge.
  assert (Halias : WalletChallenge.alias challenge
                   = nullish (sanitizeAlias (IdentityInput.alias input))
                       (getIdentity (WalletChallenge.wallet challenge) (identityRegistry svc)
                          ≫= IdentityRecord.alias))
    by (by rewrite <- Hchallenge).
  clear Hchallenge Hlink.
  split; [done |]. revert Hverified.
  unfold verifyChallenge, dropExpiredChallenges, createSession. unfold_ops.
  cbn -[registerIdentity]. rewrite Hwallet, Hw. cbn -[registerIdentity].
  destruct (validateCarvId (VerifyInput.carvId vinput)); cbn -[registerIdentity]; [| done].
  destruct (validateAgentId (VerifyInput.agentId vinput)); cbn -[registerIdentity]; [| done].
  destruct (bs58_decode (VerifyInput.signature vinput)); cbn -[registerIdentity]; [| done].
  destruct (filter (unexpired (sweptAt venv)) (challenges svc1)
              !! toLowerCase (WalletChallenge.wallet challenge)) as [found |] eqn:Hfound;
    [| done].
  assert (found = challenge) as ->.
  { apply map_lookup_filter_Some in Hfound as [Hfound _].
    rewrite Hchallenges, lookup_insert_eq in Hfound. congruence. }
  repeat (case_match; cbn -[registerIdentity] in *; simplify_eq; try done).
  intros [= <-]. cbn.
  match goal with Hreg : registerIdentity _ _ _ = _ |- _ =>
    unfold registerIdentity, normalizeKeys in Hreg; cbn in Hreg;
    rewrite Hregistry in Hreg end.
  unfold getIdentity in *.
  destruct (walletToIdentity (identityRegistry svc)
              !! toLowerCase (WalletChallenge.wallet challenge)) as [existing |] eqn:Hexisting.
  - destruct (bindingDiffers existing _ _); [done |].
    simplify_eq. cbn in *.
    assert (Hkept : match WalletChallenge.alias challenge with
                    | Some a => Some a
                    | None => IdentityRecord.alias existing
                    end = WalletChallenge.alias challenge).
    { rewrite Halias. destruct (sanitizeAlias (IdentityInput.alias input)); cbn; [done |].
      by destruct (IdentityRecord.alias existing). }
    split; [done |]. eexists. rewrite lookup_insert_eq. split; [done |]. exact Hkept.
  - repeat (case_match; cbn in *; simplify_eq; try done).
    all: split; [done |]; eexists; rewrite lookup_insert_eq; by split.
Qed.

Lemma alias_flow_witness :
  fst (@requestChallenge examplePlatform (mkChallengeEnv NONCE1 0 0)
         (IdentityInput.mk W1 CARV1 AGENT1 (Some (lit "hist-user"))) freshService)
  = Returned pendingChallenge
  /\ WalletSession.alias sessionOfW1 = WalletChallenge.alias pendingChallenge.
Proof.
  assert (Hrequested :
    fst (@requestChallenge examplePlatform (mkChallengeEnv NONCE1 0 0)
           (IdentityInput.mk W1 CARV1 AGENT1 (Some (lit "hist-user"))) freshService)
    = Returned pendingChallenge) by (by vm_compute).
  assert (Hwallet : VerifyInput.wallet goodVerifyInput
                    = IdentityInput.wallet
                        (IdentityInput.mk W1 CARV1 AGENT1 (Some (lit "hist-user"))))
    by (by vm_compute).
  assert (Hverified :
    fst (@verifyChallenge examplePlatform verifyInTime goodVerifyInput
           (snd (@requestChallenge examplePlatform (mkChallengeEnv NONCE1 0 0)
                   (IdentityInput.mk W1 CARV1 AGENT1 (Some (lit "hist-user")))
                   freshService)))
    = Returned sessionOfW1) by (by vm_compute).
  split; [done |].
  exact (proj1 (proj2 (@alias_flow examplePlatform (mkChallengeEnv NONCE1 0 0)
                         (IdentityInput.mk W1 CARV1 AGENT1 (Some (lit "hist-user")))
                         freshService pendingChallenge verifyInTime goodVerifyInput
                         sessionOfW1 Hrequested Hwallet Hverified))).
Defined.

(** X24: a verification leaves the challenges of other wallets alone: for
    every key other than the one of the wallet it verifies, the challenge
    pending under the key is still pending after [verifyChallenge], whatever
    the call came to, unless it had expired at the reading of the clock that
    starts the sweep; and no challenge appears under the key. *)
Theorem verifyChallenge_spares_others `{Platform} (env : VerifyEnv) (input : VerifyInput.t)
    (svc : AuthService) (k : jsstring) :
  (forall wallet,
      validateWallet (VerifyInput.wallet input) = Returned wallet ->
      toLowerCase wallet <> k) ->
  let after := challenges (snd (verifyChallenge env input svc)) !! k in
  match challenges svc !! k with
  | None => after = None
  | Some challenge =>
      if WalletChallenge.expiresAtTs challenge <? sweptAt env
      then after = None \/ after = Some challenge
      else after = Some challenge
  end.
Proof.
  intros Hother after. subst after.
  assert (Hswept : filter (unexpired (sweptAt env)) (challenges svc) !! k
                   = match challenges svc !! k with
                     | Some challenge =>
                         if WalletChallenge.expiresAtTs challenge <? sweptAt env
                         then None else Some challenge
                     | None => None
                     end).
  { destruct (challenges svc !! k) as [challenge |] eqn:Hk.
    - destruct (Z.ltb_spec (WalletChallenge.expiresAtTs challenge) (sweptAt env)).
      + apply map_lookup_filter_None. right. intros c Hc. cbn.
        assert (c = challenge) as -> by congruence. by intros [].
      + apply map_lookup_filter_Some. split; [done |]. cbn. lia.
    - apply map_lookup_filter_None. by left. }
  unfold verifyChallenge, dropExpiredChallenges, createSession. unfold_ops.
  cbn -[registerIdentity].
  destruct (validateWallet (VerifyInput.wallet input)) as [wallet | ?] eqn:Hw;
    cbn -[registerIdentity].
  2: { destruct (challenges svc !! k) as [challenge |]; [| done].
       destruct (_ <? _); [by right | done]. }
  specialize (Hother wallet eq_refl).
  assert (Hafter : forall m : gmap jsstring WalletChallenge.t,
            m = filter (unexpired (sweptAt env)) (challenges svc)
            \/ m = delete (toLowerCase wallet)
                     (filter (unexpired (sweptAt env)) (challenges svc))
            \/ m = challenges svc ->
            match challenges svc !! k with
            | Some challenge =>
                if WalletChallenge.expiresAtTs challenge <? sweptAt env
                then m !! k = None \/ m !! k = Some challenge
                else m !! k = Some challenge
            | None => m !! k = None
            end).
  { intros m [-> | [-> | ->]].
    - rewrite Hswept. destruct (challenges svc !! k) as [challenge |]; [| done].
      destruct (_ <? _); [by left | done].
    - rewrite lookup_delete_ne by done. rewrite Hswept.
      destruct (challenges svc !! k) as [challenge |]; [| done].
      destruct (_ <? _); [by left | done].
    - destruct (challenges svc !! k) as [challenge |]; [| done].
      destruct (_ <? _); [by right | done]. }
  repeat (case_match; cbn -[registerIdentity] in *; simplify_eq;
          try (apply Hafter; by eauto)).
Qed.

Lemma verifyChallenge_spares_others_witness :
  challenges serviceWithChallenge !! asciiToLowerCase W1 = Some pendingChallenge
  /\ challenges
       (snd (@verifyChallenge examplePlatform verifyInTime
               (VerifyInput.mk W2 CARV1 AGENT2
                  (exampleSign W2 (WalletChallenge.message pendingChallenge)) NONCE1)
               serviceWithChallenge))
       !! asciiToLowerCase W1 = Some pendingChallenge.
Proof.
  split; [exact pendingChallenge_pending |].
  assert (Hother : forall wallet,
    @validateWallet examplePlatform
      (VerifyInput.wallet
         (VerifyInput.mk W2 CARV1 AGENT2
            (exampleSign W2 (WalletChallenge.message pendingChallenge)) NONCE1))
    = Returned wallet ->
    @toLowerCase examplePlatform wallet <> asciiToLowerCase W1).
  { intros wallet Hvalid. vm_compute in Hvalid. injection Hvalid as <-. by vm_compute. }
  pose proof (@verifyChallenge_spares_others examplePlatform verifyInTime
                (VerifyInput.mk W2 CARV1 AGENT2
                   (exampleSign W2 (WalletChallenge.message pendingChallenge)) NONCE1)
                serviceWithChallenge (asciiToLowerCase W1) Hother) as Hspared.
  cbv zeta in Hspared. rewrite pendingChallenge_pending in Hspared.
  exact Hspared.
Defined.

(** ** Reload of the registry *)

Section RegistryReloadProperties.
Context `{Platform}.

Lemma registryRestorable_empty : registryRestorable emptyRegistry.
Proof.
  split; [apply registryConsistent_empty |].
  split; [| split]; intros ? ? Hfound; cbn in Hfound; by rewrite lookup_empty in Hfound.
Qed.

Lemma registerIdentity_restorable (now : Z) (input : IdentityInput.t)
    (reg : IdentityRegistry) :
  registersWholeIdentity (CallRegisterIdentity now input) ->
  registryRestorable reg ->
  registryRestorable (snd (registerIdentity now input reg)).
Proof.
  intros (Hnamed & Hwallet & Hcarv & Hagent) (Hconsistent & Hwhole & Hcarvs & Hagents).
  split; [by apply registerIdentity_consistent |].
  unfold registerIdentity, normalizeKeys.
  set (walletKey := toLowerCase (IdentityInput.wallet input)) in *.
  destruct (walletToIdentity reg !! walletKey) as [existing |] eqn:Hexisting.
  - destruct (bindingDiffers existing _ _); cbn; [done |].
    split; [| split].
    + intros k r Hk. apply lookup_insert_Some in Hk as [[<- <-] | [_ Hk]];
        [| by apply Hwhole]. cbn. by apply Hwhole.
    + intros carvKey k Hc. destruct (Hcarvs carvKey k Hc) as (r & Hr & Hkey).
      destruct (decide (walletKey = k)) as [<- | Hne].
      * rewrite lookup_insert_eq. eexists. split; [done |]. cbn. congruence.
      * rewrite lookup_insert_ne by done. by exists r.
    + intros agentKey k Ha. destruct (Hagents agentKey k Ha) as (r & Hr & Hkey).
      destruct (decide (walletKey = k)) as [<- | Hne].
      * rewrite lookup_insert_eq. eexists. split; [done |]. cbn. congruence.
      * rewrite lookup_insert_ne by done. by exists r.
  - destruct (assertCanLink input reg); cbn; [| done].
    split; [| split].
    + intros k r Hk. apply lookup_insert_Some in Hk as [[<- <-] | [_ Hk]];
        [done | by apply Hwhole].
    + intros carvKey k Hc. apply lookup_insert_Some in Hc as [[<- <-] | [_ Hc]].
      * rewrite lookup_insert_eq. by eexists.
      * destruct (Hcarvs carvKey k Hc) as (r & Hr & Hkey).
        rewrite lookup_insert_ne by congruence. by exists r.
    + intros agentKey k Ha. apply lookup_insert_Some in Ha as [[<- <-] | [_ Ha]].
      * rewrite lookup_insert_eq. by eexists.
      * destruct (Hagents agentKey k Ha) as (r & Hr & Hkey).
        rewrite lookup_insert_ne by congruence. by exists r.
Qed.

Lemma touchStored_restorable (now : Z) (walletKey : jsstring) (reg : IdentityRegistry) :
  registryRestorable reg -> registryRestorable (touchStored now walletKey reg).
Proof.
  intros (Hconsistent & Hwhole & Hcarvs & Hagents).
  split; [by apply touchStored_consistent |].
  unfold touchStored. cbn. split; [| split].
  - intros k r. rewrite lookup_alter. case_decide as Hk; [| apply Hwhole].
    subst k. destruct (walletToIdentity reg !! walletKey) as [r0 |] eqn:Hr0;
      cbn; intros [= <-]. cbn. by apply Hwhole.
  - intros carvKey k Hc. destruct (Hcarvs carvKey k Hc) as (r & Hr & Hkey).
    rewrite lookup_alter. case_decide as Hk.
    + subst k. rewrite Hr. cbn. by eexists.
    + by exists r.
  - intros agentKey k Ha. destruct (Hagents agentKey k Ha) as (r & Hr & Hkey).
    rewrite lookup_alter. case_decide as Hk.
    + subst k. rewrite Hr. cbn. by eexists.
    + by exists r.
Qed.

Lemma runRegistryCalls_restorable (calls : list RegistryCall) (reg : IdentityRegistry) :
  Forall registersWholeIdentity calls ->
  registryRestorable reg -> registryRestorable (runRegistryCalls calls reg).
Proof.
  unfold runRegistryCalls. intros Hcalls. revert reg.
  induction Hcalls as [| c calls Hc _ IH]; intros reg Hreg; cbn; [done |].
  apply IH. destruct c as [input | now input | now walletKey]; cbn.
  - done.
  - by apply registerIdentity_restorable.
  - by apply touchStored_restorable.
Qed.

(** Records of [reg] loaded in any order give maps within those of [reg]
    that hold every record loaded. *)
Lemma loadRecords_within (reg : IdentityRegistry) (records : list IdentityRecord.t) :
  registryRestorable reg ->
  (forall r, r ∈ records -> exists k, walletToIdentity reg !! k = Some r) ->
  let loaded := foldl loadRecord emptyRegistry records in
  walletToIdentity loaded ⊆ walletToIdentity reg
  /\ carvIdToWallet loaded ⊆ carvIdToWallet reg
  /\ agentIdToWallet loaded ⊆ agentIdToWallet reg
  /\ forall r,
       r ∈ records ->
       is_Some (walletToIdentity loaded !! toLowerCase (IdentityRecord.wallet r))
       /\ is_Some (carvIdToWallet loaded !! toLowerCase (IdentityRecord.carvId r))
       /\ is_Some (agentIdToWallet loaded !! toLowerCase (IdentityRecord.agentId r)).
Proof.
  intros ((Hindexed & _ & _) & Hwhole & _ & _).
  induction records as [| record records IH] using rev_ind; intros Hrecords loaded.
  - subst loaded. cbn. repeat split; try apply map_empty_subseteq.
    all: by apply elem_of_nil in H0.
  - subst loaded. rewrite foldl_app. cbn [foldl].
    destruct IH as (Hwallets & Hcarvs & Hagents & Hloaded).
    { intros r Hr. apply Hrecords. apply elem_of_app. by left. }
    set (loaded := foldl loadRecord emptyRegistry records) in *.
    destruct (Hrecords record) as (k & Hk); [apply elem_of_app; right; by left |].
    destruct (Hwhole k record Hk) as (-> & Hw & Hc & Ha).
    destruct (Hindexed _ _ Hk) as [Hcarv Hagent].
    unfold loadRecord.
    destruct (IdentityRecord.wallet record) as [| w ws] eqn:Ewallet; [done |].
    destruct (IdentityRecord.carvId record) as [| c cs] eqn:Ecarv; [done |].
    destruct (IdentityRecord.agentId record) as [| a as_] eqn:Eagent; [done |].
    cbn [truthy andb walletToIdentity carvIdToWallet agentIdToWallet].
    split; [by apply insert_subseteq_l |].
    split; [by apply insert_subseteq_l |].
    split; [by apply insert_subseteq_l |].
    intros r Hr. apply elem_of_app in Hr as [Hr | Hr].
    + destruct (Hloaded r Hr) as (Hw' & Hc' & Ha').
      repeat split; rewrite lookup_insert_is_Some'; by right.
    + apply list_elem_of_singleton in Hr as ->. rewrite Ewallet, Ecarv, Eagent.
      repeat split; rewrite lookup_insert_is_Some'; by left.
Qed.
End RegistryReloadProperties.

(** X25: what the registry persists is enough to restore it: after any
    sequence of [assertCanLink], [registerIdentity] and [touchIdentity] calls
    on an empty registry that register only wallets, CARV IDs and agent IDs
    that are not empty, [loadFromDisk] rebuilds the registry exactly, the two
    index maps included, from the records it held, in whatever order and
    however often the file lists them. *)
Theorem registry_restored `{Platform} (calls : list RegistryCall)
    (records : list IdentityRecord.t) :
  Forall registersWholeIdentity calls ->
  let reg := runRegistryCalls calls emptyRegistry in
  (forall r, r ∈ records <-> exists k, walletToIdentity reg !! k = Some r) ->
  loadFromDisk records = reg.
Proof.
  intros Hcalls reg Hrecords.
  assert (Hrestorable : registryRestorable reg)
    by (apply runRegistryCalls_restorable; [done | apply registryRestorable_empty]).
  destruct (loadRecords_within reg records Hrestorable)
    as (Hwallets & Hcarvs & Hagents & Hloaded).
  { intros r Hr. by apply Hrecords. }
  destruct Hrestorable as ((Hindexed & _ & _) & Hwhole & Hcarvs' & Hagents').
  unfold loadFromDisk. clearbody reg.
  set (loaded := foldl loadRecord emptyRegistry records) in *. clearbody loaded.
  assert (Hheld : forall k r,
            walletToIdentity reg !! k = Some r ->
            walletToIdentity loaded !! k = Some r
            /\ carvIdToWallet loaded !! toLowerCase (IdentityRecord.carvId r) = Some k
            /\ agentIdToWallet loaded !! toLowerCase (IdentityRecord.agentId r) = Some k).
  { intros k r Hk.
    destruct (Hloaded r) as ([r' Hr'] & [k1 Hk1] & [k2 Hk2]); [apply Hrecords; by eexists |].
    destruct (Hwhole k r Hk) as (-> & _).
    destruct (Hindexed _ _ Hk) as [Hcarv Hagent].
    pose proof (map_subseteq_spec (walletToIdentity loaded) (walletToIdentity reg)) as Hw.
    pose proof (map_subseteq_spec (carvIdToWallet loaded) (carvIdToWallet reg)) as Hc.
    pose proof (map_subseteq_spec (agentIdToWallet loaded) (agentIdToWallet reg)) as Ha.
    repeat split.
    - rewrite Hr'. f_equal. apply (proj1 Hw Hwallets) in Hr'. congruence.
    - rewrite Hk1. f_equal. apply (proj1 Hc Hcarvs) in Hk1. congruence.
    - rewrite Hk2. f_equal. apply (proj1 Ha Hagents) in Hk2. congruence. }
  destruct loaded as [lw lc la], reg as [rw rc ra]. cbn in *. f_equal.
  - apply map_eq. intros k. destruct (rw !! k) as [r |] eqn:Hk.
    + by apply Hheld.
    + destruct (lw !! k) as [r |] eqn:Hl; [| done].
      eapply map_subseteq_spec in Hl; [| exact Hwallets]. congruence.
  - apply map_eq. intros carvKey. destruct (rc !! carvKey) as [k |] eqn:Hc.
    + destruct (Hcarvs' carvKey k Hc) as (r & Hr & <-). by apply Hheld.
    + destruct (lc !! carvKey) as [k |] eqn:Hl; [| done].
      eapply map_subseteq_spec in Hl; [| exact Hcarvs]. congruence.
  - apply map_eq. intros agentKey. destruct (ra !! agentKey) as [k |] eqn:Ha.
    + destruct (Hagents' agentKey k Ha) as (r & Hr & <-). by apply Hheld.
    + destruct (la !! agentKey) as [k |] eqn:Hl; [| done].
      eapply map_subseteq_spec in Hl; [| exact Hagents]. congruence.
Qed.

Lemma registry_restored_witness :
  @loadFromDisk examplePlatform persistedRecords
  = @runRegistryCalls examplePlatform restoreCalls emptyRegistry.
Proof.
  assert (Hstored :
            (map_to_list (walletToIdentity
                            (@runRegistryCalls examplePlatform restoreCalls emptyRegistry))).*2
            = rev persistedRecords)
    by (vm_compute; reflexivity).
  assert (Hfirst :
            walletToIdentity (@runRegistryCalls examplePlatform restoreCalls emptyRegistry)
              !! asciiToLowerCase W1
            = Some (IdentityRecord.mk W1 CARV1 AGENT1 (Some (lit "hist-user")) 1 3 2))
    by (vm_compute; reflexivity).
  assert (Hsecond :
            walletToIdentity (@runRegistryCalls examplePlatform restoreCalls emptyRegistry)
              !! asciiToLowerCase W2
            = Some (IdentityRecord.mk W2 (lit "carv_second") AGENT2 None 2 2 1))
    by (vm_compute; reflexivity).
  apply (@registry_restored examplePlatform restoreCalls persistedRecords).
  - repeat (apply List.Forall_cons || apply List.Forall_nil); vm_compute;
      first [exact I | repeat split; discriminate].
  - intros r. split.
    + unfold persistedRecords. intros Hr. apply elem_of_cons in Hr as [-> | Hr].
      { by exists (asciiToLowerCase W2). }
      apply list_elem_of_singleton in Hr as ->. by exists (asciiToLowerCase W1).
    + intros [k Hk]. apply elem_of_map_to_list in Hk.
      apply (list_elem_of_fmap_2 snd) in Hk. rewrite Hstored in Hk.
      by apply elem_of_reverse.
Defined.
